(** * veeqai-super-admin: session lifecycle, token refresh, CSRF and input
      sanitisation

    A shallow embedding of
      - src/lib/validation.ts      (SuperAdminValidator)
      - src/lib/csrf-protection.ts (SuperAdminCSRFProtection)
      - src/lib/session-manager.ts (AdminSessionManager)
      - src/lib/auth.ts            (AuthService)
      - the API client             (SuperAdminApiClient, SuperAdminApiError)
      - src/lib/security.ts        (sanitizeInput, RateLimiter, SessionManager)

    Conventions.
      - The browser is an explicit record: the clock [Date.now()] reads,
        the timers and intervals scheduled, [localStorage], the listeners
        on [document], the dialogs shown, the assignments to
        [window.location.href] (logged; the script goes on running),
        and the requests in flight. Every method takes the world and
        returns the world it leaves.
      - JavaScript runs one callback at a time. A synchronous method is one
        function; the clock stands still while it runs, except while a
        [confirm] dialog waits for its answer. An [async] method
        is cut at its [await]: a function up to the request and a function
        from the reply on, with whatever else happens in between as steps
        of the event loop.
      - What the platform or the user decides (the answer to [confirm],
        the reply of the backend, random bytes) is an argument.
      - Numbers are integers ([Z]); the code only ever computes with
        millisecond counts and minute counts. *)

From Stdlib Require Import ZArith Lia Bool.
From stdpp Require Import base option list gmap strings.

Local Open Scope Z_scope.

(* ===================================================================== *)
(** ** JavaScript strings and values *)
(* ===================================================================== *)

Module Js.

(** A JavaScript string is a sequence of UTF-16 code units. *)
Abbreviation jsstring := (list Z).

Definition code_unit (c : Z) : Prop := 0 <= c < 65536.
Definition wf_jsstring (s : jsstring) : Prop := Forall code_unit s.

(** Source literals are ASCII; [lit] turns one into code units. *)
Fixpoint lit (s : string) : jsstring :=
  match s with
  | EmptyString => []
  | String a r => Z.of_nat (Ascii.nat_of_ascii a) :: lit r
  end.

(** The values a call site can pass where TypeScript says [string]. *)
Inductive JsValue :=
| JUndefined
| JNull
| JBoolean (b : bool)
| JNumber (n : Z)
| JObject
| JString (s : jsstring).

(** [typeof v === 'string'] *)
Definition is_string (v : JsValue) : bool :=
  match v with JString _ => true | _ => false end.

(** ToBoolean *)
Definition truthy (v : JsValue) : bool :=
  match v with
  | JUndefined | JNull => false
  | JBoolean b => b
  | JNumber n => negb (n =? 0)
  | JObject => true
  | JString s => match s with [] => false | _ => true end
  end.

(** ToBoolean on something typed [string | null]. *)
Definition truthy_str (o : option jsstring) : bool :=
  match o with
  | Some (_ :: _) => true
  | _ => false
  end.

(** ToInt32, applied by the bitwise operators to their operands;
    [None] is NaN. *)
Definition to_int32 (n : option Z) : Z :=
  match n with
  | None => 0
  | Some z =>
      let m := z mod 2 ^ 32 in
      if m <? 2 ^ 31 then m else m - 2 ^ 32
  end.

(** [a ^ b] and [a | b] *)
Definition bxor (a b : option Z) : Z := Z.lxor (to_int32 a) (to_int32 b).
Definition bor (a b : option Z) : Z := Z.lor (to_int32 a) (to_int32 b).

(** [s.charCodeAt(i)]: NaN outside the string. *)
Definition charCodeAt (s : jsstring) (i : nat) : option Z := s !! i.

(** WhiteSpace and LineTerminator code units, as [String.prototype.trim]
    strips them. *)
Definition is_space (c : Z) : bool :=
  ((9 <=? c) && (c <=? 13)) || (c =? 32) || (c =? 160) || (c =? 5760)
  || ((8192 <=? c) && (c <=? 8202)) || (c =? 8232) || (c =? 8233)
  || (c =? 8239) || (c =? 8287) || (c =? 12288) || (c =? 65279).

Fixpoint trimStart (s : jsstring) : jsstring :=
  match s with
  | [] => []
  | c :: t => if is_space c then trimStart t else s
  end.

Definition trimEnd (s : jsstring) : jsstring :=
  reverse (trimStart (reverse s)).

Definition trim (s : jsstring) : jsstring := trimEnd (trimStart s).

(** [s.replace(/re/g, '')]: scan left to right; where the matcher finds a
    match of [n > 0] code units starting at the current position, drop
    them and resume after the match, otherwise keep the code unit and
    advance by one. [skip] counts the code units of the current match
    still to be dropped. *)
Fixpoint remove_go (m : jsstring -> option nat) (skip : nat) (s : jsstring)
  : jsstring :=
  match s with
  | [] => []
  | c :: t =>
      match skip with
      | S k => remove_go m k t
      | O =>
          match m s with
          | Some (S k) => remove_go m k t
          | _ => c :: remove_go m O t
          end
      end
  end.

Definition remove_all (m : jsstring -> option nat) (s : jsstring) : jsstring :=
  remove_go m O s.

Definition is_upper (c : Z) : bool := (65 <=? c) && (c <=? 90).
Definition is_lower (c : Z) : bool := (97 <=? c) && (c <=? 122).
Definition is_digit (c : Z) : bool := (48 <=? c) && (c <=? 57).

(** Canonicalize of the [i] flag without the [u] flag, restricted to what
    it does around ASCII: a lower-case ASCII letter maps to its upper-case
    form, and no code unit above 127 maps into ASCII. *)
Definition canon (c : Z) : Z := if is_lower c then c - 32 else c.

Definition ci_eq (p c : Z) : bool := canon p =? canon c.

(** A literal pattern under the [i] flag, matched at the head of [s]:
    the length of the match. *)
Fixpoint match_ci (pat s : jsstring) : option nat :=
  match pat with
  | [] => Some O
  | p :: pat' =>
      match s with
      | [] => None
      | c :: s' =>
          if ci_eq p c
          then match match_ci pat' s' with
               | Some n => Some (S n)
               | None => None
               end
          else None
      end
  end.

(** [\w] *)
Definition is_word (c : Z) : bool :=
  is_upper c || is_lower c || is_digit c || (c =? 95).

(** The longest run of [\w] at the head of [s], and what follows it. *)
Fixpoint word_run (s : jsstring) : nat * jsstring :=
  match s with
  | c :: t => if is_word c
              then let '(n, r) := word_run t in (S n, r)
              else (O, s)
  | [] => (O, [])
  end.

(** [/on\w+=/i] at the head of [s]. The greedy [\w+] takes the whole run;
    giving code units back cannot help, since each of them is a word
    character and not [=]. *)
Definition match_on_handler (s : jsstring) : option nat :=
  match s with
  | o :: n :: r =>
      if ci_eq 111 o && ci_eq 110 n
      then match word_run r with
           | (S k, e :: _) => if e =? 61 then Some (2 + S k + 1)%nat else None
           | _ => None
           end
      else None
  | _ => None
  end.

(** Decimal [Number.prototype.toString] of an integer. *)
Fixpoint digits_go (fuel : nat) (n : Z) (acc : jsstring) : jsstring :=
  match fuel with
  | O => acc
  | S f =>
      let acc' := (48 + n mod 10) :: acc in
      if n <? 10 then acc' else digits_go f (n / 10) acc'
  end.

Definition toString (n : Z) : jsstring :=
  if n <? 0
  then 45 :: digits_go (Z.to_nat (Z.log2 (- n)) + 1) (- n) []
  else digits_go (Z.to_nat (Z.log2 n) + 1) n [].

(** [parseInt(s)] without a radix: leading white space, an optional sign,
    an optional [0x] prefix, then the longest prefix of digits; NaN
    ([None]) when there is no digit. *)
Definition digit_value (radix c : Z) : option Z :=
  let v := if is_digit c then c - 48
           else if is_lower c then c - 87
           else if is_upper c then c - 55
           else 36 in
  if v <? radix then Some v else None.

Fixpoint parse_digits (radix : Z) (s : jsstring) (acc : option Z) : option Z :=
  match s with
  | [] => acc
  | c :: t =>
      match digit_value radix c with
      | Some v => parse_digits radix t (Some (default 0 acc * radix + v))
      | None => acc
      end
  end.

Definition parseInt (s : jsstring) : option Z :=
  let s1 := trimStart s in
  let '(sign, s2) :=
    match s1 with
    | 45 :: r => (-1, r)
    | 43 :: r => (1, r)
    | _ => (1, s1)
    end in
  let '(radix, s3) :=
    match s2 with
    | 48 :: x :: r => if (x =? 120) || (x =? 88) then (16, r) else (10, s2)
    | _ => (10, s2)
    end in
  option_map (Z.mul sign) (parse_digits radix s3 None).

(** [s.startsWith(p)] and [s.includes(p)] *)
Fixpoint startsWith (s p : jsstring) {struct p} : bool :=
  match p with
  | [] => true
  | c :: p' =>
      match s with
      | [] => false
      | d :: s' => (c =? d) && startsWith s' p'
      end
  end.

Fixpoint includes (s p : jsstring) : bool :=
  startsWith s p ||
  match s with
  | [] => false
  | _ :: s' => includes s' p
  end.

(** [\b]: a word character on exactly one side. At either end of the
    string the missing neighbour counts as a non-word character. *)
Definition is_word_at (c : option Z) : bool :=
  match c with
  | Some c => is_word c
  | None => false
  end.

Definition word_boundary (before after : option Z) : bool :=
  xorb (is_word_at before) (is_word_at after).

(** [s.replace(/re/g, '')] for a pattern that looks behind: the matcher
    is also given the code unit before the current position, which is
    the one of the string scanned, removed or not. *)
Fixpoint remove_ctx_go (m : option Z -> jsstring -> option nat)
  (prev : option Z) (skip : nat) (s : jsstring) : jsstring :=
  match s with
  | [] => []
  | c :: t =>
      match skip with
      | S k => remove_ctx_go m (Some c) k t
      | O =>
          match m prev s with
          | Some (S k) => remove_ctx_go m (Some c) k t
          | _ => c :: remove_ctx_go m (Some c) O t
          end
      end
  end.

Definition remove_all_ctx (m : option Z -> jsstring -> option nat)
  (s : jsstring) : jsstring :=
  remove_ctx_go m None O s.

End Js.

(* ===================================================================== *)
(** ** src/lib/validation.ts *)
(* ===================================================================== *)

Module SuperAdminValidator.
Import Js.

(** The character class of the first replace: less-than (60),
    greater-than (62), apostrophe (39), double quote (34), ampersand (38). *)
Definition is_xss_char (c : Z) : bool :=
  (c =? 60) || (c =? 62) || (c =? 39) || (c =? 34) || (c =? 38).

Definition sanitizeInput (input : JsValue) : jsstring :=
  if negb (truthy input) || negb (is_string input) then []
  else
    match input with
    | JString s =>
        let s1 := trim s in
        let s2 := filter (fun c => is_xss_char c = false) s1 in
        let s3 := remove_all (match_ci (lit "javascript:")) s2 in
        let s4 := remove_all match_on_handler s3 in
        let s5 := remove_all (match_ci (lit "data:")) s4 in
        let s6 := remove_all (match_ci (lit "vbscript:")) s5 in
        remove_all (match_ci (lit "expression(")) s6
    | _ => []
    end.

(** [class ValidationError]: the message and the field. *)
Record ValidationError := mkValidationError {
  message : string;
  field : string
}.

(** How a validator ends: it returns the cleaned string or throws. *)
Inductive Validated :=
| Returns (s : jsstring)
| Throws (e : ValidationError).

Definition allowedActions : list jsstring :=
  map lit
    ["create_user"; "delete_user"; "update_user"; "view_user";
     "create_model"; "delete_model"; "update_model"; "test_model";
     "create_plan"; "delete_plan"; "update_plan";
     "generate_music"; "delete_music"; "feature_music";
     "view_analytics"; "export_data"; "system_settings"]%string.

Definition validateAdminAction (action : JsValue) : Validated :=
  let sanitized := sanitizeInput action in
  if negb (truthy (JString sanitized))
  then Throws (mkValidationError "Action is required" "action")
  else if negb (bool_decide (sanitized ∈ allowedActions))
  then Throws (mkValidationError "Invalid admin action" "action")
  else Returns sanitized.

(** The class of [nameRegex]: a letter, [\s] or a hyphen. *)
Definition is_name_char (c : Z) : bool :=
  is_lower c || is_upper c || is_space c || (c =? 45).

Definition validateAdminName (name : JsValue) : Validated :=
  let sanitized := sanitizeInput name in
  if negb (truthy (JString sanitized))
  then Throws (mkValidationError "Name is required" "name")
  else if (length sanitized <? 2)%nat
  then Throws (mkValidationError "Name must be at least 2 characters long" "name")
  else if (30 <? length sanitized)%nat
  then Throws (mkValidationError "Name is too long" "name")
  else if negb (forallb is_name_char sanitized)
  then Throws (mkValidationError "Name contains invalid characters" "name")
  else Returns sanitized.

(** The class of the first replace of [sanitizeSearchQuery]: apostrophe
    (39), double quote (34), backtick (96), semicolon (59), backslash
    (92). *)
Definition is_sql_char (c : Z) : bool :=
  (c =? 39) || (c =? 34) || (c =? 96) || (c =? 59) || (c =? 92).

Definition sql_keywords : list jsstring :=
  map lit
    ["SELECT"; "INSERT"; "UPDATE"; "DELETE"; "DROP"; "CREATE"; "ALTER";
     "EXEC"; "UNION"; "OR"; "AND"]%string.

(** The alternation followed by [\b], at the head of [s]: the
    alternatives are tried in order, and one that matches but is not
    followed by a boundary gives way to the next. *)
Fixpoint match_alternatives (alts : list jsstring) (s : jsstring)
  : option nat :=
  match alts with
  | [] => None
  | k :: alts' =>
      match match_ci k s with
      | Some n =>
          if word_boundary (last (take n s)) (s !! n) then Some n
          else match_alternatives alts' s
      | None => match_alternatives alts' s
      end
  end.

(** The whole of the keyword pattern, with the flag [i], at the head of
    [s], [prev] being the code unit before it. *)
Definition match_keyword (prev : option Z) (s : jsstring) : option nat :=
  if word_boundary prev (head s) then match_alternatives sql_keywords s
  else None.

Definition sanitizeSearchQuery (query : JsValue) : jsstring :=
  if negb (truthy query) || negb (is_string query) then []
  else
    match query with
    | JString s =>
        let s1 := trim s in
        let s2 := filter (fun c => is_sql_char c = false) s1 in
        let s3 := remove_all_ctx match_keyword s2 in
        take 100 s3
    | _ => []
    end.

End SuperAdminValidator.

(* ===================================================================== *)
(** ** src/lib/csrf-protection.ts *)
(* ===================================================================== *)

Module SuperAdminCSRFProtection.
Import Js.

Definition TOKEN_STORAGE_KEY : string := "admin_csrf_token".
Definition TIMESTAMP_KEY : string := TOKEN_STORAGE_KEY +:+ "_timestamp".

(** The static fields of the class together with the session storage
    they are mirrored into. [TOKEN_EXPIRY] is a field because
    [configure] overwrites it. *)
Record Csrf := mkCsrf {
  token : option jsstring;
  sessionStorage : gmap string jsstring;
  TOKEN_EXPIRY : Z
}.

Definition initial : Csrf :=
  {| token := None; sessionStorage := ∅; TOKEN_EXPIRY := 30 * 60 * 1000 |}.

(** What the platform answers when a token has to be generated:
    [crypto.getRandomValues] fills the 48-element array, or it throws
    and the fallback reads [Math.random().toString(36).substr(2, 16)]. *)
Inductive Entropy :=
| RandomValues (bytes : list Z)
| CryptoThrows (rnd : jsstring).

Definition hex_digit (d : Z) : Z := if d <? 10 then 48 + d else 87 + d.

(** [byte.toString(16).padStart(2, '0')] for an element of a
    [Uint8Array]. *)
Definition hex2 (b : Z) : jsstring :=
  let b := b mod 256 in [hex_digit (b / 16); hex_digit (b mod 16)].

Definition setToken (tok : jsstring) (now : Z) (c : Csrf) : Csrf :=
  {| token := Some tok;
     sessionStorage :=
       <[TIMESTAMP_KEY := toString now]>
         (<[TOKEN_STORAGE_KEY := tok]> (sessionStorage c));
     TOKEN_EXPIRY := TOKEN_EXPIRY c |}.

Definition generateSecureToken (e : Entropy) (now : Z) (c : Csrf) : Csrf :=
  match e with
  | RandomValues bytes =>
      setToken (concat (map hex2 (resize 48 0 bytes))) now c
  | CryptoThrows rnd =>
      setToken (lit "admin_" ++ toString now ++ lit "_" ++ rnd) now c
  end.

(** A comparison with NaN is false. *)
Definition isTokenExpired (now : Z) (c : Csrf) : bool :=
  match sessionStorage c !! TIMESTAMP_KEY with
  | None => true
  | Some ts =>
      if negb (truthy_str (Some ts)) then true
      else match parseInt ts with
           | Some t => now - t >? TOKEN_EXPIRY c
           | None => false
           end
  end.

Definition getToken (e : Entropy) (now : Z) (c : Csrf)
  : option jsstring * Csrf :=
  let c' := if negb (truthy_str (token c)) || isTokenExpired now c
            then generateSecureToken e now c
            else c in
  (token c', c').

Fixpoint compare_loop (a b : jsstring) (i n : nat) (result : Z) : Z :=
  match n with
  | O => result
  | S n' =>
      compare_loop a b (S i) n'
        (bor (Some result) (Some (bxor (charCodeAt a i) (charCodeAt b i))))
  end.

Definition constantTimeEqual (a b : jsstring) : bool :=
  if negb (length a =? length b)%nat then false
  else compare_loop a b O (length a) 0 =? 0.

Definition validateAdminToken (requestToken : jsstring)
  (e : Entropy) (now : Z) (c : Csrf) : bool * Csrf :=
  let '(currentToken, c') := getToken e now c in
  match currentToken with
  | Some cur =>
      if negb (truthy_str currentToken) || negb (truthy_str (Some requestToken))
      then (false, c')
      else (constantTimeEqual cur requestToken, c')
  | None => (false, c')
  end.

(** The strings the platform hands over are strings. *)
Definition wf_entropy (e : Entropy) : Prop :=
  match e with
  | RandomValues _ => True
  | CryptoThrows rnd => wf_jsstring rnd
  end.

Definition wf_csrf (c : Csrf) : Prop :=
  forall t, token c = Some t -> wf_jsstring t.

Definition clearToken (c : Csrf) : Csrf :=
  {| token := None;
     sessionStorage :=
       delete TIMESTAMP_KEY (delete TOKEN_STORAGE_KEY (sessionStorage c));
     TOKEN_EXPIRY := TOKEN_EXPIRY c |}.

(** What [Date.now()] can return: a time value, which is an integer of
    at most 8.64e15 milliseconds and is written in plain decimal digits
    by [toString]. *)
Definition time_value (t : Z) : Prop := 0 <= t <= 8640000000000000.

(** The characters [toString(16)] produces: a digit or a lower-case
    letter from a to f. *)
Definition is_hex_digit (c : Z) : bool :=
  is_digit c || ((97 <=? c) && (c <=? 102)).

End SuperAdminCSRFProtection.

(* ===================================================================== *)
(** ** The browser environment *)
(* ===================================================================== *)

(** Tokens, user fields, storage keys, endpoints and messages are opaque
    to the session code, so this part of the development writes them as
    plain [string]s. *)

Module Browser.

(** auth.ts, [interface AuthUser] *)
Record AuthUser := mkUser {
  id : string;
  email : string;
  role : string;
  name : string
}.

(** What a storage entry holds: a string written as it is, or
    [JSON.stringify(user)], kept symbolic. Both are non-null strings;
    only the empty raw string is falsy. *)
Inductive StoreVal :=
| Raw (s : string)
| Json (u : AuthUser).

Definition truthy_item (o : option StoreVal) : bool :=
  match o with
  | None => false
  | Some (Raw s) => negb (String.eqb s "")
  | Some (Json _) => true
  end.

(** The three closures session-manager.ts hands to [setTimeout] and
    [setInterval]. *)
Inductive Callback :=
| ShowTimeoutWarning
| HandleSessionTimeout
| PeriodicCheck.

#[global] Instance Callback_eq_dec : EqDecision Callback.
Proof. solve_decision. Defined.

Record Timer := mkTimer {
  handle : nat;
  callback : Callback;
  delay : Z;
  armedAt : Z
}.

Inductive Dialog :=
| Confirm (remainingMinutes : Z)
| Alert.

Record Request := mkRequest {
  rid : nat;
  endpoint : string
}.

Record Env := mkEnv {
  clock : Z;                                  (* Date.now() *)
  nextHandle : nat;                           (* timer ids are positive *)
  timeouts : list Timer;                      (* the manager's pending setTimeout *)
  intervals : list Timer;                     (* the manager's live setInterval *)
  localStorage : gmap string StoreVal;
  nextFunction : nat;                         (* function identities *)
  documentListeners : list (string * nat);    (* capture-phase listeners *)
  dialogs : list Dialog;                      (* confirm()/alert() shown *)
  navigations : list string;                  (* window.location.href = .. *)
  nextRequest : nat;
  outstanding : list Request;                 (* fetches not yet settled *)
  verifications : nat                         (* AuthService.verifyToken() started *)
}.

Definition set_clock (t : Z) (e : Env) : Env :=
  mkEnv t (nextHandle e) (timeouts e) (intervals e) (localStorage e)
    (nextFunction e) (documentListeners e) (dialogs e) (navigations e)
    (nextRequest e) (outstanding e) (verifications e).

Definition set_timers (n : nat) (ts : list Timer) (e : Env) : Env :=
  mkEnv (clock e) n ts (intervals e) (localStorage e)
    (nextFunction e) (documentListeners e) (dialogs e) (navigations e)
    (nextRequest e) (outstanding e) (verifications e).

Definition set_intervals (n : nat) (ts : list Timer) (e : Env) : Env :=
  mkEnv (clock e) n (timeouts e) ts (localStorage e)
    (nextFunction e) (documentListeners e) (dialogs e) (navigations e)
    (nextRequest e) (outstanding e) (verifications e).

Definition set_localStorage (m : gmap string StoreVal) (e : Env) : Env :=
  mkEnv (clock e) (nextHandle e) (timeouts e) (intervals e) m
    (nextFunction e) (documentListeners e) (dialogs e) (navigations e)
    (nextRequest e) (outstanding e) (verifications e).

Definition set_listeners (n : nat) (ls : list (string * nat)) (e : Env) : Env :=
  mkEnv (clock e) (nextHandle e) (timeouts e) (intervals e) (localStorage e)
    n ls (dialogs e) (navigations e)
    (nextRequest e) (outstanding e) (verifications e).

Definition set_dialogs (ds : list Dialog) (e : Env) : Env :=
  mkEnv (clock e) (nextHandle e) (timeouts e) (intervals e) (localStorage e)
    (nextFunction e) (documentListeners e) ds (navigations e)
    (nextRequest e) (outstanding e) (verifications e).

Definition set_navigations (ns : list string) (e : Env) : Env :=
  mkEnv (clock e) (nextHandle e) (timeouts e) (intervals e) (localStorage e)
    (nextFunction e) (documentListeners e) (dialogs e) ns
    (nextRequest e) (outstanding e) (verifications e).

Definition set_requests (n : nat) (rs : list Request) (e : Env) : Env :=
  mkEnv (clock e) (nextHandle e) (timeouts e) (intervals e) (localStorage e)
    (nextFunction e) (documentListeners e) (dialogs e) (navigations e)
    n rs (verifications e).

Definition set_verifications (n : nat) (e : Env) : Env :=
  mkEnv (clock e) (nextHandle e) (timeouts e) (intervals e) (localStorage e)
    (nextFunction e) (documentListeners e) (dialogs e) (navigations e)
    (nextRequest e) (outstanding e) n.

(** A browser that has just loaded the page at time [t] with the
    durable storage [ls]. *)
Definition fresh (t : Z) (ls : gmap string StoreVal) : Env :=
  mkEnv t 1 [] [] ls 1 [] [] [] 1 [] 0.

(** *** Timers *)

Definition setTimeout (cb : Callback) (ms : Z) (e : Env) : nat * Env :=
  let h := nextHandle e in
  (h, set_timers (S h) (timeouts e ++ [mkTimer h cb ms (clock e)]) e).

Definition clearTimeout (h : nat) (e : Env) : Env :=
  set_timers (nextHandle e)
    (filter (fun t => handle t ≠ h) (timeouts e)) e.

Definition setInterval (cb : Callback) (ms : Z) (e : Env) : nat * Env :=
  let h := nextHandle e in
  (h, set_intervals (S h) (intervals e ++ [mkTimer h cb ms (clock e)]) e).

(** A timer may run once its delay (at least zero) has elapsed. *)
Definition due (now : Z) (t : Timer) : bool :=
  armedAt t + Z.max 0 (delay t) <=? now.

Definition find_timer (h : nat) (ts : list Timer) : option Timer :=
  list_find (fun t => handle t = h) ts ≫= fun p => Some p.2.

(** *** Storage *)

Definition getItem (k : string) (e : Env) : option StoreVal :=
  localStorage e !! k.

Definition setItem (k : string) (v : StoreVal) (e : Env) : Env :=
  set_localStorage (<[k := v]> (localStorage e)) e.

Definition removeItem (k : string) (e : Env) : Env :=
  set_localStorage (delete k (localStorage e)) e.

(** *** Document listeners

    [f.bind(this)] makes a new function object on every evaluation, so
    each call site below it receives an identity nothing else has. *)

Definition bind (e : Env) : nat * Env :=
  let f := nextFunction e in
  (f, set_listeners (S f) (documentListeners e) e).

Definition addEventListener (ty : string) (f : nat) (e : Env) : Env :=
  if decide ((ty, f) ∈ documentListeners e) then e
  else set_listeners (nextFunction e) (documentListeners e ++ [(ty, f)]) e.

Definition removeEventListener (ty : string) (f : nat) (e : Env) : Env :=
  set_listeners (nextFunction e)
    (filter (fun p => p ≠ (ty, f)) (documentListeners e)) e.

(** *** Dialogs, navigation, network *)

Definition show (d : Dialog) (e : Env) : Env :=
  set_dialogs (dialogs e ++ [d]) e.

Definition navigate (url : string) (e : Env) : Env :=
  set_navigations (navigations e ++ [url]) e.

Definition fetch (ep : string) (e : Env) : nat * Env :=
  let r := nextRequest e in
  (r, set_requests (S r) (outstanding e ++ [mkRequest r ep]) e).

Definition settle (r : nat) (e : Env) : Env :=
  set_requests (nextRequest e)
    (filter (fun q => rid q ≠ r) (outstanding e)) e.

End Browser.

(* ===================================================================== *)
(** ** The API client: SuperAdminApiClient and SuperAdminApiError *)
(* ===================================================================== *)

Module ApiClient.
Import Browser.

(** The [response] property some HTTP libraries put on their errors. *)
Record ErrorResponse := mkErrorResponse { response_status : Z }.

(** An exception value as the [catch] blocks of auth.ts see it:
    [error.status], [error.message] and [error.response]. [None] is a
    member that is [undefined]. All the code does with a status is
    compare it by [===] with an integer, so a status that is no integer (a
    string, say) is [None] as well. *)
Record JsError := mkJsError {
  e_name : string;
  e_message : string;
  e_code : option string;
  e_status : option Z;
  e_response : option ErrorResponse
}.

(** [new SuperAdminApiError(message, code, status)]: the constructor
    sets [message], [code], [status], [details] and [name]; the object
    has no [response] property. [super(undefined)] leaves the empty
    message of [Error.prototype]. *)
Definition SuperAdminApiError (message code : option string) (status : option Z)
  : JsError :=
  {| e_name := "SuperAdminApiError";
     e_message := default "" message;
     e_code := code;
     e_status := status;
     e_response := None |}.

(** An object that is the [error] member of a body: its [message],
    [code] and [status], each of which may be missing. *)
Record ErrorBody := mkErrorBody {
  eb_message : option string;
  eb_code : option string;
  eb_status : option Z
}.

(** The [error] member of a body, as [data.error || { ... }] and the
    reads of [error.message], [error.code] and [error.status] see it. *)
Inductive ErrorMember :=
| NoError                        (* missing, or falsy: null, false, 0, the empty string *)
| ErrorPrimitive                 (* a truthy string, number or boolean: it has none of the three members *)
| ErrorObject (eb : ErrorBody).

(** The members of a JSON body that the client and auth.ts look at. *)
Record Data := mkData {
  d_error : ErrorMember;
  d_message : option string;
  d_code : option string;
  d_accessToken : option string;
  d_refreshToken : option string;
  d_user : option AuthUser
}.

(** A value on which none of these members is defined. *)
Definition no_members : Data := mkData NoError None None None None None.

Inductive Body :=
| JsonBody (d : Data)            (* JSON, an object *)
| JsonNull                       (* JSON, the text [null] *)
| JsonScalar                     (* JSON, any other value: a number, a string,
                                    a boolean, an array *)
| TextBody (text : string)       (* content type is not JSON *)
| Unparsable.                    (* response.json() throws *)

(** How the [fetch] of [request] ends. *)
Inductive FetchResult :=
| NetworkError                   (* fetch rejects *)
| Aborted                        (* the 15 s AbortController fired *)
| Response (status : Z) (body : Body).

Inductive Outcome :=
| Resolved (d : Data)
| Rejected (err : JsError).

Definition ok (status : Z) : bool := (200 <=? status) && (status <=? 299).

Definition truthy_string (o : option string) : bool :=
  match o with
  | Some s => negb (String.eqb s "")
  | None => false
  end.

(** What [data] is after the [try] around [response.json()] and
    [response.text()]. *)
Inductive Parsed :=
| ParseError                     (* the [catch] ran *)
| Null                           (* [data] is [null] *)
| Value (d : Data).              (* anything else, by its members *)

Definition read_body (status : Z) (body : Body) : Parsed :=
  match body with
  | JsonBody d => Value d
  | JsonNull => Null
  | JsonScalar => Value no_members
  | TextBody t =>
      Value (mkData
               (ErrorObject
                  (mkErrorBody (Some t) (Some "NON_JSON_RESPONSE") (Some status)))
               None None None None None)
  | Unparsable => ParseError
  end.

(** How [handleResponse] ends. Reading [data.error] or [data.success]
    of [null] throws a [TypeError]. *)
Inductive Handled :=
| Returned (d : Data)
| ThrownApiError (err : JsError)
| ThrownTypeError.

Definition handleResponse (status : Z) (body : Body) : Handled :=
  match read_body status body with
  | ParseError =>
      ThrownApiError
        (SuperAdminApiError (Some "Failed to parse response") (Some "PARSE_ERROR")
           (Some status))
  | Null => ThrownTypeError
  | Value data =>
      if negb (ok status) then
        let error :=
          match d_error data with
          | ErrorObject eb => eb
          | ErrorPrimitive => mkErrorBody None None None
          | NoError =>
              mkErrorBody
                (Some (if truthy_string (d_message data)
                       then default "" (d_message data) else "Request failed"))
                (Some (if truthy_string (d_code data)
                       then default "" (d_code data) else "REQUEST_FAILED"))
                (Some status)
          end in
        ThrownApiError
          (SuperAdminApiError (eb_message error) (eb_code error) (eb_status error))
      else Returned data
  end.

(** The [try]/[catch] of [request]: a [SuperAdminApiError] is thrown
    on as it is, a timeout becomes one with status 408, and anything
    else, the [TypeError] among it, one with status 0. So every rejection
    that leaves the client is a [SuperAdminApiError]. *)
Definition request_outcome (r : FetchResult) : Outcome :=
  match r with
  | Response status body =>
      match handleResponse status body with
      | Returned d => Resolved d
      | ThrownApiError err => Rejected err
      | ThrownTypeError =>
          Rejected
            (SuperAdminApiError (Some "Network request failed")
               (Some "NETWORK_ERROR") (Some 0))
      end
  | Aborted =>
      Rejected
        (SuperAdminApiError (Some "Request timeout") (Some "TIMEOUT_ERROR")
           (Some 408))
  | NetworkError =>
      Rejected
        (SuperAdminApiError (Some "Network request failed")
           (Some "NETWORK_ERROR") (Some 0))
  end.

(** [adminApiClient.post(endpoint, data)] up to its [await]. *)
Definition post (ep : string) (e : Env) : nat * Env := fetch ep e.

(** [buildURL(endpoint)], with [this.baseURL] as an argument. *)
Definition buildURL (baseURL endpoint : Js.jsstring) : Js.jsstring :=
  if Js.includes endpoint (Js.lit "/admin/")
     || Js.startsWith endpoint (Js.lit "/admin")
     || Js.startsWith endpoint (Js.lit "/auth")
     || Js.startsWith endpoint (Js.lit "/voices")
  then baseURL ++ endpoint
  else
    let endpoint :=
      Js.lit "/admin" ++
      (if Js.startsWith endpoint (Js.lit "/") then endpoint
       else Js.lit "/" ++ endpoint) in
    baseURL ++ endpoint.

End ApiClient.

(* ===================================================================== *)
(** ** src/lib/auth.ts *)
(* ===================================================================== *)

Module AuthService.
Import Browser ApiClient.

Definition tokenKey : string := "adminToken".
Definition refreshTokenKey : string := "adminRefreshToken".
Definition userKey : string := "adminUser".

Definition is_superadmin (u : AuthUser) : bool :=
  String.eqb (role u) "superadmin".

(** [logout()]: the three removals, then a POST whose result is
    ignored. *)
Definition logout (e : Env) : Env :=
  let e := removeItem tokenKey e in
  let e := removeItem refreshTokenKey e in
  let e := removeItem userKey e in
  snd (post "/auth/logout" e).

Definition isAuthenticated (e : Env) : bool :=
  truthy_item (getItem tokenKey e).

(** [login], from the point where the POST to [/login] settles. *)
Definition login_resume (o : Outcome) (e : Env) : bool * Env :=
  match o with
  | Resolved d =>
      match d_user d with
      | Some user =>
          if truthy_string (d_accessToken d) then
            if negb (is_superadmin user) then (false, e)
            else
              let e := setItem tokenKey (Raw (default "" (d_accessToken d))) e in
              let e := setItem refreshTokenKey
                         (Raw (default "undefined" (d_refreshToken d))) e in
              let e := setItem userKey (Json user) e in
              (true, e)
          else (false, e)
      | None => (false, e)
      end
  | Rejected _ => (false, e)
  end.

(** [x === n] where [x] may be [undefined]. *)
Definition status_is (x : option Z) (n : Z) : bool :=
  match x with
  | Some s => s =? n
  | None => false
  end.

(** An [async] call either has its result at once or is suspended on
    a request. *)
Inductive Suspended :=
| Done (result : bool)
| Awaiting (request : nat).

(** [refreshAccessToken], up to the [await]. *)
Definition refreshAccessToken_call (e : Env) : Suspended * Env :=
  let refreshToken := getItem refreshTokenKey e in
  if negb (truthy_item refreshToken) then (Done false, e)
  else
    let '(r, e) := post "/auth/refresh" e in
    (Awaiting r, e).

(** [refreshAccessToken], from the [await] on: the [try] body after a
    resolved POST, the [catch] after a rejected one. *)
Definition refreshAccessToken_resume (o : Outcome) (e : Env) : bool * Env :=
  match o with
  | Resolved d =>
      match d_user d with
      | Some user =>
          if truthy_string (d_accessToken d) then
            if negb (is_superadmin user) then (false, logout e)
            else
              let e := setItem tokenKey (Raw (default "" (d_accessToken d))) e in
              let e := setItem userKey (Json user) e in
              (true, e)
          else (false, e)
      | None => (false, e)
      end
  | Rejected error =>
      let status := response_status <$> e_response error in
      if status_is status 401 || status_is status 403
      then (false, logout e)
      else (false, e)
  end.

(** The request [r] settles with [res] and the call suspended on it
    runs to its end. *)
Definition refreshAccessToken_settle (r : nat) (res : FetchResult) (e : Env)
  : bool * Env :=
  refreshAccessToken_resume (request_outcome res) (settle r e).

(** *** Callers of [refreshAccessToken]

    A run of calls and replies. [results] records, per request, what
    the call suspended on it returned. *)
Inductive Step :=
| CallRefresh
| Reply (request : nat) (res : FetchResult).

Record Run := mkRun {
  env : Env;
  immediate : list bool;            (* results of calls that never awaited *)
  results : list (nat * bool)       (* request, result of its call *)
}.

Definition is_refresh (q : Request) : bool :=
  String.eqb (endpoint q) "/auth/refresh".

(** The backend refresh calls in flight. *)
Definition refreshes_in_flight (e : Env) : list Request :=
  filter (fun q => is_refresh q = true) (outstanding e).

Definition step (s : Step) (r : Run) : Run :=
  match s with
  | CallRefresh =>
      match refreshAccessToken_call (env r) with
      | (Done b, e) => mkRun e (immediate r ++ [b]) (results r)
      | (Awaiting _, e) => mkRun e (immediate r) (results r)
      end
  | Reply q res =>
      if decide (q ∈ rid <$> refreshes_in_flight (env r)) then
        let '(b, e) := refreshAccessToken_settle q res (env r) in
        mkRun e (immediate r) (results r ++ [(q, b)])
      else r
  end.

Definition run (ss : list Step) (r : Run) : Run :=
  foldl (fun r s => step s r) r ss.

Definition start (e : Env) : Run := mkRun e [] [].

End AuthService.

(* ===================================================================== *)
(** ** src/lib/session-manager.ts *)
(* ===================================================================== *)

(** How a statement ends: normally, or by a thrown exception; either way
    with the state it leaves behind. *)
Inductive Completion (S : Type) :=
| Normal (s : S)
| Throw (s : S).
Arguments Normal {S} s.
Arguments Throw {S} s.

Definition outcome {S} (c : Completion S) : S :=
  match c with Normal s | Throw s => s end.

Definition threw {S} (c : Completion S) : bool :=
  match c with Normal _ => false | Throw _ => true end.

(** [try { c } catch (error) { handler }] *)
Definition try_catch {S} (c : Completion S) (handler : S -> Completion S)
  : Completion S :=
  match c with
  | Normal s => Normal s
  | Throw s => handler s
  end.

(** [collection.forEach(f)]: an exception leaving [f] ends the
    iteration. *)
Fixpoint forEach {A S} (f : A -> S -> Completion S) (l : list A) (s : S)
  : Completion S :=
  match l with
  | [] => Normal s
  | a :: l' =>
      match f a s with
      | Normal s' => forEach f l' s'
      | Throw s' => Throw s'
      end
  end.

Module AdminSessionManager.
Import Browser.

Record AdminSessionConfig := mkConfig {
  timeoutMinutes : Z;
  warningMinutes : Z;
  checkIntervalMs : Z;
  activityEvents : list string
}.

(** [Partial<AdminSessionConfig>] *)
Record PartialConfig := mkPartial {
  new_timeoutMinutes : option Z;
  new_warningMinutes : option Z;
  new_checkIntervalMs : option Z;
  new_activityEvents : option (list string)
}.

Record AdminSessionState := mkState {
  lastActivity : Z;
  isActive : bool;
  warningShown : bool;
  timeoutId : option nat;
  warningTimeoutId : option nat
}.

(** The object [getSessionInfo] returns. *)
Record SessionInfo := mkInfo {
  info_isActive : bool;
  info_lastActivity : Z;
  timeRemaining : Z;
  timeRemainingMinutes : Z;
  info_warningShown : bool
}.

Definition with_lastActivity (t : Z) (s : AdminSessionState) :=
  mkState t (isActive s) (warningShown s) (timeoutId s) (warningTimeoutId s).
Definition with_isActive (b : bool) (s : AdminSessionState) :=
  mkState (lastActivity s) b (warningShown s) (timeoutId s) (warningTimeoutId s).
Definition with_warningShown (b : bool) (s : AdminSessionState) :=
  mkState (lastActivity s) (isActive s) b (timeoutId s) (warningTimeoutId s).
Definition with_timeoutId (h : option nat) (s : AdminSessionState) :=
  mkState (lastActivity s) (isActive s) (warningShown s) h (warningTimeoutId s).
Definition with_warningTimeoutId (h : option nat) (s : AdminSessionState) :=
  mkState (lastActivity s) (isActive s) (warningShown s) (timeoutId s) h.

Section Manager.

(** The state subscribed callbacks act on (React component state and
    the like). Callbacks are observers: they read the manager through
    [getSessionInfo] and change state of their own. *)
Context {UI : Type}.

Record Listener := mkListener {
  lid : nat;                                   (* function identity *)
  body : SessionInfo -> UI -> Completion UI
}.

Record World := mkWorld {
  config : AdminSessionConfig;
  state : AdminSessionState;
  listeners : list Listener;       (* a Set, in insertion order *)
  browser : Env;
  ui : UI;
  delivered : list nat             (* identities of the callbacks invoked, oldest first *)
}.

Definition set_config (c : AdminSessionConfig) (w : World) : World :=
  mkWorld c (state w) (listeners w) (browser w) (ui w) (delivered w).
Definition set_state (s : AdminSessionState) (w : World) : World :=
  mkWorld (config w) s (listeners w) (browser w) (ui w) (delivered w).
Definition set_listeners (ls : list Listener) (w : World) : World :=
  mkWorld (config w) (state w) ls (browser w) (ui w) (delivered w).
Definition set_browser (e : Env) (w : World) : World :=
  mkWorld (config w) (state w) (listeners w) e (ui w) (delivered w).
Definition set_ui (u : UI) (d : list nat) (w : World) : World :=
  mkWorld (config w) (state w) (listeners w) (browser w) u d.

Definition on_state (f : AdminSessionState -> AdminSessionState) (w : World) :=
  set_state (f (state w)) w.
Definition on_browser (f : Env -> Env) (w : World) :=
  set_browser (f (browser w)) w.

(** The private constructor, run when the module is first loaded at
    time [now] over the durable storage [ls]. *)
Definition constructor (now : Z) (ls : gmap string StoreVal) (u : UI) : World :=
  {| config :=
       {| timeoutMinutes := 480;
          warningMinutes := 30;
          checkIntervalMs := 300000;
          activityEvents :=
            ["mousedown"; "mousemove"; "keypress"; "scroll";
             "touchstart"; "click"; "focus"; "blur"]%string |};
     state :=
       {| lastActivity := now;
          isActive := false;
          warningShown := false;
          timeoutId := None;
          warningTimeoutId := None |};
     listeners := [];
     browser := Browser.fresh now ls;
     ui := u;
     delivered := [] |}.

Definition clearTimeouts (w : World) : World :=
  let w :=
    match timeoutId (state w) with
    | Some h => on_state (with_timeoutId None) (on_browser (clearTimeout h) w)
    | None => w
    end in
  match warningTimeoutId (state w) with
  | Some h => on_state (with_warningTimeoutId None) (on_browser (clearTimeout h) w)
  | None => w
  end.

Definition scheduleTimeouts (w : World) : World :=
  let w := clearTimeouts w in
  let timeoutMs := timeoutMinutes (config w) * 60 * 1000 in
  let warningMs :=
    (timeoutMinutes (config w) - warningMinutes (config w)) * 60 * 1000 in
  let '(h, e) := setTimeout ShowTimeoutWarning warningMs (browser w) in
  let w := on_state (with_warningTimeoutId (Some h)) (set_browser e w) in
  let '(h, e) := setTimeout HandleSessionTimeout timeoutMs (browser w) in
  on_state (with_timeoutId (Some h)) (set_browser e w).

(** Like every method, [getSessionInfo] is given the world and leaves
    one; it returns an object besides. *)
Definition getSessionInfo (w : World) : SessionInfo * World :=
  let now := clock (browser w) in
  let timeSinceActivity := now - lastActivity (state w) in
  let timeoutMs := timeoutMinutes (config w) * 60 * 1000 in
  let remainingMs := Z.max 0 (timeoutMs - timeSinceActivity) in
  ({| info_isActive := isActive (state w);
      info_lastActivity := lastActivity (state w);
      timeRemaining := remainingMs;
      timeRemainingMinutes := remainingMs / 60000;
      info_warningShown := warningShown (state w) |}, w).

(** [callback()]: the callback reads the manager, then acts on its own
    state, and may throw at any point of that. *)
Definition call (cb : Listener) (w : World) : Completion World :=
  let d := delivered w ++ [lid cb] in
  let '(info, w) := getSessionInfo w in
  match body cb info (ui w) with
  | Normal u => Normal (set_ui u d w)
  | Throw u => Throw (set_ui u d w)
  end.

Definition notifyListeners (w : World) : Completion World :=
  forEach
    (fun callback w => try_catch (call callback w) (fun w => Normal w))
    (listeners w) w.

Definition addListener (cb : Listener) (w : World) : World :=
  if decide (lid cb ∈ lid <$> listeners w) then w
  else set_listeners (listeners w ++ [cb]) w.

Definition removeListener (cb : Listener) (w : World) : World :=
  set_listeners (filter (fun l => lid l ≠ lid cb) (listeners w)) w.

Definition startPeriodicCheck (w : World) : World :=
  on_browser
    (fun e => snd (setInterval PeriodicCheck (checkIntervalMs (config w)) e)) w.

Definition start (w : World) : World :=
  if isActive (state w) then w
  else
    let w := on_state (with_isActive true) w in
    let w := on_state (with_lastActivity (clock (browser w))) w in
    let w :=
      foldl (fun w event =>
               let '(f, e) := bind (browser w) in
               set_browser (addEventListener event f e) w)
            w (activityEvents (config w)) in
    let w := scheduleTimeouts w in
    startPeriodicCheck w.

Definition stop (w : World) : World :=
  if negb (isActive (state w)) then w
  else
    let w := on_state (with_isActive false) w in
    let w :=
      foldl (fun w event =>
               let '(f, e) := bind (browser w) in
               set_browser (removeEventListener event f e) w)
            w (activityEvents (config w)) in
    clearTimeouts w.

Definition handleActivity (w : World) : Completion World :=
  let now := clock (browser w) in
  let timeSinceLastActivity := now - lastActivity (state w) in
  if timeSinceLastActivity <? 1000 then Normal w
  else
    let w := on_state (with_lastActivity now) w in
    let w := on_state (with_warningShown false) w in
    let w := scheduleTimeouts w in
    notifyListeners w.

Definition extendSession (w : World) : World :=
  let w := on_state (with_lastActivity (clock (browser w))) w in
  let w := on_state (with_warningShown false) w in
  scheduleTimeouts w.

Definition clearAdminAuthData (w : World) : World :=
  on_browser (removeItem "adminUser") (on_browser (removeItem "adminToken") w).

Definition handleSessionTimeout (w : World) : World :=
  let w := stop w in
  let w := clearAdminAuthData w in
  let w := on_browser (show Alert) w in
  on_browser (navigate "/login") w.

(** [continueSession] is what the user answers to [confirm]. The
    dialog blocks the page: the answer comes [took] milliseconds after the
    call, and what follows it reads the clock of that moment. *)
Definition showTimeoutWarning (continueSession : bool) (took : Z) (w : World)
  : World :=
  if warningShown (state w) then w
  else
    let w := on_state (with_warningShown true) w in
    let remainingMinutes := warningMinutes (config w) in
    let w := on_browser (show (Confirm remainingMinutes)) w in
    let w := on_browser (fun e => set_clock (clock e + Z.max 0 took) e) w in
    if continueSession then extendSession w else handleSessionTimeout w.

(** Up to the first [await]; what [AuthService.verifyToken] does then
    happens in later steps of the event loop. *)
Definition validateSessionWithBackend (w : World) : World :=
  let token := getItem "adminToken" (browser w) in
  if negb (truthy_item token) then w
  else on_browser (fun e => set_verifications (S (verifications e)) e) w.

(** The closure given to [setInterval]. JavaScript's [%] takes the
    sign of the dividend. *)
Definition periodicCheck (w : World) : World :=
  if negb (isActive (state w)) then w
  else
    let now := clock (browser w) in
    let timeSinceActivity := now - lastActivity (state w) in
    let timeoutMs := timeoutMinutes (config w) * 60 * 1000 in
    if timeoutMs <=? timeSinceActivity then handleSessionTimeout w
    else if Z.rem timeSinceActivity (10 * 60 * 1000) <? checkIntervalMs (config w)
    then validateSessionWithBackend w
    else w.

Definition updateConfig (newConfig : PartialConfig) (w : World) : World :=
  let c := config w in
  let w :=
    set_config
      {| timeoutMinutes := default (timeoutMinutes c) (new_timeoutMinutes newConfig);
         warningMinutes := default (warningMinutes c) (new_warningMinutes newConfig);
         checkIntervalMs := default (checkIntervalMs c) (new_checkIntervalMs newConfig);
         activityEvents := default (activityEvents c) (new_activityEvents newConfig) |}
      w in
  if isActive (state w) then scheduleTimeouts w else w.

(** *** The event loop *)

Definition run_callback (cb : Callback) (answer : bool) (took : Z) (w : World)
  : World :=
  match cb with
  | ShowTimeoutWarning => showTimeoutWarning answer took w
  | HandleSessionTimeout => handleSessionTimeout w
  | PeriodicCheck => periodicCheck w
  end.

(** The pending timeout [h] runs, if it is due; it is pending no
    more. *)
Definition fire_timeout (h : nat) (answer : bool) (took : Z) (w : World)
  : World :=
  match find_timer h (timeouts (browser w)) with
  | Some t =>
      if due (clock (browser w)) t
      then run_callback (callback t) answer took (on_browser (clearTimeout h) w)
      else w
  | None => w
  end.

(** The interval [h] runs, if a period has passed since it last did. *)
Definition fire_interval (h : nat) (w : World) : World :=
  match find_timer h (intervals (browser w)) with
  | Some t =>
      if due (clock (browser w)) t
      then
        let rearm e :=
          set_intervals (nextHandle e)
            ((fun t' => if decide (handle t' = h)
                        then mkTimer h (callback t') (delay t') (clock e)
                        else t') <$> intervals e) e in
        run_callback (callback t) false 0 (on_browser rearm w)
      else w
  | None => w
  end.

(** A DOM event of type [ty]: every capture listener registered for
    it runs; each of them is a bound [handleActivity]. An exception
    leaving one listener does not keep the others from running. *)
Definition dispatch (ty : string) (w : World) : World :=
  foldl (fun w p => if String.eqb (fst p) ty
                    then outcome (handleActivity w) else w)
        w (documentListeners (browser w)).

Inductive Event :=
| Advance (dt : Z)                       (* time passes *)
| Start
| Stop
| ExtendSession
| UpdateConfig (newConfig : PartialConfig)
| AddListener (cb : Listener)
| RemoveListener (cb : Listener)
| Dom (ty : string)
| TimeoutFires (h : nat) (answer : bool) (took : Z)
| IntervalFires (h : nat)
| Login (res : ApiClient.FetchResult)    (* AuthService.login runs to its end *)
| Logout                                 (* AuthService.logout *)
| RefreshCall                            (* AuthService.refreshAccessToken is called *)
| RefreshReply (r : nat) (res : ApiClient.FetchResult).

Definition step (ev : Event) (w : World) : World :=
  match ev with
  | Advance dt => on_browser (fun e => set_clock (clock e + Z.max 0 dt) e) w
  | Start => start w
  | Stop => stop w
  | ExtendSession => extendSession w
  | UpdateConfig c => updateConfig c w
  | AddListener cb => addListener cb w
  | RemoveListener cb => removeListener cb w
  | Dom ty => dispatch ty w
  | TimeoutFires h answer took => fire_timeout h answer took w
  | IntervalFires h => fire_interval h w
  | Login res =>
      on_browser
        (fun e =>
           let '(r, e) := ApiClient.post "/login" e in
           snd (AuthService.login_resume
                  (ApiClient.request_outcome res) (settle r e))) w
  | Logout => on_browser AuthService.logout w
  | RefreshCall =>
      on_browser (fun e => snd (AuthService.refreshAccessToken_call e)) w
  | RefreshReply r res =>
      on_browser
        (fun e =>
           if decide (r ∈ rid <$> AuthService.refreshes_in_flight e)
           then snd (AuthService.refreshAccessToken_settle r res e)
           else e) w
  end.

Definition run (evs : list Event) (w : World) : World :=
  foldl (fun w ev => step ev w) w evs.

(** The states the page can be in: the constructor has run, then
    events have. *)
Definition reachable (w : World) : Prop :=
  exists now ls u evs, w = run evs (constructor now ls u).

(** *** Activity events

    Activity events arrive at the given times, one [handleActivity] each.
    The result lists the values [lastActivity] was updated to, oldest
    first, and the world after the last event. *)
Fixpoint activity (times : list Z) (w : World) : list Z * World :=
  match times with
  | [] => ([], w)
  | t :: times' =>
      let w1 := on_browser (set_clock t) w in
      let w2 := outcome (handleActivity w1) in
      let '(updates, w3) := activity times' w2 in
      ((if lastActivity (state w2) =? lastActivity (state w)
        then updates else lastActivity (state w2) :: updates), w3)
  end.

(** The updates that fall into the window of 1000 ms starting at [s]. *)
Definition in_window (s : Z) (updates : list Z) : list Z :=
  filter (fun u => s <= u < s + 1000) updates.

(** [k] notifications in a row. *)
Definition notifications (k : nat) (w : World) : World :=
  Nat.iter k (fun w => outcome (notifyListeners w)) w.

(** What the callbacks [ls], called one after the other with the session
    as [info] shows it, make of the state [u] they act on: each starts
    from what the one before it left, whether that one returned or
    threw. *)
Definition run_bodies (info : SessionInfo) (ls : list Listener) (u : UI) : UI :=
  foldl (fun u cb => outcome (body cb info u)) u ls.

(** What the manager itself consists of: everything but the callbacks'
    own state and the record of deliveries. *)
Definition same_manager (w w' : World) : Prop :=
  config w' = config w /\ state w' = state w /\
  listeners w' = listeners w /\ browser w' = browser w.

(** *** Invariants of the event loop *)

(** The manager holds the handle of the timer [t]. *)
Definition held (s : AdminSessionState) (t : Timer) : Prop :=
  timeoutId s = Some (handle t) \/ warningTimeoutId s = Some (handle t).

#[global] Instance held_dec s t : Decision (held s t).
Proof. unfold held. apply _. Defined.

(** Every pending timeout is one the manager holds the handle of. *)
Definition tracked (w : World) : Prop :=
  forall t, t ∈ timeouts (browser w) -> held (state w) t.

(** A chain of updates, each at least 1000 ms after the one before. *)
Fixpoint spaced (last : Z) (updates : list Z) : Prop :=
  match updates with
  | [] => True
  | u :: updates' => last + 1000 <= u /\ spaced u updates'
  end.

(** While the manager is active, a periodic check is scheduled. *)
Definition checked (w : World) : Prop :=
  isActive (state w) = true -> intervals (browser w) <> [].

(** Both invariants; they only read the handles held, the [isActive]
    flag and the browser's timers. *)
Definition inv (w : World) : Prop := tracked w /\ checked w.

Definition timers_of (w : World)
  : option nat * option nat * bool * list Timer * list Timer :=
  (timeoutId (state w), warningTimeoutId (state w), isActive (state w),
   timeouts (browser w), intervals (browser w)).

(** The pending timeouts are a warning and a hard timeout, at most one
    of each. *)
Definition paired (w : World) : Prop :=
  exists tw tt,
    callback tw = ShowTimeoutWarning /\ callback tt = HandleSessionTimeout /\
    timeouts (browser w) `sublist_of` [tw; tt].

(** Every function registered on the document was made by an earlier
    [bind]. *)
Definition fresh_functions (w : World) : Prop :=
  forall p, p ∈ documentListeners (browser w) ->
    (snd p < nextFunction (browser w))%nat.

Definition lifecycle_inv (w : World) : Prop := fresh_functions w /\ paired w.

(** The listeners one [start()] registers: one per activity event, each
    a function of its own. *)
Definition bound_listeners (evs : list string) (f : nat) : list (string * nat) :=
  zip evs (seq f (length evs)).

(** The two timers [scheduleTimeouts] arms at time [now] under the
    configuration [c], with the handles [h] and [h + 1]. *)
Definition armed (c : AdminSessionConfig) (h : nat) (now : Z) : list Timer :=
  [mkTimer h ShowTimeoutWarning
     ((timeoutMinutes c - warningMinutes c) * 60 * 1000) now;
   mkTimer (S h) HandleSessionTimeout (timeoutMinutes c * 60 * 1000) now].

(** [{ ...config, ...newConfig }] *)
Definition merged (c : AdminSessionConfig) (newConfig : PartialConfig)
  : AdminSessionConfig :=
  {| timeoutMinutes := default (timeoutMinutes c) (new_timeoutMinutes newConfig);
     warningMinutes := default (warningMinutes c) (new_warningMinutes newConfig);
     checkIntervalMs := default (checkIntervalMs c) (new_checkIntervalMs newConfig);
     activityEvents := default (activityEvents c) (new_activityEvents newConfig) |}.

End Manager.

Arguments Listener : clear implicits.
Arguments World : clear implicits.
Arguments Event : clear implicits.

End AdminSessionManager.

(* ===================================================================== *)
(** ** Sample replies and stores *)
(* ===================================================================== *)

Module Sample.
Import Browser ApiClient.

Definition root : AuthUser := mkUser "1" "root@veeqai.test" "superadmin" "Root".
Definition editor : AuthUser := mkUser "2" "ed@veeqai.test" "editor" "Ed".

(** The reply to a successful login of a super admin. *)
Definition login_ok : FetchResult :=
  Response 200
    (JsonBody (mkData NoError None None (Some "access-1") (Some "refresh-1")
                 (Some root))).

(** Replies to [/auth/refresh]: a new access token for the super admin,
    a new access token for somebody who is none, and a plain 401. *)
Definition refresh_ok : FetchResult :=
  Response 200
    (JsonBody (mkData NoError None None (Some "access-2") None (Some root))).

Definition refresh_demoted : FetchResult :=
  Response 200
    (JsonBody (mkData NoError None None (Some "access-3") None (Some editor))).

Definition unauthorized : FetchResult :=
  Response 401
    (JsonBody (mkData NoError (Some "Invalid refresh token") None None None None)).

(** Two subscribers over a counter of their own: one throws every time,
    after having counted; the other counts and returns. *)
Definition thrower : AdminSessionManager.Listener nat :=
  AdminSessionManager.mkListener 1 (fun _ n => Throw (n + 100)%nat).

Definition counter : AdminSessionManager.Listener nat :=
  AdminSessionManager.mkListener 2 (fun _ n => Normal (S n)).

(** The browser of a super admin who has just logged in. *)
Definition signed_in : Env :=
  snd (AuthService.login_resume (request_outcome login_ok) (fresh 0 ∅)).

End Sample.

(* ===================================================================== *)
(** ** src/lib/auth.ts, run from call to return *)
(* ===================================================================== *)

(** [login] and [verifyToken] as one run each: every request the run
    awaits is answered by the next entry of a script, and nothing else
    happens in between. A run whose script ends while a request is
    awaited has no result: the promise stays pending. *)

Module AuthFlow.
Import Browser ApiClient.

(** auth.ts, [interface AuthResponse] *)
Record AuthResponse := mkAuthResponse {
  success : bool;
  user : option AuthUser;
  error : option string
}.

Definition failed (message : string) : AuthResponse :=
  mkAuthResponse false None (Some message).

Definition succeeded (u : AuthUser) : AuthResponse :=
  mkAuthResponse true (Some u) None.

(** What [JSON.parse(atob(token.split('.')[1]))] makes of a token: it
    throws, or it yields a payload whose [exp] is a number or is
    missing. *)
Inductive Decoded :=
| Undecodable
| Claims (exp : option Z).

(** [isTokenExpired]; a comparison with [undefined] is false. *)
Definition isTokenExpired (payload : Decoded) (now : Z) : bool :=
  match payload with
  | Undecodable => true
  | Claims None => false
  | Claims (Some exp) => exp <? now / 1000
  end.

(** An entry of the script: how long the request takes, how its [fetch]
    ends, and the [success] member of the body, as a boolean. *)
Record Answer := mkAnswer {
  took : Z;
  fetched : FetchResult;
  success_member : bool
}.

(** The request [r] is answered: time has passed and it is in flight no
    more. *)
Definition answered (r : nat) (a : Answer) (e : Env) : Env :=
  settle r (set_clock (clock e + Z.max 0 (took a)) e).

(** [error.message || 'Login failed. Please try again.'] and the like. *)
Definition message_or (err : JsError) (fallback : string) : string :=
  if String.eqb (e_message err) "" then fallback else e_message err.

(** [error instanceof SuperAdminApiError] *)
Definition is_api_error (err : JsError) : bool :=
  String.eqb (e_name err) "SuperAdminApiError".

Definition login (a : Answer) (e : Env) : AuthResponse * Env :=
  let '(r, e) := post "/login" e in
  let e := answered r a e in
  match request_outcome (fetched a) with
  | Resolved d =>
      match d_user d with
      | Some u =>
          if truthy_string (d_accessToken d) then
            if negb (AuthService.is_superadmin u)
            then (failed "Access denied. Super admin only.", e)
            else
              let e := setItem AuthService.tokenKey
                         (Raw (default "" (d_accessToken d))) e in
              let e := setItem AuthService.refreshTokenKey
                         (Raw (default "undefined" (d_refreshToken d))) e in
              let e := setItem AuthService.userKey (Json u) e in
              (succeeded u, e)
          else (failed "Invalid response from server", e)
      | None => (failed "Invalid response from server", e)
      end
  | Rejected err =>
      if is_api_error err then
        if AuthService.status_is (e_status err) 429 then
          (failed "Too many login attempts. Please wait a few minutes and try again.", e)
        else if AuthService.status_is (e_status err) 401 then
          (failed "Invalid email or password", e)
        else (failed (message_or err "Login failed. Please try again."), e)
      else (failed "An unexpected error occurred. Please try again.", e)
  end.

(** [refreshAccessToken], from call to return. *)
Definition refreshAccessToken (script : list Answer) (e : Env)
  : option (bool * list Answer * Env) :=
  match AuthService.refreshAccessToken_call e with
  | (AuthService.Done b, e) => Some (b, script, e)
  | (AuthService.Awaiting r, e) =>
      match script with
      | [] => None
      | a :: script =>
          let '(b, e) :=
            AuthService.refreshAccessToken_resume
              (request_outcome (fetched a)) (answered r a e) in
          Some (b, script, e)
      end
  end.

Section VerifyToken.

(** The payload of each token, as the platform decodes it. *)
Variable decode : StoreVal -> Decoded.

(** The body of [verifyToken]; [again] is [this.verifyToken()]. *)
Definition verifyToken_body
  (again : list Answer -> Env -> option (AuthResponse * list Answer * Env))
  (script : list Answer) (e : Env)
  : option (AuthResponse * list Answer * Env) :=
  match getItem AuthService.tokenKey e with
  | Some token =>
      if negb (truthy_item (Some token))
      then Some (failed "No token found", script, e)
      else
        match
          (if isTokenExpired (decode token) (clock e)
           then refreshAccessToken script e
           else Some (true, script, e))
        with
        | None => None
        | Some (refreshSuccess, script, e) =>
            if negb refreshSuccess then
              Some (failed "Token expired and refresh failed", script,
                    AuthService.logout e)
            else
              let '(r, e) := fetch "/auth/validate" e in
              match script with
              | [] => None
              | a :: script =>
                  let e := answered r a e in
                  match request_outcome (fetched a) with
                  | Resolved d =>
                      match d_user d with
                      | Some u =>
                          if success_member a then
                            if negb (AuthService.is_superadmin u) then
                              Some (failed "Insufficient permissions", script,
                                    AuthService.logout e)
                            else
                              Some (succeeded u, script,
                                    setItem AuthService.userKey (Json u) e)
                          else Some (failed "Invalid token", script, e)
                      | None => Some (failed "Invalid token", script, e)
                      end
                  | Rejected err =>
                      let message :=
                        message_or err "Token verification failed" in
                      if AuthService.status_is (e_status err) 401 then
                        match refreshAccessToken script e with
                        | None => None
                        | Some (refreshSuccess, script, e) =>
                            if refreshSuccess
                            then again script e
                            else Some (failed message, script,
                                       AuthService.logout e)
                        end
                      else Some (failed message, script, e)
                  end
              end
        end
  | None => Some (failed "No token found", script, e)
  end.

(** [verifyToken]. [fuel] bounds the depth of [return this.verifyToken()];
    each of those calls follows two answers, so one more than the length
    of the script is always enough. *)
Fixpoint verifyToken (fuel : nat) (script : list Answer) (e : Env)
  : option (AuthResponse * list Answer * Env) :=
  match fuel with
  | O => None
  | S fuel => verifyToken_body (verifyToken fuel) script e
  end.

Definition verifyToken_run (script : list Answer) (e : Env)
  : option (AuthResponse * list Answer * Env) :=
  verifyToken (S (length script)) script e.

End VerifyToken.

(** A token that never expires, a token that has. *)
Definition never_expires (_ : StoreVal) : Decoded := Claims None.
Definition always_expired (_ : StoreVal) : Decoded := Undecodable.

Definition validate_ok (u : AuthUser) : Answer :=
  mkAnswer 40 (Response 200 (JsonBody (mkData NoError None None None None (Some u)))) true.

Definition validate_401 : Answer :=
  mkAnswer 40 (Response 401 (JsonBody (mkData NoError (Some "jwt expired") None None None None))) false.

(** The refresh is granted: a new access token [tok] for the user. *)
Definition refresh_answer (tok : string) (u : AuthUser) : Answer :=
  mkAnswer 60 (Response 200 (JsonBody (mkData NoError None None (Some tok) None (Some u)))) false.

Definition offline : Answer := mkAnswer 15000 NetworkError false.

(** [n] times over, the backend rejects the validation with 401 and then
    grants the refresh with the access token [tok]. *)
Definition rounds (tok : string) (n : nat) : list Answer :=
  concat (replicate n [validate_401; refresh_answer tok Sample.root]).

(** The browser after the validation was rejected, and after the refresh
    was granted. *)
Definition after_401 (e : Env) : Env :=
  answered (nextRequest e) validate_401 (snd (fetch "/auth/validate" e)).

Definition granted (tok : string) (e : Env) : Env :=
  setItem AuthService.userKey (Json Sample.root)
    (setItem AuthService.tokenKey (Raw tok)
       (answered (nextRequest e) (refresh_answer tok Sample.root)
          (snd (post "/auth/refresh" e)))).

(** The token [v] has not expired at any time up to [t]. *)
Definition valid_until (decode : StoreVal -> Decoded) (v : StoreVal) (t : Z)
  : Prop :=
  forall now, now <= t -> isTokenExpired (decode v) now = false.

(** A token as the backend issues them: three parts, the second of which
    is the Base64 text of the payload, here of [{"exp":4102444800}], the
    first second of the year 2100. *)
Definition jwt_2100 : string :=
  "eyJhbGciOiJIUzI1NiJ9.eyJleHAiOjQxMDI0NDQ4MDB9.c2ln".

(** What the platform decodes of the tokens of the samples: the payload of
    [jwt_2100]; the others have no second part, and [atob] throws. *)
Definition sample_decode (v : StoreVal) : Decoded :=
  match v with
  | Raw s => if String.eqb s jwt_2100 then Claims (Some 4102444800)
             else Undecodable
  | Json _ => Undecodable
  end.

(** The browser of a super admin who has just logged in and was given
    [jwt_2100] as access token. *)
Definition signed_in_2100 : Env :=
  snd (AuthService.login_resume
         (request_outcome
            (Response 200
               (JsonBody (mkData NoError None None (Some jwt_2100)
                            (Some "refresh-1") (Some Sample.root)))))
         (fresh 0 ∅)).

(** An access token and a refresh token are stored. *)
Definition ready (e : Env) : Prop :=
  truthy_item (getItem AuthService.tokenKey e) = true /\
  truthy_item (getItem AuthService.refreshTokenKey e) = true.

(** All three entries of the session are gone from the store. *)
Definition signed_out (e : Env) : Prop :=
  getItem AuthService.tokenKey e = None /\
  getItem AuthService.refreshTokenKey e = None /\
  getItem AuthService.userKey e = None.

End AuthFlow.

(* ===================================================================== *)
(** ** src/lib/security.ts *)
(* ===================================================================== *)

Module Security.
Import Js Browser.

(** [sanitizeInput]: the two angle brackets, [javascript:], the event
    handlers, and a final [trim]. *)
Definition sanitizeInput (input : jsstring) : jsstring :=
  let s1 := filter (fun c => ((c =? 60) || (c =? 62)) = false) input in
  let s2 := remove_all (match_ci (lit "javascript:")) s1 in
  let s3 := remove_all match_on_handler s2 in
  trim s3.

(** *** [class RateLimiter]

    The field [attempts]: for each key the times of the attempts that
    were let through, oldest first. *)
Module RateLimiter.

Abbreviation Attempts := (gmap string (list Z)).

Definition isAllowed (key : string) (maxAttempts windowMs now : Z)
  (attempts : Attempts) : bool * Attempts :=
  let windowStart := now - windowMs in
  let keyAttempts := default [] (attempts !! key) in
  let keyAttempts := filter (fun time => windowStart < time) keyAttempts in
  if Z.of_nat (length keyAttempts) >=? maxAttempts then (false, attempts)
  else
    let keyAttempts := keyAttempts ++ [now] in
    (true, <[key := keyAttempts]> attempts).

Definition reset (key : string) (attempts : Attempts) : Attempts :=
  delete key attempts.

(** A series of calls of [isAllowed] with one limit and one window, each
    with its key and the time the clock shows: the calls that were let
    through, and the field afterwards. *)
Fixpoint calls (maxAttempts windowMs : Z) (cs : list (string * Z))
  (attempts : Attempts) : list (string * Z) * Attempts :=
  match cs with
  | [] => ([], attempts)
  | (key, now) :: rest =>
      let '(allowed, attempts) :=
        isAllowed key maxAttempts windowMs now attempts in
      let '(granted, attempts) := calls maxAttempts windowMs rest attempts in
      ((if allowed then [(key, now)] else []) ++ granted, attempts)
  end.

(** The times at which [key] was let through. *)
Definition times_of (key : string) (granted : list (string * Z)) : list Z :=
  (filter (fun c => c.1 = key) granted).*2.

(** The clock does not run backwards from one call to the next. *)
Fixpoint in_order (last : Z) (cs : list (string * Z)) : Prop :=
  match cs with
  | [] => True
  | (_, now) :: rest => last <= now /\ in_order now rest
  end.

(** What the field holds for a key agrees, as far as any window ending
    now or later can see, with the times the key was let through. *)
Definition recorded (windowMs : Z) (attempts : Attempts)
  (granted : list (string * Z)) : Prop :=
  forall key t,
    (forall g, g ∈ granted -> g.2 <= t) ->
    filter (fun x => t - windowMs < x) (default [] (attempts !! key))
    = filter (fun x => t - windowMs < x) (times_of key granted).

End RateLimiter.

(** *** [class SessionManager]

    The two static fields, next to the browser. [confirm] blocks the
    page: the answer comes [took] milliseconds later. *)
Module SessionManager.

Definition SESSION_TIMEOUT : Z := 30 * 60 * 1000.
Definition ACTIVITY_CHECK_INTERVAL : Z := 60 * 1000.

Record State := mkState {
  lastActivity : Z;
  timeoutWarningShown : bool
}.

Definition World : Type := State * Env.

(** The closure [updateActivity] of [startActivityTracking], and
    [extendSession], which has the same body. *)
Definition updateActivity (w : World) : World :=
  (mkState (clock w.2) false, w.2).

Definition extendSession (w : World) : World :=
  (mkState (clock w.2) false, w.2).

Definition handleSessionExpired (w : World) : World :=
  let e := show Alert w.2 in
  let e := removeItem "adminToken" e in
  let e := removeItem "adminUser" e in
  (w.1, navigate "/login" e).

Definition showTimeoutWarning (continueSession : bool) (took : Z) (w : World)
  : World :=
  let e := show (Confirm 5) w.2 in
  let e := set_clock (clock e + Z.max 0 took) e in
  if continueSession then (mkState (clock e) false, e)
  else (w.1, e).

Definition checkSessionTimeout (continueSession : bool) (took : Z) (w : World)
  : World :=
  let now := clock w.2 in
  let timeSinceActivity := now - lastActivity w.1 in
  let warningTime := SESSION_TIMEOUT - 5 * 60 * 1000 in
  if timeSinceActivity >=? SESSION_TIMEOUT then handleSessionExpired w
  else if (timeSinceActivity >=? warningTime)
          && negb (timeoutWarningShown w.1)
  then
    let w := showTimeoutWarning continueSession took w in
    (mkState (lastActivity w.1) true, w.2)
  else w.

(** What happens to the page: the interval fires [dt] milliseconds after
    the last event, with the answer the user would give to a warning and
    the time the answer would take; or the user does something [dt]
    milliseconds after the last event. *)
Inductive Event :=
| Check (dt : Z) (continueSession : bool) (took : Z)
| Activity (dt : Z).

Definition step (ev : Event) (w : World) : World :=
  match ev with
  | Check dt continueSession took =>
      checkSessionTimeout continueSession took
        (w.1, set_clock (clock w.2 + Z.max 0 dt) w.2)
  | Activity dt =>
      updateActivity (w.1, set_clock (clock w.2 + Z.max 0 dt) w.2)
  end.

Definition run (evs : list Event) (w : World) : World :=
  foldl (fun w ev => step ev w) w evs.

#[global] Instance Dialog_eq_dec : EqDecision Dialog.
Proof. solve_decision. Defined.

Definition is_check (ev : Event) : bool :=
  match ev with Check _ _ _ => true | Activity _ => false end.

Definition warnings (e : Env) : nat :=
  length (filter (fun d => d = Confirm 5) (dialogs e)).

Definition alerts (e : Env) : nat :=
  length (filter (fun d => d = Alert) (dialogs e)).

End SessionManager.

End Security.

(* ===================================================================== *)
(** * Properties *)
(* ===================================================================== *)

(** ** Input sanitisation *)

Section SanitizeInput.
Import Js SuperAdminValidator.

Lemma trimStart_subseteq s : trimStart s ⊆ s.
Proof.
  induction s as [|c t IH]; simpl; [done|].
  destruct (is_space c); [|done].
  by apply list_subseteq_cons.
Qed.

Lemma trim_subseteq s : trim s ⊆ s.
Proof.
  unfold trim, trimEnd. intros c Hc.
  apply trimStart_subseteq.
  rewrite elem_of_reverse in Hc. apply trimStart_subseteq in Hc.
  by rewrite elem_of_reverse in Hc.
Qed.

(** A global replace by the empty string only takes code units away. *)
Lemma remove_go_subseteq m s : forall k, remove_go m k s ⊆ s.
Proof.
  induction s as [|c t IH]; intros k; simpl; [done|].
  destruct k as [|k].
  - destruct (m (c :: t)) as [[|n]|].
    + by apply list_subseteq_skip.
    + by apply list_subseteq_cons.
    + by apply list_subseteq_skip.
  - by apply list_subseteq_cons.
Qed.

Lemma remove_all_subseteq m s : remove_all m s ⊆ s.
Proof. apply remove_go_subseteq. Qed.

Lemma sanitizeInput_string s :
  s <> [] ->
  sanitizeInput (JString s) ⊆ filter (fun c => is_xss_char c = false) (trim s).
Proof.
  intros Hs. unfold sanitizeInput.
  destruct s as [|c t]; [done|]. cbn [truthy is_string negb orb].
  repeat (etrans; [apply remove_all_subseteq|]). done.
Qed.

Lemma sanitizeInput_clean input c :
  c ∈ sanitizeInput input -> is_xss_char c = false.
Proof.
  destruct input as [| |b|n| |s]; try (destruct b); try (destruct (n =? 0) eqn:E);
    try (unfold sanitizeInput; simpl; try rewrite E; simpl; by intros ?%elem_of_nil).
  destruct s as [|c0 t]; [by intros ?%elem_of_nil|].
  intros Hc. apply sanitizeInput_string in Hc; [|done].
  by apply list_elem_of_filter in Hc as [? _].
Qed.

(** C10. Whatever it is given, [sanitizeInput] returns a string with no
    less-than sign (60), greater-than sign (62), apostrophe (39), double
    quote (34) or ampersand (38) in it; given the empty string or a value
    that is not a string, it returns the empty string. *)
Theorem sanitizeInput_strips_markup (input : JsValue) :
  ((60 ∉ sanitizeInput input) ∧ (62 ∉ sanitizeInput input) ∧
   (39 ∉ sanitizeInput input) ∧ (34 ∉ sanitizeInput input) ∧
   (38 ∉ sanitizeInput input)) ∧
  (input = JString [] ∨ is_string input = false → sanitizeInput input = []).
Proof.
  split.
  - repeat split; intros H%sanitizeInput_clean; discriminate H.
  - intros [-> | H]; [done|].
    unfold sanitizeInput. rewrite H. by rewrite orb_true_r.
Qed.

End SanitizeInput.

(** ** CSRF token comparison *)

Section ConstantTimeEqual.
Import Js SuperAdminCSRFProtection.

Lemma to_int32_code_unit c : code_unit c -> to_int32 (Some c) = c.
Proof.
  unfold code_unit, to_int32. intros Hc.
  rewrite Z.mod_small by lia.
  destruct (c <? 2 ^ 31) eqn:E; [done|]. apply Z.ltb_ge in E. lia.
Qed.

Lemma log2_code_unit c : code_unit c -> Z.log2 c < 16.
Proof.
  unfold code_unit. intros Hc.
  destruct (decide (c = 0)) as [->|Hne]; [done|].
  apply Z.log2_lt_pow2; lia.
Qed.

Lemma code_unit_of_log2 c : 0 <= c -> Z.log2 c < 16 -> code_unit c.
Proof.
  unfold code_unit. intros H0 Hl.
  destruct (decide (c = 0)) as [->|Hne]; [lia|].
  split; [done|]. change 65536 with (2 ^ 16). apply Z.log2_lt_pow2; lia.
Qed.

Lemma lxor_code_unit x y : code_unit x -> code_unit y -> code_unit (Z.lxor x y).
Proof.
  intros Hx Hy. apply code_unit_of_log2.
  - apply Z.lxor_nonneg. unfold code_unit in *. lia.
  - pose proof (Z.log2_lxor x y) as H.
    pose proof (log2_code_unit _ Hx). pose proof (log2_code_unit _ Hy).
    unfold code_unit in *. lia.
Qed.

Lemma lor_code_unit x y : code_unit x -> code_unit y -> code_unit (Z.lor x y).
Proof.
  intros Hx Hy. apply code_unit_of_log2.
  - apply Z.lor_nonneg. unfold code_unit in *. lia.
  - pose proof (Z.log2_lor x y) as H.
    pose proof (log2_code_unit _ Hx). pose proof (log2_code_unit _ Hy).
    unfold code_unit in *. lia.
Qed.

(** One turn of the loop on two code units. *)
Lemma accumulate_code_unit result x y :
  code_unit result -> code_unit x -> code_unit y ->
  code_unit (bor (Some result) (Some (bxor (Some x) (Some y)))) /\
  (bor (Some result) (Some (bxor (Some x) (Some y))) = 0 <-> result = 0 /\ x = y).
Proof.
  intros Hr Hx Hy. unfold bor, bxor.
  rewrite (to_int32_code_unit x), (to_int32_code_unit y) by done.
  pose proof (lxor_code_unit x y Hx Hy) as Hxy.
  rewrite (to_int32_code_unit result), (to_int32_code_unit (Z.lxor x y)) by done.
  split; [by apply lor_code_unit|].
  rewrite Z.lor_eq_0_iff, Z.lxor_eq_0_iff. done.
Qed.

Lemma compare_loop_zero (a b : jsstring) :
  wf_jsstring a -> wf_jsstring b ->
  forall (n i : nat) result,
    code_unit result ->
    (i + n <= length a)%nat -> (i + n <= length b)%nat ->
    compare_loop a b i n result = 0 <->
    result = 0 /\ forall j, (i <= j < i + n)%nat -> a !! j = b !! j.
Proof.
  intros Ha Hb. induction n as [|n IH]; intros i result Hr Hla Hlb;
    cbn [compare_loop].
  - split; [intros ->; split; [done|]; intros j Hj; lia | by intros [-> _]].
  - destruct (lookup_lt_is_Some_2 a i) as [x Hx]; [lia|].
    destruct (lookup_lt_is_Some_2 b i) as [y Hy]; [lia|].
    unfold charCodeAt. rewrite Hx, Hy.
    assert (code_unit x) as Hcx.
    { eapply (proj1 (Forall_forall _ _) Ha), list_elem_of_lookup_2, Hx. }
    assert (code_unit y) as Hcy.
    { eapply (proj1 (Forall_forall _ _) Hb), list_elem_of_lookup_2, Hy. }
    destruct (accumulate_code_unit result x y Hr Hcx Hcy) as [Hcu Hz].
    rewrite IH by (done || lia). rewrite Hz. split.
    + intros [[-> ->] Hrest]. split; [done|]. intros j Hj.
      destruct (decide (j = i)) as [->|Hne]; [by rewrite Hx, Hy|].
      apply Hrest. lia.
    + intros [-> Hall]. split.
      * split; [done|]. specialize (Hall i). rewrite Hx, Hy in Hall.
        assert (Some x = Some y) as Heq by (apply Hall; lia). by injection Heq.
      * intros j Hj. apply Hall. lia.
Qed.

Lemma constantTimeEqual_eq (a b : jsstring) :
  wf_jsstring a -> wf_jsstring b ->
  constantTimeEqual a b = true <-> a = b.
Proof.
  intros Ha Hb. unfold constantTimeEqual.
  destruct (length a =? length b)%nat eqn:El; simpl.
  - apply Nat.eqb_eq in El.
    rewrite Z.eqb_eq, (compare_loop_zero a b Ha Hb) by (done || lia).
    split.
    + intros [_ Hall]. apply list_eq. intros j.
      destruct (decide (j < length a)%nat) as [Hlt|Hge]; [apply Hall; lia|].
      rewrite !lookup_ge_None_2; [done|lia|lia].
    + by intros ->.
  - apply Nat.eqb_neq in El. split; [done|]. by intros ->.
Qed.

End ConstantTimeEqual.

Section ValidateAdminToken.
Import Js SuperAdminCSRFProtection.

Lemma wf_lit s : wf_jsstring (lit s).
Proof.
  induction s as [|a r IH]; simpl; constructor; [|done].
  pose proof (Ascii.nat_ascii_bounded a). unfold code_unit. lia.
Qed.

Lemma wf_digits_go fuel : forall n acc,
  wf_jsstring acc -> wf_jsstring (digits_go fuel n acc).
Proof.
  induction fuel as [|f IH]; intros n acc Hacc; simpl; [done|].
  assert (code_unit (48 + n mod 10)) as Hd.
  { pose proof (Z.mod_pos_bound n 10). unfold code_unit. lia. }
  destruct (n <? 10); [by constructor|]. apply IH. by constructor.
Qed.

Lemma wf_toString n : wf_jsstring (toString n).
Proof.
  unfold toString. destruct (n <? 0).
  - constructor; [unfold code_unit; lia|]. apply wf_digits_go. constructor.
  - apply wf_digits_go. constructor.
Qed.

Lemma code_unit_hex_digit d : 0 <= d < 16 -> code_unit (hex_digit d).
Proof. unfold hex_digit, code_unit. destruct (d <? 10); lia. Qed.

Lemma wf_hex2 b : wf_jsstring (hex2 b).
Proof.
  unfold hex2.
  pose proof (Z.mod_pos_bound b 256). pose proof (Z.mod_pos_bound (b mod 256) 16).
  constructor; [apply code_unit_hex_digit|
    constructor; [apply code_unit_hex_digit; lia|constructor]].
  split; [apply Z.div_pos; lia | apply Z.div_lt_upper_bound; lia].
Qed.

Lemma wf_hex bytes : wf_jsstring (concat (map hex2 bytes)).
Proof.
  induction bytes as [|b r IH]; cbn [map concat]; [constructor|].
  apply Forall_app. split; [apply wf_hex2 | done].
Qed.

(** A generated token is a non-empty string. *)
Lemma generateSecureToken_token e now c :
  wf_entropy e ->
  exists t, token (generateSecureToken e now c) = Some t /\ t <> [] /\ wf_jsstring t.
Proof.
  intros He. destruct e as [bytes|rnd];
    unfold generateSecureToken, setToken; cbn [token].
  - eexists. split; [reflexivity|]. split; [|apply wf_hex].
    destruct bytes; discriminate.
  - eexists. split; [reflexivity|]. split; [discriminate|].
    apply Forall_app. split; [apply wf_lit|].
    apply Forall_app. split; [apply wf_toString|].
    apply Forall_app. split; [apply wf_lit|done].
Qed.

(** [getToken] never answers [null] or the empty string. *)
Lemma getToken_truthy e now c :
  wf_entropy e -> wf_csrf c ->
  exists t, fst (getToken e now c) = Some t /\ t <> [] /\ wf_jsstring t.
Proof.
  intros He Hc. unfold getToken. cbn [fst].
  destruct (negb (truthy_str (token c)) || isTokenExpired now c) eqn:E.
  - by apply generateSecureToken_token.
  - apply orb_false_elim in E as [E _]. apply negb_false_iff in E.
    destruct (token c) as [[|x t]|] eqn:Et; try discriminate.
    eexists. split; [done|]. split; [done|]. by apply Hc.
Qed.

(** C9. [constantTimeEqual(a, b)] is true exactly when the two strings are
    equal, and so [validateAdminToken(requestToken)] is true exactly when
    there is a current token (what [getToken] answers) and [requestToken]
    equals it. *)
Theorem validateAdminToken_iff_current
  (a b requestToken : jsstring) (e : Entropy) (now : Z) (c : Csrf) :
  wf_jsstring a -> wf_jsstring b ->
  wf_jsstring requestToken -> wf_entropy e -> wf_csrf c ->
  (constantTimeEqual a b = true <-> a = b) /\
  (fst (validateAdminToken requestToken e now c) = true <->
   exists currentToken,
     fst (getToken e now c) = Some currentToken /\ requestToken = currentToken).
Proof.
  intros Ha Hb Hr He Hc. split; [by apply constantTimeEqual_eq|].
  destruct (getToken_truthy e now c He Hc) as (t & Ht & Hne & Hwf).
  unfold validateAdminToken.
  destruct (getToken e now c) as [cur c'] eqn:Eg. cbn [fst] in Ht. subst cur.
  cbn [fst].
  destruct t as [|x t]; [done|].
  destruct requestToken as [|y r]; cbn [truthy_str negb orb fst].
  - split; [done|]. intros (cur & Hcur & Heq). congruence.
  - rewrite constantTimeEqual_eq by done. split.
    + intros Heq. exists (x :: t). by rewrite Heq.
    + intros (cur & Hcur & Heq). congruence.
Qed.

Lemma validateAdminToken_iff_current_witness :
  (constantTimeEqual (lit "a1b2") (lit "a1b2") = true <-> lit "a1b2" = lit "a1b2") /\
  (fst (validateAdminToken (lit "00ff") (RandomValues [0; 255]) 1000
          (setToken (lit "00ff") 900 initial)) = true <->
   exists currentToken,
     fst (getToken (RandomValues [0; 255]) 1000
            (setToken (lit "00ff") 900 initial)) = Some currentToken /\
     lit "00ff" = currentToken).
Proof.
  apply (validateAdminToken_iff_current (lit "a1b2") (lit "a1b2") (lit "00ff")
           (RandomValues [0; 255]) 1000 (setToken (lit "00ff") 900 initial)).
  - apply wf_lit.
  - apply wf_lit.
  - apply wf_lit.
  - exact I.
  - intros t Ht. injection Ht as <-. exact (wf_lit "00ff").
Defined.

End ValidateAdminToken.

(** ** The session manager: reads and notifications *)

Section Observers.
Import Browser AdminSessionManager.
Context {UI : Type}.
Implicit Types w : World UI.

(** C7. [getSessionInfo] is a pure read: whatever the manager's state and
    the current time, the world it leaves (configuration, session state,
    timers, storage) is the world it was given, and the [timeRemaining] it
    returns is max(0, timeoutMinutes*60*1000 - (now - lastActivity)). *)
Theorem getSessionInfo_pure_read w :
  snd (getSessionInfo w) = w /\
  timeRemaining (fst (getSessionInfo w)) =
    Z.max 0 (timeoutMinutes (config w) * 60 * 1000
             - (clock (browser w) - lastActivity (state w))).
Proof. split; reflexivity. Qed.

Lemma same_manager_refl w : same_manager w w.
Proof. by repeat split. Qed.

Lemma same_manager_trans w1 w2 w3 :
  same_manager w1 w2 -> same_manager w2 w3 -> same_manager w1 w3.
Proof.
  intros (?&?&?&?) (?&?&?&?). repeat split; congruence.
Qed.

(** A guarded call always completes normally, has reached the callback,
    and has left the manager alone. *)
Lemma guarded_call cb w :
  exists w', try_catch (call cb w) (fun w => Normal w) = Normal w' /\
             delivered w' = delivered w ++ [lid cb] /\ same_manager w w'.
Proof.
  unfold call. cbn [getSessionInfo].
  destruct (body cb _ (ui w)) as [u|u]; cbn [try_catch];
    eexists; (split; [reflexivity|]); split; try done; by repeat split.
Qed.

Lemma forEach_guarded (ls : list (Listener UI)) : forall w,
  exists w',
    forEach (fun cb w => try_catch (call cb w) (fun w => Normal w)) ls w
      = Normal w' /\
    delivered w' = delivered w ++ (lid <$> ls) /\ same_manager w w'.
Proof.
  induction ls as [|cb ls IH]; intros w; cbn [forEach].
  - exists w. split; [done|]. split; [by rewrite app_nil_r|apply same_manager_refl].
  - destruct (guarded_call cb w) as (w1 & -> & Hd1 & Hs1).
    destruct (IH w1) as (w2 & -> & Hd2 & Hs2).
    exists w2. split; [done|]. split.
    + rewrite Hd2, Hd1, fmap_cons, <- app_assoc. done.
    + by eapply same_manager_trans.
Qed.

Lemma notifyListeners_normal w :
  exists w', notifyListeners w = Normal w' /\
             delivered w' = delivered w ++ (lid <$> listeners w) /\
             same_manager w w'.
Proof. apply forEach_guarded. Qed.

Lemma notifications_S k w :
  notifications (S k) w = outcome (notifyListeners (notifications k w)).
Proof. reflexivity. Qed.

Lemma notifications_spec k : forall w,
  delivered (notifications k w)
    = delivered w ++ concat (replicate k (lid <$> listeners w)) /\
  same_manager w (notifications k w).
Proof.
  induction k as [|k IH]; intros w.
  - cbn. split; [by rewrite app_nil_r|apply same_manager_refl].
  - rewrite notifications_S.
    destruct (IH w) as [Hd Hs]. set (wk := notifications k w) in *.
    destruct (notifyListeners_normal wk) as (w' & -> & Hd' & Hs').
    cbn [outcome]. split.
    + rewrite Hd', Hd. destruct Hs as (_ & _ & -> & _).
      rewrite <- app_assoc. f_equal.
      change (S k) with (1 + k)%nat. rewrite Nat.add_comm, replicate_add.
      rewrite concat_app. cbn. by rewrite app_nil_r.
    + by eapply same_manager_trans.
Qed.

(** The callbacks of one notification all see the same session. *)
Lemma getSessionInfo_same w w' :
  same_manager w w' -> fst (getSessionInfo w') = fst (getSessionInfo w).
Proof. intros (Hc & Hs & _ & Hb). unfold getSessionInfo. cbn. by rewrite Hc, Hs, Hb. Qed.

(** A guarded call leaves what the callback left, also when it threw. *)
Lemma guarded_call_ui cb w :
  ui (outcome (try_catch (call cb w) (fun w => Normal w)))
  = outcome (body cb (fst (getSessionInfo w)) (ui w)).
Proof.
  unfold call. cbn [getSessionInfo fst].
  by destruct (body cb _ (ui w)) as [u|u].
Qed.

Lemma forEach_guarded_ui (ls : list (Listener UI)) : forall w,
  ui (outcome
        (forEach (fun cb w => try_catch (call cb w) (fun w => Normal w)) ls w))
  = run_bodies (fst (getSessionInfo w)) ls (ui w).
Proof.
  induction ls as [|cb ls IH]; intros w; cbn [forEach]; [done|].
  pose proof (guarded_call_ui cb w) as Hu.
  destruct (guarded_call cb w) as (w1 & E & _ & Hs).
  rewrite E in Hu |- *. cbn [outcome] in Hu.
  rewrite IH, (getSessionInfo_same w w1 Hs), Hu. reflexivity.
Qed.

Lemma notifications_ui k : forall w,
  ui (notifications k w)
  = Nat.iter k (run_bodies (fst (getSessionInfo w)) (listeners w)) (ui w).
Proof.
  induction k as [|k IH]; intros w; [done|].
  rewrite notifications_S.
  change (Nat.iter (S k) ?f ?x) with (f (Nat.iter k f x)).
  rewrite <- (IH w).
  destruct (notifications_spec k w) as [_ Hs].
  unfold notifyListeners. rewrite forEach_guarded_ui.
  rewrite (getSessionInfo_same w _ Hs).
  by destruct Hs as (_ & _ & -> & _).
Qed.

(** C8. Whatever the subscribed callbacks do, throw or return, a
    notification never throws and runs every one of them once and in
    order: what it leaves of the state the callbacks act on is what all of
    them together make of it, each starting from what the one before it
    left, so that a callback that throws takes nothing from those after
    it. The same holds of each of the [k] notifications of a run. None of
    it touches the manager's configuration, session state, listener set
    or timers. *)
Theorem notifyListeners_isolates_listeners (k : nat) w :
  threw (notifyListeners (notifications k w)) = false /\
  ui (outcome (notifyListeners w))
    = run_bodies (fst (getSessionInfo w)) (listeners w) (ui w) /\
  (forall before cb after,
     listeners w = before ++ cb :: after ->
     ui (outcome (notifyListeners w))
     = run_bodies (fst (getSessionInfo w)) after
         (outcome
            (body cb (fst (getSessionInfo w))
               (run_bodies (fst (getSessionInfo w)) before (ui w))))) /\
  ui (notifications k w)
    = Nat.iter k (run_bodies (fst (getSessionInfo w)) (listeners w)) (ui w) /\
  delivered (outcome (notifyListeners w))
    = delivered w ++ (lid <$> listeners w) /\
  delivered (notifications k w)
    = delivered w ++ concat (replicate k (lid <$> listeners w)) /\
  same_manager w (outcome (notifyListeners w)) /\
  same_manager w (notifications k w).
Proof.
  destruct (notifyListeners_normal (notifications k w)) as (w1 & E1 & _ & _).
  destruct (notifyListeners_normal w) as (w2 & E2 & Hd & Hs).
  destruct (notifications_spec k w) as [Hdk Hsk].
  assert (ui (outcome (notifyListeners w))
          = run_bodies (fst (getSessionInfo w)) (listeners w) (ui w)) as Hui
    by apply forEach_guarded_ui.
  split; [by rewrite E1|]. split; [exact Hui|]. split.
  { intros before cb after Hl. rewrite Hui, Hl. unfold run_bodies.
    by rewrite foldl_app. }
  split; [apply notifications_ui|].
  rewrite E2. cbn [outcome]. done.
Qed.

End Observers.

(** ** The session manager: timers *)

Section Timers.
Import Browser AdminSessionManager.
Context {UI : Type}.
Implicit Types w : World UI.

Lemma filter_all {A} (P : A -> Prop) `{forall x, Decision (P x)} (l : list A) :
  (forall x, x ∈ l -> P x) -> filter P l = l.
Proof.
  induction l as [|x l IH]; intros Hall; [done|].
  rewrite filter_cons_True by (apply Hall; left).
  f_equal. apply IH. intros y Hy. apply Hall. by right.
Qed.

Lemma filter_none {A} (P : A -> Prop) `{forall x, Decision (P x)} (l : list A) :
  (forall x, x ∈ l -> ~ P x) -> filter P l = [].
Proof.
  induction l as [|x l IH]; intros Hall; [done|].
  rewrite filter_cons_False by (apply Hall; left).
  apply IH. intros y Hy. apply Hall. by right.
Qed.

(** [clearTimeouts] cancels the timers whose handles the manager holds,
    forgets the handles, and does nothing else. *)
Lemma clearTimeouts_eq w :
  clearTimeouts w =
  mkWorld (config w)
    (mkState (lastActivity (state w)) (isActive (state w))
       (warningShown (state w)) None None)
    (listeners w)
    (set_timers (nextHandle (browser w))
       (filter (fun t => ~ held (state w) t) (timeouts (browser w)))
       (browser w))
    (ui w) (delivered w).
Proof.
  destruct w as [c [la ia ws ti wi] ls e u d].
  destruct e as [ck nh ts iv st nf dl dg nv nr os vf].
  unfold clearTimeouts, on_state, on_browser, set_state, set_browser,
    with_timeoutId, with_warningTimeoutId, clearTimeout, set_timers, held.
  destruct ti as [h1|], wi as [h2|]; cbn; do 2 f_equal.
  - rewrite list_filter_filter. apply list_filter_iff. intros t.
    split; [intros [? ?] [?|?]; congruence
           | intros Hn; split; intros E; apply Hn; subst; auto].
  - apply list_filter_iff. intros t.
    split; [intros ? [?|?]; congruence | intros Hn E; apply Hn; subst; auto].
  - apply list_filter_iff. intros t.
    split; [intros ? [?|?]; congruence | intros Hn E; apply Hn; subst; auto].
  - symmetry. apply filter_all. intros t _ [?|?]; congruence.
Qed.

Lemma clearTimeouts_tracked w :
  tracked w -> timeouts (browser (clearTimeouts w)) = [].
Proof.
  intros Ht. rewrite clearTimeouts_eq. cbn.
  apply filter_none. intros t Hin Hn. by apply Hn, Ht.
Qed.

(** [scheduleTimeouts]: the same, then the warning and the hard timeout
    are armed afresh at the current time. *)
Lemma scheduleTimeouts_eq w :
  let h := nextHandle (browser w) in
  let now := clock (browser w) in
  scheduleTimeouts w =
  mkWorld (config w)
    (mkState (lastActivity (state w)) (isActive (state w))
       (warningShown (state w)) (Some (S h)) (Some h))
    (listeners w)
    (set_timers (S (S h))
       (filter (fun t => ~ held (state w) t) (timeouts (browser w)) ++
        [mkTimer h ShowTimeoutWarning
           ((timeoutMinutes (config w) - warningMinutes (config w)) * 60 * 1000)
           now;
         mkTimer (S h) HandleSessionTimeout
           (timeoutMinutes (config w) * 60 * 1000) now])
       (browser w))
    (ui w) (delivered w).
Proof.
  unfold scheduleTimeouts. rewrite clearTimeouts_eq.
  destruct w as [c s ls e u d].
  destruct e as [ck nh ts iv st nf dl dg nv nr os vf].
  cbn. unfold on_state, set_state, set_browser, with_timeoutId,
    with_warningTimeoutId, set_timers. cbn.
  by rewrite <- app_assoc.
Qed.

Lemma scheduleTimeouts_timeouts w :
  tracked w ->
  timeouts (browser (scheduleTimeouts w)) =
  [mkTimer (nextHandle (browser w)) ShowTimeoutWarning
     ((timeoutMinutes (config w) - warningMinutes (config w)) * 60 * 1000)
     (clock (browser w));
   mkTimer (S (nextHandle (browser w))) HandleSessionTimeout
     (timeoutMinutes (config w) * 60 * 1000) (clock (browser w))].
Proof.
  intros Ht. pose proof (clearTimeouts_tracked w Ht) as Hc.
  rewrite clearTimeouts_eq in Hc. cbn in Hc.
  rewrite scheduleTimeouts_eq. cbn. by rewrite Hc.
Qed.

Lemma scheduleTimeouts_tracked w : tracked w -> tracked (scheduleTimeouts w).
Proof.
  intros Ht t. rewrite (scheduleTimeouts_timeouts w Ht).
  rewrite scheduleTimeouts_eq. unfold held. cbn.
  intros [->|[->|[]%elem_of_nil]%elem_of_cons]%elem_of_cons; cbn; auto.
Qed.

(** *** Activity *)

Lemma handleActivity_ignored w :
  clock (browser w) - lastActivity (state w) < 1000 ->
  handleActivity w = Normal w.
Proof.
  intros Hlt. unfold handleActivity.
  destruct (Z.ltb_spec (clock (browser w) - lastActivity (state w)) 1000); [done|lia].
Qed.

Lemma handleActivity_accepted w :
  1000 <= clock (browser w) - lastActivity (state w) ->
  exists w',
    handleActivity w = Normal w' /\
    same_manager
      (scheduleTimeouts
         (on_state (with_warningShown false)
            (on_state (with_lastActivity (clock (browser w))) w))) w'.
Proof.
  intros Hge. unfold handleActivity.
  destruct (Z.ltb_spec (clock (browser w) - lastActivity (state w)) 1000); [lia|].
  match goal with |- context [notifyListeners ?x] =>
    destruct (notifyListeners_normal x) as (w' & -> & _ & Hs) end.
  by exists w'.
Qed.

(** What an accepted event leaves in the session state and the timers. *)
Lemma handleActivity_accepted_state w :
  1000 <= clock (browser w) - lastActivity (state w) ->
  let w' := outcome (handleActivity w) in
  let h := nextHandle (browser w) in
  let now := clock (browser w) in
  state w' = mkState now (isActive (state w)) false (Some (S h)) (Some h) /\
  browser w' =
    set_timers (S (S h))
      (filter (fun t => ~ held (state w) t) (timeouts (browser w)) ++
       [mkTimer h ShowTimeoutWarning
          ((timeoutMinutes (config w) - warningMinutes (config w)) * 60 * 1000)
          now;
        mkTimer (S h) HandleSessionTimeout
          (timeoutMinutes (config w) * 60 * 1000) now])
      (browser w) /\
  config w' = config w.
Proof.
  intros Hge. destruct (handleActivity_accepted w Hge) as (w' & -> & Hs).
  cbn [outcome]. destruct Hs as (Hc & Hst & _ & Hb).
  rewrite scheduleTimeouts_eq in Hc, Hst, Hb. cbn in Hc, Hst, Hb.
  by rewrite Hc, Hst, Hb.
Qed.

(** [handleActivity] never moves [lastActivity] back, and moves it by a
    second at least when it moves it. *)
Lemma handleActivity_lastActivity w :
  let w' := outcome (handleActivity w) in
  lastActivity (state w') = lastActivity (state w) \/
  (lastActivity (state w) + 1000 <= lastActivity (state w') /\
   lastActivity (state w') = clock (browser w)).
Proof.
  destruct (Z.lt_ge_cases (clock (browser w) - lastActivity (state w)) 1000) as [Hlt|Hge].
  - left. by rewrite handleActivity_ignored.
  - right. destruct (handleActivity_accepted_state w Hge) as (-> & _). cbn. lia.
Qed.

Lemma activity_spaced (times : list Z) : forall w,
  spaced (lastActivity (state w)) (fst (activity times w)) /\
  lastActivity (state w) <= lastActivity (state (snd (activity times w))).
Proof.
  induction times as [|t times IH]; intros w; cbn [activity].
  { cbn [fst snd spaced]. split; [done|lia]. }
  set (w1 := on_browser (set_clock t) w).
  set (w2 := outcome (handleActivity w1)).
  destruct (IH w2) as [Hsp Hle].
  destruct (activity times w2) as [updates w3]. cbn [fst snd] in *.
  assert (lastActivity (state w1) = lastActivity (state w)) as E1 by done.
  pose proof (handleActivity_lastActivity w1) as H12.
  cbv zeta in H12. fold w2 in H12. destruct H12 as [Heq|[Hup _]].
  - rewrite Heq, E1 in *. rewrite Z.eqb_refl. split; [done|lia].
  - rewrite E1 in Hup.
    destruct (Z.eqb_spec (lastActivity (state w2)) (lastActivity (state w))); [lia|].
    cbn [fst snd spaced]. split; [done|lia].
Qed.

Lemma spaced_lower last updates :
  spaced last updates -> forall u, u ∈ updates -> last + 1000 <= u.
Proof.
  revert last. induction updates as [|x updates IH]; intros last Hsp u Hu.
  - by apply elem_of_nil in Hu.
  - destruct Hsp as [Hx Hrest]. apply elem_of_cons in Hu as [->|Hu]; [done|].
    specialize (IH x Hrest u Hu). lia.
Qed.

Lemma spaced_window last updates s :
  spaced last updates -> (length (in_window s updates) <= 1)%nat.
Proof.
  revert last. unfold in_window.
  induction updates as [|x updates IH]; intros last Hsp; [cbn; lia|].
  destruct Hsp as [Hx Hrest].
  destruct (decide (s <= x < s + 1000)) as [Hin|Hout].
  - rewrite filter_cons_True by done.
    rewrite filter_none; [cbn; lia|].
    intros u Hu. pose proof (spaced_lower x updates Hrest u Hu). lia.
  - rewrite filter_cons_False by done. by eapply IH.
Qed.

(** C6. An activity event arriving less than 1000 ms after [lastActivity]
    changes nothing. An accepted one sets [lastActivity] to the current
    time, clears [warningShown], cancels the timers held and arms the
    warning and the hard timeout afresh. So over any sequence of activity
    events at most one update of [lastActivity] falls into any window of
    1000 ms, and [lastActivity] never decreases. *)
Theorem handleActivity_throttles (times : list Z) (s : Z) w :
  let now := clock (browser w) in
  let h := nextHandle (browser w) in
  let w' := outcome (handleActivity w) in
  (now - lastActivity (state w) < 1000 -> w' = w) /\
  (1000 <= now - lastActivity (state w) ->
   lastActivity (state w') = now /\
   warningShown (state w') = false /\
   warningTimeoutId (state w') = Some h /\
   timeoutId (state w') = Some (S h) /\
   timeouts (browser w') =
     filter (fun t => ~ held (state w) t) (timeouts (browser w)) ++
     [mkTimer h ShowTimeoutWarning
        ((timeoutMinutes (config w) - warningMinutes (config w)) * 60 * 1000)
        now;
      mkTimer (S h) HandleSessionTimeout
        (timeoutMinutes (config w) * 60 * 1000) now]) /\
  (length (in_window s (fst (activity times w))) <= 1)%nat /\
  spaced (lastActivity (state w)) (fst (activity times w)) /\
  lastActivity (state w) <= lastActivity (state (snd (activity times w))).
Proof.
  cbv zeta. split; [|split; [|split]].
  - intros Hlt. by rewrite handleActivity_ignored.
  - intros Hge. destruct (handleActivity_accepted_state w Hge) as (-> & -> & _).
    by cbn.
  - eapply spaced_window, activity_spaced.
  - apply activity_spaced.
Qed.

(** *** The invariants hold in every reachable state *)

Lemma inv_frame w w' : timers_of w' = timers_of w -> inv w -> inv w'.
Proof.
  unfold timers_of, inv, tracked, checked, held.
  intros [= -> -> -> -> ->]. done.
Qed.

(** The [forEach] loops of [start] and [stop] only touch the document's
    listeners. *)
Lemma set_listeners_twice n l n' l' w :
  on_browser (Browser.set_listeners n' l') (on_browser (Browser.set_listeners n l) w)
  = on_browser (Browser.set_listeners n' l') w.
Proof. by destruct w as [c s ls e u d]. Qed.

Lemma attach_loop (evs : list string) : forall w,
  exists n l,
    foldl (fun w event =>
             let '(f, e) := bind (browser w) in
             set_browser (addEventListener event f e) w) w evs
    = on_browser (Browser.set_listeners n l) w.
Proof.
  induction evs as [|ev evs IH]; intros w; cbn [foldl].
  - exists (nextFunction (browser w)), (documentListeners (browser w)).
    by destruct w as [c s ls [] u d].
  - match goal with |- context [foldl ?f ?x evs] =>
      destruct (IH x) as (n & l & ->) end.
    unfold bind, addEventListener. cbn.
    destruct (decide _).
    + exists n, l. destruct w as [c s ls [] u d]. reflexivity.
    + exists n, l. destruct w as [c s ls [] u d]. reflexivity.
Qed.

Lemma detach_loop (evs : list string) : forall w,
  exists n l,
    foldl (fun w event =>
             let '(f, e) := bind (browser w) in
             set_browser (removeEventListener event f e) w) w evs
    = on_browser (Browser.set_listeners n l) w.
Proof.
  induction evs as [|ev evs IH]; intros w; cbn [foldl].
  - exists (nextFunction (browser w)), (documentListeners (browser w)).
    by destruct w as [c s ls [] u d].
  - match goal with |- context [foldl ?f ?x evs] =>
      destruct (IH x) as (n & l & ->) end.
    exists n, l. destruct w as [c s ls [] u d]. reflexivity.
Qed.

(** [stop] on an active manager, in one equation. *)
Lemma stop_active w :
  isActive (state w) = true ->
  exists n l,
    stop w =
    mkWorld (config w)
      (mkState (lastActivity (state w)) false (warningShown (state w)) None None)
      (listeners w)
      (set_timers (nextHandle (browser w))
         (filter (fun t => ~ held (state w) t) (timeouts (browser w)))
         (Browser.set_listeners n l (browser w)))
      (ui w) (delivered w).
Proof.
  intros Ha. unfold stop. rewrite Ha. cbn [negb].
  match goal with |- context [foldl ?f ?x ?evs] =>
    destruct (detach_loop evs x) as (n & l & ->) end.
  exists n, l. rewrite clearTimeouts_eq. reflexivity.
Qed.

Lemma stop_inactive w : isActive (state w) = false -> stop w = w.
Proof. intros Ha. unfold stop. by rewrite Ha. Qed.

(** What [stop] never touches. *)
Lemma stop_frame w :
  intervals (browser (stop w)) = intervals (browser w) /\
  localStorage (browser (stop w)) = localStorage (browser w) /\
  navigations (browser (stop w)) = navigations (browser w) /\
  dialogs (browser (stop w)) = dialogs (browser w).
Proof.
  destruct (isActive (state w)) eqn:Ha.
  - by destruct (stop_active w Ha) as (n & l & ->).
  - by rewrite stop_inactive.
Qed.

Lemma inv_scheduleTimeouts w : inv w -> inv (scheduleTimeouts w).
Proof.
  intros [Ht Hc]. split; [by apply scheduleTimeouts_tracked|].
  unfold checked. by rewrite scheduleTimeouts_eq.
Qed.

Lemma stop_timeouts w :
  tracked w -> isActive (state w) = true -> timeouts (browser (stop w)) = [].
Proof.
  intros Ht Ha. destruct (stop_active w Ha) as (n & l & ->). cbn.
  apply filter_none. intros t Hin Hn. by apply Hn, Ht.
Qed.

Lemma inv_stop w : inv w -> inv (stop w).
Proof.
  intros Hi. destruct (isActive (state w)) eqn:Ha.
  - destruct Hi as [Ht _]. split.
    + intros t. rewrite (stop_timeouts w Ht Ha). by intros ?%elem_of_nil.
    + destruct (stop_active w Ha) as (n & l & ->). by intros [=].
  - by rewrite stop_inactive.
Qed.

Lemma inv_handleSessionTimeout w : inv w -> inv (handleSessionTimeout w).
Proof. intros Hi. eapply inv_frame, inv_stop, Hi. reflexivity. Qed.

Lemma inv_extendSession w : inv w -> inv (extendSession w).
Proof.
  intros Hi. apply inv_scheduleTimeouts. eapply inv_frame, Hi. reflexivity.
Qed.

Lemma inv_showTimeoutWarning answer took w :
  inv w -> inv (showTimeoutWarning answer took w).
Proof.
  intros Hi. unfold showTimeoutWarning.
  destruct (warningShown (state w)); [done|].
  destruct answer; [apply inv_extendSession|apply inv_handleSessionTimeout];
    (eapply inv_frame, Hi; reflexivity).
Qed.

Lemma inv_periodicCheck w : inv w -> inv (periodicCheck w).
Proof.
  intros Hi. unfold periodicCheck, validateSessionWithBackend.
  destruct (isActive (state w)); [|done]. cbn [negb].
  destruct (_ <=? _); [by apply inv_handleSessionTimeout|].
  destruct (_ <? _); [|done].
  destruct (negb _); [done|]. eapply inv_frame, Hi. reflexivity.
Qed.

Lemma inv_run_callback cb answer took w :
  inv w -> inv (run_callback cb answer took w).
Proof.
  destruct cb; cbn [run_callback];
    auto using inv_showTimeoutWarning, inv_handleSessionTimeout, inv_periodicCheck.
Qed.

Lemma inv_start w : inv w -> inv (start w).
Proof.
  intros Hi. unfold start. destruct (isActive (state w)) eqn:Ha; [done|].
  match goal with |- context [foldl ?f ?x ?evs] =>
    destruct (attach_loop evs x) as (n & l & ->) end.
  set (w1 := on_browser _ _).
  assert (tracked w1) as Ht1.
  { destruct Hi as [Ht _]. intros t Hin. apply (Ht t Hin). }
  split.
  - intros t Hin. exact (scheduleTimeouts_tracked w1 Ht1 t Hin).
  - intros _. unfold startPeriodicCheck. cbn.
    by destruct (intervals _).
Qed.

Lemma inv_updateConfig c w : inv w -> inv (updateConfig c w).
Proof.
  intros Hi. unfold updateConfig. cbn [state set_config].
  destruct (isActive (state w)); [apply inv_scheduleTimeouts|];
    (eapply inv_frame, Hi; reflexivity).
Qed.

Lemma inv_same_manager w w' : same_manager w w' -> inv w -> inv w'.
Proof.
  intros (_ & Hs & _ & Hb). apply inv_frame. unfold timers_of. by rewrite Hs, Hb.
Qed.

Lemma inv_handleActivity w : inv w -> inv (outcome (handleActivity w)).
Proof.
  intros Hi.
  destruct (Z.lt_ge_cases (clock (browser w) - lastActivity (state w)) 1000) as [Hlt|Hge].
  - by rewrite handleActivity_ignored.
  - destruct (handleActivity_accepted w Hge) as (w' & -> & Hs).
    eapply inv_same_manager; [exact Hs|].
    apply inv_scheduleTimeouts. eapply inv_frame, Hi. reflexivity.
Qed.

Lemma inv_dispatch ty w : inv w -> inv (dispatch ty w).
Proof.
  unfold dispatch. generalize (documentListeners (browser w)) as ls.
  intros ls. revert w. induction ls as [|p ls IH]; intros w Hi; [done|].
  cbn [foldl]. apply IH. destruct (String.eqb _ _); [|done].
  by apply inv_handleActivity.
Qed.

Lemma inv_clearTimeout h w : inv w -> inv (on_browser (clearTimeout h) w).
Proof.
  intros [Ht Hc]. split; [|done].
  intros t Hin. apply Ht. cbn in Hin. by apply list_elem_of_filter in Hin as [_ ?].
Qed.

Lemma inv_fire_timeout h answer took w :
  inv w -> inv (fire_timeout h answer took w).
Proof.
  intros Hi. unfold fire_timeout.
  destruct (find_timer _ _); [|done]. destruct (due _ _); [|done].
  by apply inv_run_callback, inv_clearTimeout.
Qed.

Lemma inv_fire_interval h w : inv w -> inv (fire_interval h w).
Proof.
  intros Hi. unfold fire_interval.
  destruct (find_timer _ _); [|done]. destruct (due _ _); [|done].
  apply inv_run_callback. destruct Hi as [Ht Hc]. split; [done|].
  intros Ha. cbn. specialize (Hc Ha). by destruct (intervals (browser w)).
Qed.

(** AuthService works on storage and the network only. *)
Lemma logout_timers e :
  timeouts (AuthService.logout e) = timeouts e /\
  intervals (AuthService.logout e) = intervals e.
Proof. done. Qed.

Lemma login_resume_timers o e :
  timeouts (snd (AuthService.login_resume o e)) = timeouts e /\
  intervals (snd (AuthService.login_resume o e)) = intervals e.
Proof.
  unfold AuthService.login_resume.
  destruct o as [d|err]; [|done]. destruct (ApiClient.d_user d); [|done].
  destruct (ApiClient.truthy_string _); [|done]. by destruct (negb _).
Qed.

Lemma refresh_call_timers e :
  timeouts (snd (AuthService.refreshAccessToken_call e)) = timeouts e /\
  intervals (snd (AuthService.refreshAccessToken_call e)) = intervals e.
Proof.
  unfold AuthService.refreshAccessToken_call. by destruct (negb _).
Qed.

Lemma refresh_resume_timers o e :
  timeouts (snd (AuthService.refreshAccessToken_resume o e)) = timeouts e /\
  intervals (snd (AuthService.refreshAccessToken_resume o e)) = intervals e.
Proof.
  unfold AuthService.refreshAccessToken_resume.
  destruct o as [d|err].
  - destruct (ApiClient.d_user d); [|done]. destruct (ApiClient.truthy_string _); [|done].
    by destruct (negb _).
  - by destruct (_ || _).
Qed.

Lemma inv_on_browser (f : Env -> Env) w :
  timeouts (f (browser w)) = timeouts (browser w) /\
  intervals (f (browser w)) = intervals (browser w) ->
  inv w -> inv (on_browser f w).
Proof.
  intros [Ht Hi]. apply inv_frame. unfold timers_of. cbn. by rewrite Ht, Hi.
Qed.

Lemma inv_step ev w : inv w -> inv (step ev w).
Proof.
  intros Hi. destruct ev; cbn [step].
  - by apply inv_on_browser.
  - by apply inv_start.
  - by apply inv_stop.
  - by apply inv_extendSession.
  - by apply inv_updateConfig.
  - unfold addListener. by destruct (decide _).
  - done.
  - by apply inv_dispatch.
  - by apply inv_fire_timeout.
  - by apply inv_fire_interval.
  - apply inv_on_browser; [|done]. cbn.
    apply (login_resume_timers _ (settle _ (snd (ApiClient.post "/login" (browser w))))).
  - apply inv_on_browser; [|done]. apply logout_timers.
  - apply inv_on_browser; [|done]. apply refresh_call_timers.
  - apply inv_on_browser; [|done]. destruct (decide _); [|done].
    apply (refresh_resume_timers _ (settle _ (browser w))).
Qed.

Lemma inv_run evs : forall w, inv w -> inv (run evs w).
Proof.
  induction evs as [|ev evs IH]; intros w Hi; [done|].
  cbn [run foldl]. apply IH. by apply inv_step.
Qed.

Lemma inv_constructor now ls (u : UI) : inv (constructor now ls u).
Proof.
  split.
  - intros t Hin. by apply elem_of_nil in Hin.
  - by intros [=].
Qed.

Lemma inv_reachable w : reachable w -> inv w.
Proof.
  intros (now & ls & u & evs & ->). apply inv_run, inv_constructor.
Qed.

(** *** Stopping *)

Lemma stop_isActive w : isActive (state (stop w)) = false.
Proof.
  destruct (isActive (state w)) eqn:Ha.
  - by destruct (stop_active w Ha) as (n & l & ->).
  - by rewrite stop_inactive.
Qed.

Lemma stop_stop w : stop (stop w) = stop w.
Proof. apply stop_inactive, stop_isActive. Qed.

Lemma periodicCheck_inactive w :
  isActive (state w) = false -> periodicCheck w = w.
Proof. intros Ha. unfold periodicCheck. by rewrite Ha. Qed.

Lemma fire_timeout_none h answer took w :
  timeouts (browser w) = [] -> fire_timeout h answer took w = w.
Proof. intros Ht. unfold fire_timeout. by rewrite Ht. Qed.

(** C4, as the code has it. When [stop()] returns on an active manager,
    the warning timeout and the hard timeout are cancelled and their
    handles forgotten; the periodic check interval that [start()] began is
    not cancelled and stays scheduled, its callback returning at once while
    the manager is inactive. A second [stop()] in a row changes nothing. *)
Theorem stop_cancels_the_timeouts w :
  reachable w ->
  stop (stop w) = stop w /\
  (isActive (state w) = true ->
   isActive (state (stop w)) = false /\
   timeouts (browser (stop w)) = [] /\
   timeoutId (state (stop w)) = None /\
   warningTimeoutId (state (stop w)) = None /\
   intervals (browser (stop w)) = intervals (browser w) /\
   intervals (browser (stop w)) <> [] /\
   periodicCheck (stop w) = stop w).
Proof.
  intros [Ht Hc]%inv_reachable. split; [apply stop_stop|]. intros Ha.
  split; [apply stop_isActive|].
  split; [by apply stop_timeouts|].
  assert (intervals (browser (stop w)) = intervals (browser w)) as Hi.
  { by destruct (stop_active w Ha) as (n & l & ->). }
  split; [by destruct (stop_active w Ha) as (n & l & ->)|].
  split; [by destruct (stop_active w Ha) as (n & l & ->)|].
  split; [done|]. split; [rewrite Hi; by apply Hc|].
  apply periodicCheck_inactive, stop_isActive.
Qed.

(** C3, as the code has it. When an active manager is deactivated, by
    [stop()] or by [handleSessionTimeout], then on return [isActive] is
    false and no warning or hard timeout is pending, while the periodic
    check interval is still scheduled. [stop()] leaves the storage as it
    was; [handleSessionTimeout] leaves neither [adminToken] nor
    [adminUser] in it. *)
Theorem deactivation_clears_timeouts w :
  reachable w ->
  isActive (state w) = true ->
  (isActive (state (stop w)) = false /\
   timeouts (browser (stop w)) = [] /\
   intervals (browser (stop w)) = intervals (browser w) /\
   intervals (browser (stop w)) <> [] /\
   localStorage (browser (stop w)) = localStorage (browser w)) /\
  (isActive (state (handleSessionTimeout w)) = false /\
   timeouts (browser (handleSessionTimeout w)) = [] /\
   intervals (browser (handleSessionTimeout w)) = intervals (browser w) /\
   getItem "adminToken" (browser (handleSessionTimeout w)) = None /\
   getItem "adminUser" (browser (handleSessionTimeout w)) = None).
Proof.
  intros [Ht Hc]%inv_reachable Ha.
  pose proof (stop_timeouts w Ht Ha) as Hts.
  pose proof (stop_isActive w) as Hia.
  destruct (stop_frame w) as (Hiv & Hls & _ & _).
  split.
  - split; [done|]. split; [done|]. split; [done|].
    split; [rewrite Hiv; by apply Hc|done].
  - unfold handleSessionTimeout, clearAdminAuthData, getItem. cbn.
    split; [done|]. split; [done|]. split; [done|]. split.
    + rewrite lookup_delete_ne by done. apply lookup_delete_eq.
    + apply lookup_delete_eq.
Qed.

(** [handleSessionTimeout] asks nothing about the state it is run in. *)
Lemma handleSessionTimeout_unguarded w :
  navigations (browser (handleSessionTimeout w))
    = navigations (browser w) ++ ["/login"%string] /\
  dialogs (browser (handleSessionTimeout w)) = dialogs (browser w) ++ [Alert] /\
  getItem "adminToken" (browser (handleSessionTimeout w)) = None /\
  getItem "adminUser" (browser (handleSessionTimeout w)) = None.
Proof.
  destruct (stop_frame w) as (_ & _ & Hnv & Hdg).
  unfold handleSessionTimeout, clearAdminAuthData, getItem. cbn.
  rewrite Hnv, Hdg. split; [done|]. split; [done|]. split.
  - rewrite lookup_delete_ne by done. apply lookup_delete_eq.
  - apply lookup_delete_eq.
Qed.

(** C5, as the code has it. [handleSessionTimeout] has no guard of its
    own: in whatever state it runs, active or not, it removes [adminToken]
    and [adminUser], alerts and redirects. Expiry happens once because of
    its triggers. When an active session expires, by the hard timeout, by
    a declined warning or by the periodic check (which runs the same
    handler once the timeout has elapsed), the redirect is made once;
    afterwards the periodic check returns at once and no timeout of the
    manager is left to fire. *)
Theorem expiry_of_active_session_redirects_once w :
  reachable w ->
  isActive (state w) = true ->
  (forall w0 : World UI,
     navigations (browser (handleSessionTimeout w0))
       = navigations (browser w0) ++ ["/login"%string] /\
     dialogs (browser (handleSessionTimeout w0))
       = dialogs (browser w0) ++ [Alert] /\
     getItem "adminToken" (browser (handleSessionTimeout w0)) = None /\
     getItem "adminUser" (browser (handleSessionTimeout w0)) = None) /\
  (timeoutMinutes (config w) * 60 * 1000
     <= clock (browser w) - lastActivity (state w) ->
   periodicCheck w = handleSessionTimeout w) /\
  periodicCheck (handleSessionTimeout w) = handleSessionTimeout w /\
  (forall h answer took,
     fire_timeout h answer took (handleSessionTimeout w) = handleSessionTimeout w).
Proof.
  intros [Ht Hc]%inv_reachable Ha.
  split; [|split; [|split]].
  - apply handleSessionTimeout_unguarded.
  - intros Hge. unfold periodicCheck. rewrite Ha. cbn [negb].
    destruct (Z.leb_spec (timeoutMinutes (config w) * 60 * 1000)
                (clock (browser w) - lastActivity (state w))); [done|lia].
  - apply periodicCheck_inactive. apply stop_isActive.
  - intros h answer took. apply fire_timeout_none.
    apply (stop_timeouts w Ht Ha).
Qed.

End Timers.

(** ** The session manager on concrete runs *)

Section Runs.
Import Browser AdminSessionManager Sample.

Lemma start_reachable : reachable (start (constructor 0 ∅ tt)).
Proof. exists 0, ∅, tt, [Start]. reflexivity. Qed.

(** After [start()] and [stop()], the interval [start()] scheduled is
    still live. *)
Lemma stop_leaves_the_interval :
  isActive (state (stop (start (constructor 0 ∅ tt)))) = false /\
  intervals (browser (stop (start (constructor 0 ∅ tt))))
    = [mkTimer 3 PeriodicCheck 300000 0].
Proof. split; vm_compute; reflexivity. Qed.

Lemma stop_cancels_the_timeouts_witness :
  stop (stop (start (constructor 0 ∅ tt))) = stop (start (constructor 0 ∅ tt)) /\
  isActive (state (stop (start (constructor 0 ∅ tt)))) = false /\
  timeouts (browser (stop (start (constructor 0 ∅ tt)))) = [] /\
  timeoutId (state (stop (start (constructor 0 ∅ tt)))) = None /\
  warningTimeoutId (state (stop (start (constructor 0 ∅ tt)))) = None /\
  intervals (browser (stop (start (constructor 0 ∅ tt))))
    = intervals (browser (start (constructor 0 ∅ tt))) /\
  intervals (browser (stop (start (constructor 0 ∅ tt)))) <> [] /\
  periodicCheck (stop (start (constructor 0 ∅ tt)))
    = stop (start (constructor 0 ∅ tt)).
Proof.
  destruct (stop_cancels_the_timeouts (start (constructor 0 ∅ tt)))
    as [Htwice Hactive].
  - exists 0, ∅, tt, [Start]. reflexivity.
  - split; [exact Htwice|]. apply Hactive. reflexivity.
Defined.

(** A login, then [start()] and [stop()]: the manager is inactive, the
    periodic check is scheduled and the access token is in the store. *)
Lemma inactive_with_token_and_interval :
  reachable (run [Login login_ok; Start; Stop] (constructor 0 ∅ tt)) /\
  isActive (state (run [Login login_ok; Start; Stop] (constructor 0 ∅ tt))) = false /\
  intervals (browser (run [Login login_ok; Start; Stop] (constructor 0 ∅ tt)))
    = [mkTimer 3 PeriodicCheck 300000 0] /\
  getItem "adminToken"
    (browser (run [Login login_ok; Start; Stop] (constructor 0 ∅ tt)))
    = Some (Raw "access-1").
Proof.
  split; [by exists 0, ∅, tt, [Login login_ok; Start; Stop]|].
  repeat split; vm_compute; reflexivity.
Qed.

Lemma deactivation_clears_timeouts_witness :
  (isActive (state (stop (start (constructor 0 ∅ tt)))) = false /\
   timeouts (browser (stop (start (constructor 0 ∅ tt)))) = [] /\
   intervals (browser (stop (start (constructor 0 ∅ tt))))
     = intervals (browser (start (constructor 0 ∅ tt))) /\
   intervals (browser (stop (start (constructor 0 ∅ tt)))) <> [] /\
   localStorage (browser (stop (start (constructor 0 ∅ tt))))
     = localStorage (browser (start (constructor 0 ∅ tt)))) /\
  (isActive (state (handleSessionTimeout (start (constructor 0 ∅ tt)))) = false /\
   timeouts (browser (handleSessionTimeout (start (constructor 0 ∅ tt)))) = [] /\
   intervals (browser (handleSessionTimeout (start (constructor 0 ∅ tt))))
     = intervals (browser (start (constructor 0 ∅ tt))) /\
   getItem "adminToken"
     (browser (handleSessionTimeout (start (constructor 0 ∅ tt)))) = None /\
   getItem "adminUser"
     (browser (handleSessionTimeout (start (constructor 0 ∅ tt)))) = None).
Proof.
  apply (deactivation_clears_timeouts (start (constructor 0 ∅ tt))).
  - exists 0, ∅, tt, [Start]. reflexivity.
  - reflexivity.
Defined.

(** Expiry on a session that is not active is no no-op: it redirects.
    And when [extendSession()] has armed the timers of a manager that was
    never started, the declined warning redirects and the hard timeout,
    which nothing cancelled, redirects again. *)
Lemma expiry_of_stopped_session_redirects :
  isActive (state (stop (start (constructor 0 ∅ tt)))) = false /\
  navigations (browser (stop (start (constructor 0 ∅ tt)))) = [] /\
  navigations
    (browser (handleSessionTimeout (stop (start (constructor 0 ∅ tt)))))
    = ["/login"%string] /\
  navigations
    (browser
       (run [ExtendSession; Advance 27000000; TimeoutFires 1 false 0;
             Advance 1800000; TimeoutFires 2 false 0]
          (constructor 0 ∅ tt)))
    = ["/login"%string; "/login"%string].
Proof. repeat split; vm_compute; reflexivity. Qed.

Lemma expiry_of_active_session_redirects_once_witness :
  (forall w0 : World unit,
     navigations (browser (handleSessionTimeout w0))
       = navigations (browser w0) ++ ["/login"%string] /\
     dialogs (browser (handleSessionTimeout w0))
       = dialogs (browser w0) ++ [Alert] /\
     getItem "adminToken" (browser (handleSessionTimeout w0)) = None /\
     getItem "adminUser" (browser (handleSessionTimeout w0)) = None) /\
  periodicCheck (run [Start; Advance 28800000] (constructor 0 ∅ tt))
    = handleSessionTimeout (run [Start; Advance 28800000] (constructor 0 ∅ tt)) /\
  periodicCheck
    (handleSessionTimeout (run [Start; Advance 28800000] (constructor 0 ∅ tt)))
    = handleSessionTimeout (run [Start; Advance 28800000] (constructor 0 ∅ tt)) /\
  (forall h answer took,
     fire_timeout h answer took
       (handleSessionTimeout (run [Start; Advance 28800000] (constructor 0 ∅ tt)))
     = handleSessionTimeout (run [Start; Advance 28800000] (constructor 0 ∅ tt))).
Proof.
  destruct (expiry_of_active_session_redirects_once
              (run [Start; Advance 28800000] (constructor 0 ∅ tt)))
    as (Hany & Hcheck & Hafter & Hfire).
  - exists 0, ∅, tt, [Start; Advance 28800000]. reflexivity.
  - reflexivity.
  - split; [exact Hany|]. split; [|by split].
    apply Hcheck. vm_compute. discriminate.
Defined.

(** The scenario of the specification: two listeners, the first one
    throws. Both run at every notification, and both have counted twice
    after two of them; an iteration without the [try] would have stopped
    at the first, and the second would not have counted. *)
Example throwing_listener_blocks_nobody :
  delivered
    (notifications 2
       (addListener counter (addListener thrower (constructor 0 ∅ 0%nat))))
    = [1; 2; 1; 2]%nat /\
  ui (notifications 2
        (addListener counter (addListener thrower (constructor 0 ∅ 0%nat))))
    = 202%nat /\
  threw
    (forEach call [thrower; counter] (constructor 0 ∅ 0%nat)) = true /\
  delivered
    (outcome (forEach call [thrower; counter] (constructor 0 ∅ 0%nat)))
    = [1%nat] /\
  ui (outcome (forEach call [thrower; counter] (constructor 0 ∅ 0%nat)))
    = 100%nat.
Proof. repeat split; vm_compute; reflexivity. Qed.

(** Activity at 500, 1000, 1500, 2100 and 2500 ms after the constructor
    ran: the events at 1000 and 2100 update [lastActivity], the others are
    dropped. *)
Example activity_once_a_second :
  fst (activity [500; 1000; 1500; 2100; 2500] (constructor 0 ∅ tt))
    = [1000; 2100] /\
  lastActivity
    (state (snd (activity [500; 1000; 1500; 2100; 2500] (constructor 0 ∅ tt))))
    = 2100.
Proof. split; vm_compute; reflexivity. Qed.

End Runs.

(** ** Token refresh *)

Section Refresh.
Import Browser ApiClient AuthService.

Lemma call_with_refresh_token e :
  truthy_item (getItem refreshTokenKey e) = true ->
  refreshAccessToken_call e
  = (Awaiting (nextRequest e), snd (post "/auth/refresh" e)).
Proof.
  intros Ht. unfold refreshAccessToken_call. by rewrite Ht.
Qed.

Lemma step_call r :
  truthy_item (getItem refreshTokenKey (env r)) = true ->
  step CallRefresh r
  = mkRun (snd (post "/auth/refresh" (env r))) (immediate r) (results r).
Proof.
  intros Ht. cbn [step]. by rewrite call_with_refresh_token.
Qed.

Lemma post_refresh_in_flight e :
  refreshes_in_flight (snd (post "/auth/refresh" e))
  = refreshes_in_flight e ++ [mkRequest (nextRequest e) "/auth/refresh"].
Proof.
  unfold refreshes_in_flight. cbn. rewrite filter_app. f_equal.
Qed.

Lemma calls_in_flight (n : nat) : forall r,
  truthy_item (getItem refreshTokenKey (env r)) = true ->
  length (refreshes_in_flight (env (run (replicate n CallRefresh) r)))
    = (length (refreshes_in_flight (env r)) + n)%nat /\
  immediate (run (replicate n CallRefresh) r) = immediate r /\
  results (run (replicate n CallRefresh) r) = results r.
Proof.
  induction n as [|n IH]; intros r Ht.
  - cbn. split; [lia|done].
  - cbn [replicate run foldl]. rewrite step_call by done.
    match goal with |- context [foldl ?f ?x (replicate n CallRefresh)] =>
      destruct (IH x) as (Hl & Hi & Hr) end; [exact Ht|].
    unfold run in *. rewrite Hl, Hi, Hr. cbn [env immediate results].
    rewrite post_refresh_in_flight, length_app. cbn. split; [lia|done].
Qed.

(** C1, as the code has it. [refreshAccessToken] keeps no handle of a
    refresh in flight: every call that finds a refresh token in the store
    posts to [/auth/refresh] itself, so [n] calls made while none has
    completed add [n] backend refresh requests to those in flight, none of
    the calls has returned yet, and each returns, when the reply to its own
    request arrives, what that reply makes of it. *)
Theorem refresh_calls_are_not_shared (n : nat) (r : Run) :
  truthy_item (getItem refreshTokenKey (env r)) = true ->
  length (refreshes_in_flight (env (run (replicate n CallRefresh) r)))
    = (length (refreshes_in_flight (env r)) + n)%nat /\
  immediate (run (replicate n CallRefresh) r) = immediate r /\
  results (run (replicate n CallRefresh) r) = results r /\
  (forall q res,
     q ∈ rid <$> refreshes_in_flight (env (run (replicate n CallRefresh) r)) ->
     results (step (Reply q res) (run (replicate n CallRefresh) r))
     = results r ++
       [(q, fst (refreshAccessToken_settle q res
                   (env (run (replicate n CallRefresh) r))))]).
Proof.
  intros Ht. destruct (calls_in_flight n r Ht) as (Hl & Hi & Hr).
  split; [done|]. split; [done|]. split; [done|].
  intros q res Hq. cbn [step]. rewrite decide_True by done.
  destruct (refreshAccessToken_settle _ _ _) as [b e']. cbn. by rewrite Hr.
Qed.

End Refresh.

Section RefreshRuns.
Import Browser ApiClient AuthService Sample.

(** Two calls before any reply: two refresh requests are in flight, and
    then one call returns true on its reply and the other false on its
    own. *)
Lemma two_refresh_calls_two_requests :
  refreshes_in_flight (env (run [CallRefresh; CallRefresh] (start signed_in)))
    = [mkRequest 1 "/auth/refresh"; mkRequest 2 "/auth/refresh"] /\
  results (run [CallRefresh; CallRefresh;
                Reply 1 refresh_ok; Reply 2 unauthorized] (start signed_in))
    = [(1%nat, true); (2%nat, false)].
Proof. split; vm_compute; reflexivity. Qed.

Lemma refresh_calls_are_not_shared_witness :
  length (refreshes_in_flight
            (env (run (replicate 3 CallRefresh) (start signed_in))))
    = (length (refreshes_in_flight (env (start signed_in))) + 3)%nat /\
  immediate (run (replicate 3 CallRefresh) (start signed_in))
    = immediate (start signed_in) /\
  results (run (replicate 3 CallRefresh) (start signed_in))
    = results (start signed_in) /\
  (forall q res,
     q ∈ rid <$> refreshes_in_flight
                   (env (run (replicate 3 CallRefresh) (start signed_in))) ->
     results (step (Reply q res)
                (run (replicate 3 CallRefresh) (start signed_in)))
     = results (start signed_in) ++
       [(q, fst (refreshAccessToken_settle q res
                   (env (run (replicate 3 CallRefresh) (start signed_in)))))]).
Proof.
  apply (refresh_calls_are_not_shared 3 (start signed_in)).
  vm_compute. reflexivity.
Defined.

(** The client turns any reply whose status is not 2xx into a
    [SuperAdminApiError], whatever the body is; the error has a [status]
    member at most, and no [response]. *)
Lemma request_outcome_not_ok status body :
  ok status = false ->
  exists message code st,
    request_outcome (Response status body)
    = Rejected (SuperAdminApiError message code st).
Proof.
  intros Hok. cbn [request_outcome]. unfold handleResponse.
  destruct body as [d| | |t|]; cbn [read_body]; rewrite ?Hok; cbn [negb];
    eauto.
Qed.

Lemma resume_after_client_error message code st e :
  refreshAccessToken_resume (Rejected (SuperAdminApiError message code st)) e
  = (false, e).
Proof. reflexivity. Qed.

(** The guard in the [catch] of [refreshAccessToken] reads
    [error.response?.status]. An error that carries such a member with 401
    or 403 has the store cleared; the errors of this client carry [status]
    and no [response], and leave the store as it was. *)
Lemma resume_after_response_401 name message code st e :
  refreshAccessToken_resume
    (Rejected (mkJsError name message code st (Some (mkErrorResponse 401)))) e
  = (false, logout e).
Proof. reflexivity. Qed.

Lemma settle_401_keeps_store r body e :
  localStorage (snd (refreshAccessToken_settle r (Response 401 body) e))
  = localStorage e.
Proof.
  unfold refreshAccessToken_settle.
  destruct (request_outcome_not_ok 401 body) as (m & c & st & ->); [done|].
  by rewrite resume_after_client_error.
Qed.

(** C2, as the code has it. A refresh that fails returns false: on a
    reply with status 401, on a network failure, and on a reply that
    carries an access token for a user who is no super admin. In the last
    case the store is cleared entirely: [adminToken], [adminRefreshToken]
    and [adminUser] are removed. On a network failure the store is left as
    it was. *)
Theorem refresh_failure_returns_false
  (r : nat) (e : Env) (body : Body) (d : Data) (user : AuthUser) :
  d_user d = Some user ->
  truthy_string (d_accessToken d) = true ->
  is_superadmin user = false ->
  fst (refreshAccessToken_settle r (Response 401 body) e) = false /\
  fst (refreshAccessToken_settle r NetworkError e) = false /\
  fst (refreshAccessToken_settle r (Response 200 (JsonBody d)) e) = false /\
  (getItem tokenKey
     (snd (refreshAccessToken_settle r (Response 200 (JsonBody d)) e)) = None /\
   getItem refreshTokenKey
     (snd (refreshAccessToken_settle r (Response 200 (JsonBody d)) e)) = None /\
   getItem userKey
     (snd (refreshAccessToken_settle r (Response 200 (JsonBody d)) e)) = None) /\
  localStorage (snd (refreshAccessToken_settle r NetworkError e))
    = localStorage e.
Proof.
  intros Hu Ht Hr. unfold refreshAccessToken_settle.
  split; [|split; [done|split; [|split; [|done]]]].
  - destruct (request_outcome_not_ok 401 body) as (m & c & st & ->); [done|].
    by rewrite resume_after_client_error.
  - cbn. by rewrite Hu, Ht, Hr.
  - cbn [request_outcome handleResponse read_body ok]. cbn.
    rewrite Hu, Ht, Hr. cbn. unfold getItem. cbn.
    unfold tokenKey, refreshTokenKey, userKey.
    repeat split.
    + rewrite !lookup_delete_ne by done. apply lookup_delete_eq.
    + rewrite lookup_delete_ne by done. apply lookup_delete_eq.
    + apply lookup_delete_eq.
Qed.

(** The network fails while a refresh is awaited: the call returns
    false, and all three entries are still in the store. *)
Lemma refresh_network_failure_keeps_store :
  fst (refreshAccessToken_settle 1 NetworkError
         (snd (refreshAccessToken_call signed_in))) = false /\
  getItem tokenKey
    (snd (refreshAccessToken_settle 1 NetworkError
            (snd (refreshAccessToken_call signed_in)))) = Some (Raw "access-1") /\
  getItem refreshTokenKey
    (snd (refreshAccessToken_settle 1 NetworkError
            (snd (refreshAccessToken_call signed_in)))) = Some (Raw "refresh-1") /\
  getItem userKey
    (snd (refreshAccessToken_settle 1 NetworkError
            (snd (refreshAccessToken_call signed_in)))) = Some (Json root).
Proof. repeat split; vm_compute; reflexivity. Qed.

Lemma refresh_failure_returns_false_witness :
  fst (refreshAccessToken_settle 1 unauthorized
         (snd (refreshAccessToken_call signed_in))) = false /\
  fst (refreshAccessToken_settle 1 NetworkError
         (snd (refreshAccessToken_call signed_in))) = false /\
  fst (refreshAccessToken_settle 1 refresh_demoted
         (snd (refreshAccessToken_call signed_in))) = false /\
  (getItem tokenKey
     (snd (refreshAccessToken_settle 1 refresh_demoted
             (snd (refreshAccessToken_call signed_in)))) = None /\
   getItem refreshTokenKey
     (snd (refreshAccessToken_settle 1 refresh_demoted
             (snd (refreshAccessToken_call signed_in)))) = None /\
   getItem userKey
     (snd (refreshAccessToken_settle 1 refresh_demoted
             (snd (refreshAccessToken_call signed_in)))) = None) /\
  localStorage (snd (refreshAccessToken_settle 1 NetworkError
                       (snd (refreshAccessToken_call signed_in))))
    = localStorage (snd (refreshAccessToken_call signed_in)).
Proof.
  apply (refresh_failure_returns_false 1
           (snd (refreshAccessToken_call signed_in))
           (JsonBody (mkData NoError (Some "Invalid refresh token") None None None None))
           (mkData NoError None None (Some "access-3") None (Some editor))
           editor); reflexivity.
Defined.

End RefreshRuns.

(** ** The session manager: the rest of its life cycle *)

Section Lifecycle.
Import Browser AdminSessionManager.
Context {UI : Type}.
Implicit Types w : World UI.

(** *** Attaching and detaching the activity listeners *)

Lemma on_browser_set_listeners_id w :
  on_browser (Browser.set_listeners (nextFunction (browser w))
                (documentListeners (browser w))) w = w.
Proof. by destruct w as [c s ls [] u d]. Qed.

Lemma attach_loop_fresh (evs : list string) : forall w,
  fresh_functions w ->
  foldl (fun w event =>
           let '(f, e) := bind (browser w) in
           set_browser (addEventListener event f e) w) w evs
  = on_browser
      (Browser.set_listeners (nextFunction (browser w) + length evs)
         (documentListeners (browser w)
          ++ bound_listeners evs (nextFunction (browser w)))) w.
Proof.
  induction evs as [|ev evs IH]; intros w Hf; cbn [foldl].
  - unfold bound_listeners. cbn. rewrite Nat.add_0_r, app_nil_r.
    symmetry. apply on_browser_set_listeners_id.
  - set (f := nextFunction (browser w)).
    set (l := documentListeners (browser w)).
    assert ((let '(f0, e) := bind (browser w) in
             set_browser (addEventListener ev f0 e) w)
            = on_browser (Browser.set_listeners (S f) (l ++ [(ev, f)])) w) as ->.
    { unfold bind, addEventListener. cbn. fold f l.
      rewrite decide_False; [by destruct w as [c s ls [] u d]|].
      intros Hin. apply Hf in Hin. cbn in Hin. lia. }
    rewrite IH.
    + rewrite set_listeners_twice. cbn. f_equal. unfold bound_listeners. cbn.
      f_equal; [lia|]. by rewrite <- app_assoc.
    + intros p. cbn. rewrite elem_of_app, list_elem_of_singleton.
      intros [Hin| ->]; [apply Hf in Hin; fold f in Hin; lia | cbn; lia].
Qed.

Lemma detach_loop_fresh (evs : list string) : forall w,
  fresh_functions w ->
  foldl (fun w event =>
           let '(f, e) := bind (browser w) in
           set_browser (removeEventListener event f e) w) w evs
  = on_browser
      (Browser.set_listeners (nextFunction (browser w) + length evs)
         (documentListeners (browser w))) w.
Proof.
  induction evs as [|ev evs IH]; intros w Hf; cbn [foldl].
  - cbn. rewrite Nat.add_0_r. symmetry. apply on_browser_set_listeners_id.
  - set (f := nextFunction (browser w)).
    set (l := documentListeners (browser w)).
    assert ((let '(f0, e) := bind (browser w) in
             set_browser (removeEventListener ev f0 e) w)
            = on_browser (Browser.set_listeners (S f) l) w) as ->.
    { unfold bind, removeEventListener. cbn. fold f l.
      rewrite filter_all; [by destruct w as [c s ls [] u d]|].
      intros p Hin ->. apply Hf in Hin. cbn in Hin. fold f in Hin. lia. }
    rewrite IH.
    + rewrite set_listeners_twice. cbn. do 2 f_equal. lia.
    + intros p. cbn. intros Hin. apply Hf in Hin. fold f in Hin. lia.
Qed.

(** [stop] and [start] in one equation each, for a document whose
    listeners were all made by earlier [bind]s. *)
Lemma stop_active_eq w :
  fresh_functions w ->
  isActive (state w) = true ->
  stop w =
  mkWorld (config w)
    (mkState (lastActivity (state w)) false (warningShown (state w)) None None)
    (listeners w)
    (set_timers (nextHandle (browser w))
       (filter (fun t => ~ held (state w) t) (timeouts (browser w)))
       (Browser.set_listeners
          (nextFunction (browser w) + length (activityEvents (config w)))
          (documentListeners (browser w)) (browser w)))
    (ui w) (delivered w).
Proof.
  intros Hf Ha. unfold stop. rewrite Ha. cbn [negb].
  rewrite detach_loop_fresh by exact Hf.
  rewrite clearTimeouts_eq. reflexivity.
Qed.

Lemma start_inactive_eq w :
  fresh_functions w ->
  isActive (state w) = false ->
  let h := nextHandle (browser w) in
  let now := clock (browser w) in
  start w =
  mkWorld (config w)
    (mkState now true (warningShown (state w)) (Some (S h)) (Some h))
    (listeners w)
    (set_intervals (S (S (S h)))
       (intervals (browser w)
        ++ [mkTimer (S (S h)) PeriodicCheck (checkIntervalMs (config w)) now])
       (set_timers (S (S h))
          (filter (fun t => ~ held (state w) t) (timeouts (browser w))
           ++ armed (config w) h now)
          (Browser.set_listeners
             (nextFunction (browser w) + length (activityEvents (config w)))
             (documentListeners (browser w)
              ++ bound_listeners (activityEvents (config w))
                   (nextFunction (browser w)))
             (browser w))))
    (ui w) (delivered w).
Proof.
  intros Hf Ha. unfold start. rewrite Ha.
  rewrite attach_loop_fresh by exact Hf.
  rewrite scheduleTimeouts_eq. reflexivity.
Qed.

(** *** Two more invariants of the event loop *)

Lemma paired_sublist w w' :
  timeouts (browser w') `sublist_of` timeouts (browser w) ->
  paired w -> paired w'.
Proof.
  intros Hsub (tw & tt & Hw & Ht & Hs). exists tw, tt.
  split; [done|]. split; [done|]. by etrans.
Qed.

Lemma paired_armed c h now w :
  timeouts (browser w) = armed c h now -> paired w.
Proof.
  intros Ht. unfold paired. rewrite Ht. unfold armed.
  eexists _, _. split; [|split; [|reflexivity]]; done.
Qed.

Lemma lifecycle_frame w w' :
  nextFunction (browser w') = nextFunction (browser w) ->
  documentListeners (browser w') = documentListeners (browser w) ->
  timeouts (browser w') = timeouts (browser w) ->
  lifecycle_inv w -> lifecycle_inv w'.
Proof.
  intros Hn Hl Ht [Hf Hp]. split.
  - intros q. rewrite Hn, Hl. apply Hf.
  - eapply paired_sublist, Hp. by rewrite Ht.
Qed.

Lemma lifecycle_scheduleTimeouts w :
  tracked w -> lifecycle_inv w -> lifecycle_inv (scheduleTimeouts w).
Proof.
  intros Ht [Hf Hp]. split.
  - intros q. rewrite scheduleTimeouts_eq. apply Hf.
  - eapply paired_armed. apply (scheduleTimeouts_timeouts w Ht).
Qed.

Lemma lifecycle_stop w : lifecycle_inv w -> lifecycle_inv (stop w).
Proof.
  intros [Hf Hp]. destruct (isActive (state w)) eqn:Ha.
  - rewrite stop_active_eq by done. split.
    + intros q Hq. cbn in *. apply Hf in Hq. lia.
    + eapply paired_sublist, Hp. cbn. apply sublist_filter.
  - by rewrite stop_inactive.
Qed.

Lemma lifecycle_handleSessionTimeout w :
  lifecycle_inv w -> lifecycle_inv (handleSessionTimeout w).
Proof.
  intros Hi. eapply lifecycle_frame, lifecycle_stop, Hi; reflexivity.
Qed.

Lemma lifecycle_extendSession w :
  tracked w -> lifecycle_inv w -> lifecycle_inv (extendSession w).
Proof.
  intros Ht Hi. apply lifecycle_scheduleTimeouts; [exact Ht|].
  eapply lifecycle_frame, Hi; reflexivity.
Qed.

Lemma lifecycle_showTimeoutWarning answer took w :
  tracked w -> lifecycle_inv w -> lifecycle_inv (showTimeoutWarning answer took w).
Proof.
  intros Ht Hi. unfold showTimeoutWarning.
  destruct (warningShown (state w)); [done|].
  destruct answer.
  - apply lifecycle_extendSession; [exact Ht|].
    eapply lifecycle_frame, Hi; reflexivity.
  - apply lifecycle_handleSessionTimeout.
    eapply lifecycle_frame, Hi; reflexivity.
Qed.

Lemma lifecycle_periodicCheck w :
  lifecycle_inv w -> lifecycle_inv (periodicCheck w).
Proof.
  intros Hi. unfold periodicCheck, validateSessionWithBackend.
  destruct (isActive (state w)); [|done]. cbn [negb].
  destruct (_ <=? _); [by apply lifecycle_handleSessionTimeout|].
  destruct (_ <? _); [|done].
  destruct (negb _); [done|]. eapply lifecycle_frame, Hi; reflexivity.
Qed.

Lemma lifecycle_run_callback cb answer took w :
  tracked w -> lifecycle_inv w -> lifecycle_inv (run_callback cb answer took w).
Proof.
  destruct cb; cbn [run_callback];
    auto using lifecycle_showTimeoutWarning, lifecycle_handleSessionTimeout,
      lifecycle_periodicCheck.
Qed.

Lemma lifecycle_start w :
  tracked w -> lifecycle_inv w -> lifecycle_inv (start w).
Proof.
  intros Ht [Hf Hp]. destruct (isActive (state w)) eqn:Ha.
  - unfold start. by rewrite Ha.
  - rewrite start_inactive_eq by done. split.
    + intros q. cbn. rewrite elem_of_app. intros [Hq|Hq].
      * apply Hf in Hq. lia.
      * unfold bound_listeners in Hq.
        destruct q as [ty f]. apply elem_of_zip_r in Hq.
        apply elem_of_seq in Hq. cbn. lia.
    + eapply paired_armed. cbn.
      rewrite filter_none; [reflexivity|].
      intros t Hin Hn. by apply Hn, Ht.
Qed.

Lemma lifecycle_updateConfig c w :
  tracked w -> lifecycle_inv w -> lifecycle_inv (updateConfig c w).
Proof.
  intros Ht Hi. unfold updateConfig. cbn [state set_config].
  destruct (isActive (state w)).
  - apply lifecycle_scheduleTimeouts; [exact Ht|].
    eapply lifecycle_frame, Hi; reflexivity.
  - eapply lifecycle_frame, Hi; reflexivity.
Qed.

Lemma lifecycle_handleActivity w :
  tracked w -> lifecycle_inv w -> lifecycle_inv (outcome (handleActivity w)).
Proof.
  intros Ht Hi.
  destruct (Z.lt_ge_cases (clock (browser w) - lastActivity (state w)) 1000) as [Hlt|Hge].
  - by rewrite handleActivity_ignored.
  - destruct (handleActivity_accepted w Hge) as (w' & -> & Hs).
    destruct Hs as (_ & _ & _ & Hb). cbn [outcome].
    eapply (lifecycle_frame (scheduleTimeouts _)); try (by rewrite Hb).
    apply lifecycle_scheduleTimeouts; [exact Ht|].
    eapply lifecycle_frame, Hi; reflexivity.
Qed.

Lemma lifecycle_dispatch ty w :
  inv w -> lifecycle_inv w -> inv (dispatch ty w) /\ lifecycle_inv (dispatch ty w).
Proof.
  unfold dispatch. generalize (documentListeners (browser w)) as ls.
  intros ls. revert w. induction ls as [|p ls IH]; intros w Hi Hl; [done|].
  cbn [foldl]. destruct (String.eqb _ _); [|by apply IH].
  apply IH; [by apply inv_handleActivity|].
  apply lifecycle_handleActivity; [apply Hi|done].
Qed.

Lemma lifecycle_on_browser (f : Env -> Env) w :
  nextFunction (f (browser w)) = nextFunction (browser w) ->
  documentListeners (f (browser w)) = documentListeners (browser w) ->
  timeouts (f (browser w)) = timeouts (browser w) ->
  lifecycle_inv w -> lifecycle_inv (on_browser f w).
Proof. intros. by eapply lifecycle_frame. Qed.

Lemma lifecycle_clearTimeout h w :
  lifecycle_inv w -> lifecycle_inv (on_browser (clearTimeout h) w).
Proof.
  intros [Hf Hp]. split; [exact Hf|].
  eapply paired_sublist, Hp. cbn. apply sublist_filter.
Qed.

Lemma lifecycle_fire_timeout h answer took w :
  inv w -> lifecycle_inv w -> lifecycle_inv (fire_timeout h answer took w).
Proof.
  intros Hi Hl. unfold fire_timeout.
  destruct (find_timer _ _); [|done]. destruct (due _ _); [|done].
  apply lifecycle_run_callback.
  - by apply inv_clearTimeout.
  - by apply lifecycle_clearTimeout.
Qed.

Lemma lifecycle_fire_interval h w :
  inv w -> lifecycle_inv w -> lifecycle_inv (fire_interval h w).
Proof.
  intros [Ht Hc] Hl. unfold fire_interval.
  destruct (find_timer _ _); [|done]. destruct (due _ _); [|done].
  apply lifecycle_run_callback; [exact Ht|].
  eapply lifecycle_frame, Hl; reflexivity.
Qed.

(** AuthService leaves the document alone. *)
Lemma login_resume_document o e :
  nextFunction (snd (AuthService.login_resume o e)) = nextFunction e /\
  documentListeners (snd (AuthService.login_resume o e)) = documentListeners e.
Proof.
  unfold AuthService.login_resume.
  destruct o as [d|err]; [|done]. destruct (ApiClient.d_user d); [|done].
  destruct (ApiClient.truthy_string _); [|done]. by destruct (negb _).
Qed.

Lemma refresh_call_document e :
  nextFunction (snd (AuthService.refreshAccessToken_call e)) = nextFunction e /\
  documentListeners (snd (AuthService.refreshAccessToken_call e))
    = documentListeners e.
Proof.
  unfold AuthService.refreshAccessToken_call. by destruct (negb _).
Qed.

Lemma refresh_resume_document o e :
  nextFunction (snd (AuthService.refreshAccessToken_resume o e)) = nextFunction e /\
  documentListeners (snd (AuthService.refreshAccessToken_resume o e))
    = documentListeners e.
Proof.
  unfold AuthService.refreshAccessToken_resume.
  destruct o as [d|err].
  - destruct (ApiClient.d_user d); [|done].
    destruct (ApiClient.truthy_string _); [|done]. by destruct (negb _).
  - by destruct (_ || _).
Qed.

Lemma lifecycle_step ev w :
  inv w -> lifecycle_inv w -> lifecycle_inv (step ev w).
Proof.
  intros Hi Hl. pose proof Hi as [Ht Hc]. destruct ev; cbn [step].
  - by apply lifecycle_on_browser.
  - by apply lifecycle_start.
  - by apply lifecycle_stop.
  - by apply lifecycle_extendSession.
  - by apply lifecycle_updateConfig.
  - unfold addListener. by destruct (decide _).
  - done.
  - by apply lifecycle_dispatch.
  - by apply lifecycle_fire_timeout.
  - by apply lifecycle_fire_interval.
  - apply lifecycle_on_browser; [..|done]; cbn.
    + apply (login_resume_document _
               (settle _ (snd (ApiClient.post "/login" (browser w))))).
    + apply (login_resume_document _
               (settle _ (snd (ApiClient.post "/login" (browser w))))).
    + apply (login_resume_timers _
               (settle _ (snd (ApiClient.post "/login" (browser w))))).
  - by apply lifecycle_on_browser.
  - apply lifecycle_on_browser; [..|done].
    + apply refresh_call_document.
    + apply refresh_call_document.
    + apply refresh_call_timers.
  - apply lifecycle_on_browser; [..|done]; destruct (decide _); try done.
    + apply (refresh_resume_document _ (settle _ (browser w))).
    + apply (refresh_resume_document _ (settle _ (browser w))).
    + apply (refresh_resume_timers _ (settle _ (browser w))).
Qed.

Lemma lifecycle_run evs : forall w,
  inv w -> lifecycle_inv w -> lifecycle_inv (run evs w).
Proof.
  induction evs as [|ev evs IH]; intros w Hi Hl; [done|].
  cbn [run foldl]. apply IH; [by apply inv_step|by apply lifecycle_step].
Qed.

Lemma lifecycle_reachable w : reachable w -> lifecycle_inv w.
Proof.
  intros (now & ls & u & evs & ->).
  apply lifecycle_run; [apply inv_constructor|]. split.
  - intros p Hp. by apply elem_of_nil in Hp.
  - exists (mkTimer 0 ShowTimeoutWarning 0 0), (mkTimer 0 HandleSessionTimeout 0 0).
    split; [done|]. split; [done|]. apply sublist_nil_l.
Qed.

(** *** Starting *)

Lemma start_isActive w : isActive (state (start w)) = true.
Proof.
  unfold start. destruct (isActive (state w)) eqn:Ha; [done|].
  match goal with |- context [foldl ?f ?x ?evs] =>
    destruct (attach_loop evs x) as (n & l & ->) end.
  unfold startPeriodicCheck. rewrite scheduleTimeouts_eq. reflexivity.
Qed.

(** X1. [start()] on a manager that is active changes nothing, so two
    calls in a row are one. On an inactive manager it sets [isActive],
    takes the current time as [lastActivity], registers one capture
    listener per activity event, arms the warning and the hard timeout
    from now, and adds one periodic check; it leaves [warningShown] and
    the storage as they were. *)
Theorem start_arms_the_session w :
  reachable w ->
  start (start w) = start w /\
  (isActive (state w) = true -> start w = w) /\
  (isActive (state w) = false ->
   isActive (state (start w)) = true /\
   lastActivity (state (start w)) = clock (browser w) /\
   warningShown (state (start w)) = warningShown (state w) /\
   timeouts (browser (start w))
     = armed (config w) (nextHandle (browser w)) (clock (browser w)) /\
   intervals (browser (start w))
     = intervals (browser w)
       ++ [mkTimer (S (S (nextHandle (browser w)))) PeriodicCheck
             (checkIntervalMs (config w)) (clock (browser w))] /\
   documentListeners (browser (start w))
     = documentListeners (browser w)
       ++ bound_listeners (activityEvents (config w)) (nextFunction (browser w)) /\
   localStorage (browser (start w)) = localStorage (browser w)).
Proof.
  intros Hr. pose proof (inv_reachable w Hr) as [Ht _].
  pose proof (lifecycle_reachable w Hr) as [Hf _].
  split; [|split].
  - unfold start at 1. by rewrite start_isActive.
  - intros Ha. unfold start. by rewrite Ha.
  - intros Ha. rewrite start_inactive_eq by done. cbn.
    rewrite filter_none; [done|].
    intros t Hin Hn. by apply Hn, Ht.
Qed.

(** *** DOM events *)

Lemma handleActivity_twice w :
  outcome (handleActivity (outcome (handleActivity w)))
  = outcome (handleActivity w).
Proof.
  destruct (Z.lt_ge_cases (clock (browser w) - lastActivity (state w)) 1000) as [Hlt|Hge].
  - rewrite (handleActivity_ignored w) by done. cbn [outcome].
    by rewrite (handleActivity_ignored w).
  - destruct (handleActivity_accepted_state w Hge) as (Hs & Hb & _).
    rewrite (handleActivity_ignored (outcome (handleActivity w))); [done|].
    rewrite Hs, Hb. cbn. lia.
Qed.

Lemma dispatch_fold ty (ls : list (string * nat)) : forall w,
  foldl (fun w p => if String.eqb (fst p) ty
                    then outcome (handleActivity w) else w) w ls
  = if decide (Exists (fun p => fst p = ty) ls)
    then outcome (handleActivity w) else w.
Proof.
  induction ls as [|p ls IH]; intros w; cbn [foldl].
  - rewrite decide_False; [done|]. by intros ?%Exists_nil.
  - rewrite IH. destruct (String.eqb_spec (fst p) ty) as [Heq|Hne].
    + rewrite (decide_True (P := Exists _ (p :: ls))) by (by left).
      destruct (decide _); [apply handleActivity_twice|done].
    + destruct (decide (Exists _ ls)) as [Hex|Hnex].
      * rewrite decide_True; [done|]. by right.
      * rewrite decide_False; [done|].
        intros [?|?]%Exists_cons; done.
Qed.

Lemma dispatch_is_one_handleActivity_aux (ty : string) w :
  ((forall f, (ty, f) ∉ documentListeners (browser w)) -> dispatch ty w = w) /\
  ((exists f, (ty, f) ∈ documentListeners (browser w)) ->
   dispatch ty w = outcome (handleActivity w)).
Proof.
  unfold dispatch. rewrite dispatch_fold. split.
  - intros Hno. rewrite decide_False; [done|].
    intros ([ty' f] & Hin & Hty)%Exists_exists. cbn in Hty. subst ty'.
    by apply (Hno f).
  - intros [f Hin]. rewrite decide_True; [done|].
    apply Exists_exists. by exists (ty, f).
Qed.

(** X2. A DOM event of a type no listener is registered for changes
    nothing. With listeners registered, however many [start()] calls have
    accumulated, the event has the effect of one [handleActivity]: the
    calls after the first are throttled. *)
Theorem dispatch_is_one_handleActivity (ty : string) w :
  ((forall f, (ty, f) ∉ documentListeners (browser w)) -> dispatch ty w = w) /\
  ((exists f, (ty, f) ∈ documentListeners (browser w)) ->
   dispatch ty w = outcome (handleActivity w)).
Proof. apply dispatch_is_one_handleActivity_aux. Qed.

(** *** Stopping does not detach *)

(** X3. [stop()] hands [removeEventListener] functions it has just made
    with [bind], which no earlier [addEventListener] was given: the
    document's listeners are after [stop()] what they were before. So an
    activity event that arrives after [stop()], a second or more after the
    last activity, still arms the warning and the hard timeout, on a
    manager that stays inactive. *)
Theorem stop_keeps_the_activity_listeners (ty : string) w :
  reachable w ->
  documentListeners (browser (stop w)) = documentListeners (browser w) /\
  (isActive (state w) = true ->
   (exists f, (ty, f) ∈ documentListeners (browser w)) ->
   1000 <= clock (browser w) - lastActivity (state w) ->
   isActive (state (dispatch ty (stop w))) = false /\
   lastActivity (state (dispatch ty (stop w))) = clock (browser w) /\
   timeouts (browser (dispatch ty (stop w)))
     = armed (config w) (nextHandle (browser w)) (clock (browser w))).
Proof.
  intros Hr. pose proof (inv_reachable w Hr) as [Ht _].
  pose proof (lifecycle_reachable w Hr) as [Hf _].
  assert (documentListeners (browser (stop w)) = documentListeners (browser w))
    as Hdl.
  { destruct (isActive (state w)) eqn:Ha.
    - by rewrite stop_active_eq.
    - by rewrite stop_inactive. }
  split; [done|]. intros Ha Hreg Hge.
  destruct (dispatch_is_one_handleActivity_aux ty (stop w)) as [_ Hone].
  rewrite Hone by (by rewrite Hdl).
  pose proof (stop_timeouts w Ht Ha) as Hts.
  rewrite stop_active_eq in * by done.
  match goal with |- context [handleActivity ?x] =>
    destruct (handleActivity_accepted_state x) as (-> & -> & _) end;
    [cbn; lia|].
  cbn in *. by rewrite Hts.
Qed.

(** *** Timers are never doubled *)

Lemma filter_sublist_mono {A} (P : A -> Prop) `{forall x, Decision (P x)}
  (l1 l2 : list A) :
  l1 `sublist_of` l2 -> filter P l1 `sublist_of` filter P l2.
Proof.
  induction 1 as [|x l1 l2 _ IH|x l1 l2 _ IH]; [done| |].
  - destruct (decide (P x)).
    + rewrite !filter_cons_True by done. by constructor.
    + by rewrite !filter_cons_False.
  - destruct (decide (P x)).
    + rewrite (filter_cons_True _ x l2) by done. by constructor.
    + by rewrite (filter_cons_False _ x l2).
Qed.

(** X4. In every state the page can reach, the manager has at most one
    hard timeout and at most one warning pending, never two of a kind and
    nothing else, and it holds the handle of each. *)
Theorem timeouts_are_never_doubled w :
  reachable w ->
  (length (filter (fun t => callback t = HandleSessionTimeout)
             (timeouts (browser w))) <= 1)%nat /\
  (length (filter (fun t => callback t = ShowTimeoutWarning)
             (timeouts (browser w))) <= 1)%nat /\
  (length (timeouts (browser w)) <= 2)%nat /\
  (forall t, t ∈ timeouts (browser w) ->
     callback t <> PeriodicCheck /\ held (state w) t).
Proof.
  intros Hr. pose proof (inv_reachable w Hr) as [Ht _].
  pose proof (lifecycle_reachable w Hr) as [_ (tw & tt & Hw & Htt & Hsub)].
  split; [|split; [|split]].
  - apply (filter_sublist_mono (fun t => callback t = HandleSessionTimeout)),
      sublist_length in Hsub.
    rewrite filter_cons_False in Hsub by congruence.
    rewrite filter_cons_True in Hsub by done. exact Hsub.
  - apply (filter_sublist_mono (fun t => callback t = ShowTimeoutWarning)),
      sublist_length in Hsub.
    rewrite filter_cons_True in Hsub by done.
    rewrite filter_cons_False in Hsub by congruence. exact Hsub.
  - by apply sublist_length in Hsub.
  - intros t Hin. split; [|by apply Ht].
    apply (elem_of_sublist _ _ _ Hin) in Hsub.
    apply elem_of_cons in Hsub as [->|Hsub]; [congruence|].
    apply list_elem_of_singleton in Hsub as ->. congruence.
Qed.

(** *** The budget after activity *)

Lemma extendSession_eq w :
  extendSession w =
  mkWorld (config w)
    (mkState (clock (browser w)) (isActive (state w)) false
       (Some (S (nextHandle (browser w)))) (Some (nextHandle (browser w))))
    (listeners w)
    (set_timers (S (S (nextHandle (browser w))))
       (filter (fun t => ~ held (state w) t) (timeouts (browser w))
        ++ armed (config w) (nextHandle (browser w)) (clock (browser w)))
       (browser w))
    (ui w) (delivered w).
Proof. unfold extendSession. rewrite scheduleTimeouts_eq. reflexivity. Qed.

(** X5. After [extendSession()], and after an accepted activity event,
    [getSessionInfo] reports the whole budget: [timeRemaining] is
    [timeoutMinutes] minutes and [timeRemainingMinutes] is
    [timeoutMinutes]. As time passes after [extendSession()],
    [timeRemaining] is the budget less the time passed, and it is zero
    exactly when the hard timeout armed by the call is due. *)
Theorem activity_restores_the_budget (dt : Z) w :
  0 <= timeoutMinutes (config w) ->
  0 <= dt ->
  timeRemaining (fst (getSessionInfo (extendSession w)))
    = timeoutMinutes (config w) * 60 * 1000 /\
  timeRemainingMinutes (fst (getSessionInfo (extendSession w)))
    = timeoutMinutes (config w) /\
  (1000 <= clock (browser w) - lastActivity (state w) ->
   timeRemaining (fst (getSessionInfo (outcome (handleActivity w))))
     = timeoutMinutes (config w) * 60 * 1000) /\
  timeRemaining (fst (getSessionInfo (step (Advance dt) (extendSession w))))
    = Z.max 0 (timeoutMinutes (config w) * 60 * 1000 - dt) /\
  (timeRemaining (fst (getSessionInfo (step (Advance dt) (extendSession w)))) = 0
   <-> due (clock (browser (step (Advance dt) (extendSession w))))
         (mkTimer (S (nextHandle (browser w))) HandleSessionTimeout
            (timeoutMinutes (config w) * 60 * 1000) (clock (browser w)))
       = true).
Proof.
  intros Hm Hdt. rewrite extendSession_eq. cbn.
  split; [lia|]. split.
  { replace (clock (browser w) - clock (browser w)) with 0 by lia.
    rewrite Z.sub_0_r, Z.max_r by lia.
    replace (timeoutMinutes (config w) * 60 * 1000)
      with (timeoutMinutes (config w) * 60000) by lia.
    by rewrite Z.div_mul. }
  split.
  { intros Hge. destruct (handleActivity_accepted_state w Hge) as (-> & -> & ->).
    cbn. lia. }
  split; [lia|].
  unfold due. cbn. rewrite Z.leb_le. lia.
Qed.

(** *** Changing the configuration *)

(** X6. [updateConfig] replaces the members given and keeps the others,
    and [getSessionInfo] counts under the new timeout at once, still from
    [lastActivity]. On an active manager both timeouts are re-armed under
    the new configuration from the current time, not from [lastActivity];
    on an inactive manager nothing is scheduled. The session state is
    otherwise untouched. *)
Theorem updateConfig_rearms_from_now (newConfig : PartialConfig) w :
  reachable w ->
  config (updateConfig newConfig w) = merged (config w) newConfig /\
  lastActivity (state (updateConfig newConfig w)) = lastActivity (state w) /\
  isActive (state (updateConfig newConfig w)) = isActive (state w) /\
  warningShown (state (updateConfig newConfig w)) = warningShown (state w) /\
  timeRemaining (fst (getSessionInfo (updateConfig newConfig w)))
    = Z.max 0 (timeoutMinutes (merged (config w) newConfig) * 60 * 1000
               - (clock (browser w) - lastActivity (state w))) /\
  (isActive (state w) = true ->
   timeouts (browser (updateConfig newConfig w))
     = armed (merged (config w) newConfig)
         (nextHandle (browser w)) (clock (browser w))) /\
  (isActive (state w) = false ->
   timeouts (browser (updateConfig newConfig w)) = timeouts (browser w) /\
   state (updateConfig newConfig w) = state w).
Proof.
  intros Hr. pose proof (inv_reachable w Hr) as [Ht _].
  unfold updateConfig. fold (merged (config w) newConfig).
  cbn [state set_config].
  destruct (isActive (state w)) eqn:Ha.
  - rewrite scheduleTimeouts_eq. cbn. rewrite Ha.
    repeat (split; [done|]). split; [|done]. intros _.
    rewrite filter_none; [done|]. intros t Hin Hn. by apply Hn, Ht.
  - cbn. rewrite Ha. repeat (split; [done|]). split; done.
Qed.

(** *** The periodic check before the timeout *)

(** X7. While less than the timeout has passed since the last activity,
    the periodic check of an active manager never logs out: session state,
    configuration, timers, storage, dialogs and navigation stay as they
    are. All it may do is start one verification with the backend, and only
    when an access token is stored. On an inactive manager it does
    nothing. *)
Theorem periodicCheck_never_expires_early w :
  (isActive (state w) = false -> periodicCheck w = w) /\
  (isActive (state w) = true ->
   clock (browser w) - lastActivity (state w)
     < timeoutMinutes (config w) * 60 * 1000 ->
   state (periodicCheck w) = state w /\
   config (periodicCheck w) = config w /\
   timeouts (browser (periodicCheck w)) = timeouts (browser w) /\
   intervals (browser (periodicCheck w)) = intervals (browser w) /\
   localStorage (browser (periodicCheck w)) = localStorage (browser w) /\
   dialogs (browser (periodicCheck w)) = dialogs (browser w) /\
   navigations (browser (periodicCheck w)) = navigations (browser w) /\
   (verifications (browser (periodicCheck w)) = verifications (browser w) \/
    (verifications (browser (periodicCheck w)) = S (verifications (browser w)) /\
     truthy_item (getItem "adminToken" (browser w)) = true))).
Proof.
  split; [apply periodicCheck_inactive|]. intros Ha Hlt.
  unfold periodicCheck, validateSessionWithBackend. rewrite Ha. cbn [negb].
  destruct (Z.leb_spec (timeoutMinutes (config w) * 60 * 1000)
              (clock (browser w) - lastActivity (state w))); [lia|].
  destruct (_ <? _); [|by repeat (split; [done|]); left].
  destruct (truthy_item _) eqn:Etok; cbn [negb];
    repeat (split; [done|]); [by right|by left].
Qed.

(** *** The warning dialog *)


(** *** Subscribing *)

Lemma remove_added_listener (cb : Listener UI) (ls : list (Listener UI)) :
  lid cb ∉ lid <$> ls ->
  filter (fun l => lid l ≠ lid cb) (ls ++ [cb]) = ls.
Proof.
  intros Hnot. rewrite filter_app, filter_cons_False, filter_nil, app_nil_r.
  - apply filter_all. intros l Hl Heq. apply Hnot.
    rewrite <- Heq. by apply list_elem_of_fmap_2.
  - intros Hne. by apply Hne.
Qed.

Lemma filter_lid (c : nat) (ls : list (Listener UI)) :
  lid <$> filter (fun l => lid l ≠ c) ls
  = filter (fun i => i ≠ c) (lid <$> ls).
Proof.
  induction ls as [|l ls IH]; [done|]. rewrite fmap_cons.
  destruct (decide (lid l ≠ c)).
  - rewrite !filter_cons_True by done. rewrite fmap_cons. by rewrite IH.
  - by rewrite !filter_cons_False.
Qed.

(** X9. The listeners are a set, by identity of the callback.
    Subscribing a callback twice is subscribing it once; unsubscribing
    what was just subscribed gives back the manager as it was; no callback
    is listed twice if none was before; and after [removeListener] a
    notification reaches the remaining callbacks and not the one
    removed. *)
Theorem listeners_are_a_set (cb : Listener UI) w :
  addListener cb (addListener cb w) = addListener cb w /\
  (lid cb ∉ lid <$> listeners w -> removeListener cb (addListener cb w) = w) /\
  (NoDup (lid <$> listeners w) ->
   NoDup (lid <$> listeners (addListener cb w)) /\
   NoDup (lid <$> listeners (removeListener cb w))) /\
  (lid cb ∉ lid <$> listeners (removeListener cb w)) /\
  delivered (outcome (notifyListeners (removeListener cb w)))
    = delivered w ++ filter (fun i => i ≠ lid cb) (lid <$> listeners w).
Proof.
  split; [|split; [|split; [|split]]].
  - unfold addListener at 1.
    destruct (decide (lid cb ∈ lid <$> listeners (addListener cb w))) as [|Hn];
      [done|].
    exfalso. apply Hn. unfold addListener.
    destruct (decide (lid cb ∈ lid <$> listeners w)); [done|].
    cbn. rewrite fmap_app, elem_of_app. right. by left.
  - intros Hnot. unfold addListener. rewrite decide_False by done.
    unfold removeListener. cbn. rewrite remove_added_listener by done.
    by destruct w.
  - intros Hnd. split.
    + unfold addListener. destruct (decide _) as [|Hn]; [done|].
      cbn. rewrite fmap_app. apply NoDup_app. split; [done|].
      split; [|apply NoDup_singleton].
      intros i Hi ->%list_elem_of_singleton. done.
    + unfold removeListener. cbn.
      eapply sublist_NoDup; [exact Hnd|apply fmap_sublist, sublist_filter].
  - unfold removeListener. cbn.
    intros (l & Hl & Hin)%list_elem_of_fmap.
    apply list_elem_of_filter in Hin as [Hne _]. by apply Hne.
  - destruct (notifyListeners_normal (removeListener cb w))
      as (w' & -> & Hd & _).
    cbn [outcome]. rewrite Hd. unfold removeListener. cbn [listeners set_listeners].
    by rewrite filter_lid.
Qed.

End Lifecycle.

(** ** auth.ts from call to return *)

Section AuthRuns.
Import Browser ApiClient AuthFlow.

Lemma resume_true o e b e' :
  AuthService.refreshAccessToken_resume o e = (b, e') ->
  b = true ->
  exists d u,
    o = Resolved d /\ d_user d = Some u /\
    truthy_string (d_accessToken d) = true /\
    AuthService.is_superadmin u = true /\
    e' = setItem AuthService.userKey (Json u)
           (setItem AuthService.tokenKey (Raw (default "" (d_accessToken d))) e).
Proof.
  unfold AuthService.refreshAccessToken_resume. intros H ->.
  destruct o as [d|err].
  - destruct (d_user d) as [u|] eqn:Eu; [|by inversion H].
    destruct (truthy_string (d_accessToken d)) eqn:Et; [|by inversion H].
    destruct (AuthService.is_superadmin u) eqn:Es; cbn in H; [|by inversion H].
    injection H as <-. by exists d, u.
  - destruct (_ || _); by inversion H.
Qed.

Lemma truthy_string_item o :
  truthy_string o = true -> truthy_item (Some (Raw (default "" o))) = true.
Proof. by destruct o. Qed.

(** A refresh consumes at most one answer, and exactly one when it
    succeeds; a successful one leaves an access token in the store. *)
Lemma refreshAccessToken_script script e b rest e' :
  refreshAccessToken script e = Some (b, rest, e') ->
  (length rest <= length script)%nat /\
  (b = true ->
   S (length rest) = length script /\
   truthy_item (getItem AuthService.tokenKey e') = true).
Proof.
  unfold refreshAccessToken, AuthService.refreshAccessToken_call.
  destruct (negb _).
  - intros [= <- <- <-]. split; [done|]. discriminate.
  - cbn. destruct script as [|a script]; [discriminate|].
    destruct (AuthService.refreshAccessToken_resume _ _) as [b0 e0] eqn:Er.
    intros [= <- <- <-]. split; [cbn; lia|]. intros ->.
    destruct (resume_true _ _ _ _ Er eq_refl) as (d & u & _ & _ & Ht & _ & ->).
    split; [done|]. unfold getItem, setItem, AuthService.tokenKey,
      AuthService.userKey. cbn.
    rewrite lookup_insert_ne by done. rewrite lookup_insert_eq.
    by apply truthy_string_item.
Qed.

Lemma verifyToken_body_ext decode again1 again2 script e :
  (forall script' e', (length script' < length script)%nat ->
                      again1 script' e' = again2 script' e') ->
  verifyToken_body decode again1 script e
  = verifyToken_body decode again2 script e.
Proof.
  intros Hag. unfold verifyToken_body.
  destruct (getItem AuthService.tokenKey e) as [token|]; [|done].
  destruct (negb _); [done|].
  destruct (if isTokenExpired _ _ then _ else _) as [[[b1 s1] e1]|] eqn:E1;
    [|done].
  assert (length s1 <= length script)%nat as Hl1.
  { destruct (isTokenExpired _ _).
    - by apply refreshAccessToken_script in E1 as [? _].
    - by injection E1 as _ <- _. }
  destruct (negb b1); [done|]. cbn.
  destruct s1 as [|a s2]; [done|].
  destruct (request_outcome _) as [d|err]; [done|].
  destruct (AuthService.status_is _ _); [|done].
  destruct (refreshAccessToken s2 _) as [[[b3 s3] e3]|] eqn:E3; [|done].
  apply refreshAccessToken_script in E3 as [Hl3 _].
  destruct b3; [|done]. apply Hag. cbn in Hl1. lia.
Qed.

(** More fuel than the script is long is as good as any. *)
Lemma verifyToken_fuel decode (fuel1 : nat) : forall fuel2 script e,
  (length script < fuel1)%nat -> (length script < fuel2)%nat ->
  verifyToken decode fuel1 script e = verifyToken decode fuel2 script e.
Proof.
  induction fuel1 as [|fuel1 IH]; intros fuel2 script e H1 H2; [lia|].
  destruct fuel2 as [|fuel2]; [lia|]. cbn [verifyToken].
  apply verifyToken_body_ext. intros script' e' Hlt. apply IH; lia.
Qed.

(** Less fuel gives the same result or none. *)
Lemma verifyToken_fuel_le decode (fuel : nat) : forall script e result,
  verifyToken decode fuel script e = Some result ->
  verifyToken_run decode script e = Some result.
Proof.
  unfold verifyToken_run.
  induction fuel as [|fuel IH]; intros script e result; [discriminate|].
  cbn [verifyToken]. unfold verifyToken_body.
  destruct (getItem AuthService.tokenKey e) as [token|]; [|done].
  destruct (negb _); [done|].
  destruct (if isTokenExpired _ _ then _ else _) as [[[b1 s1] e1]|] eqn:E1;
    [|done].
  assert (length s1 <= length script)%nat as Hl1.
  { destruct (isTokenExpired _ _).
    - by apply refreshAccessToken_script in E1 as [? _].
    - by injection E1 as _ <- _. }
  destruct (negb b1); [done|]. cbn.
  destruct s1 as [|a s2]; [done|].
  destruct (request_outcome _) as [d|err]; [done|].
  destruct (AuthService.status_is _ _); [|done].
  destruct (refreshAccessToken s2 _) as [[[b3 s3] e3]|] eqn:E3; [|done].
  pose proof E3 as [Hl3 _]%refreshAccessToken_script.
  destruct b3; [|done]. intros Hres. apply IH in Hres.
  rewrite <- Hres. apply verifyToken_fuel; cbn in Hl1; lia.
Qed.

Lemma logout_signed_out e : signed_out (AuthService.logout e).
Proof.
  unfold signed_out, AuthService.logout, getItem, AuthService.tokenKey,
    AuthService.refreshTokenKey, AuthService.userKey. cbn.
  repeat split.
  - rewrite !lookup_delete_ne by done. apply lookup_delete_eq.
  - rewrite lookup_delete_ne by done. apply lookup_delete_eq.
  - apply lookup_delete_eq.
Qed.

Lemma verifyToken_sound decode (fuel : nat) : forall script e resp rest e',
  verifyToken decode fuel script e = Some (resp, rest, e') ->
  success resp = true ->
  exists u,
    resp = succeeded u /\ AuthService.is_superadmin u = true /\
    getItem AuthService.userKey e' = Some (Json u) /\
    truthy_item (getItem AuthService.tokenKey e') = true.
Proof.
  induction fuel as [|fuel IH]; intros script e resp rest e'; [discriminate|].
  cbn [verifyToken]. unfold verifyToken_body.
  destruct (getItem AuthService.tokenKey e) as [token|] eqn:Etok;
    [|by intros [= <- _ _]].
  destruct (truthy_item (Some token)) eqn:Etr; cbn [negb];
    [|by intros [= <- _ _]].
  destruct (if isTokenExpired _ _ then _ else _) as [[[b1 s1] e1]|] eqn:E1;
    [|done].
  assert (b1 = true -> truthy_item (getItem AuthService.tokenKey e1) = true)
    as Htok1.
  { destruct (isTokenExpired _ _).
    - intros ->. by apply refreshAccessToken_script in E1 as [_ [_ ?]].
    - injection E1 as _ _ <-. by rewrite Etok. }
  destruct b1; cbn [negb]; [|by intros [= <- _ _]]. cbn.
  destruct s1 as [|a s2]; [done|].
  destruct (request_outcome _) as [d|err].
  - destruct (d_user d) as [u|]; [|by intros [= <- _ _]].
    destruct (success_member a); [|by intros [= <- _ _]].
    destruct (AuthService.is_superadmin u) eqn:Es; cbn [negb];
      [|by intros [= <- _ _]].
    intros [= <- <- <-] _. exists u. split; [done|]. split; [done|].
    unfold getItem, setItem. cbn. split; [apply lookup_insert_eq|].
    rewrite lookup_insert_ne by done. by apply Htok1.
  - destruct (AuthService.status_is _ _); [|by intros [= <- _ _]].
    destruct (refreshAccessToken s2 _) as [[[b3 s3] e3]|]; [|done].
    destruct b3; [apply IH|by intros [= <- _ _]].
Qed.

(** X10. However the backend answers, [verifyToken] reports success
    only for a user whose role is [superadmin]; that user is then the one
    stored under [adminUser], and an access token is stored. *)
Theorem verifyToken_succeeds_for_superadmin_only
  (decode : StoreVal -> Decoded) (script : list Answer) (e : Env)
  (resp : AuthResponse) (rest : list Answer) (e' : Env) :
  verifyToken_run decode script e = Some (resp, rest, e') ->
  success resp = true ->
  exists u,
    resp = succeeded u /\ AuthService.is_superadmin u = true /\
    getItem AuthService.userKey e' = Some (Json u) /\
    truthy_item (getItem AuthService.tokenKey e') = true.
Proof. apply verifyToken_sound. Qed.

(** A refresh request the client rejects makes the refresh fail. *)
Lemma refreshAccessToken_rejected a script e err :
  truthy_item (getItem AuthService.refreshTokenKey e) = true ->
  request_outcome (fetched a) = Rejected err ->
  exists e1,
    refreshAccessToken (a :: script) e = Some (false, script, e1).
Proof.
  intros Ht Hr. unfold refreshAccessToken, AuthService.refreshAccessToken_call.
  rewrite Ht. cbn. rewrite Hr. cbn. destruct (_ || _); eauto.
Qed.

Lemma refreshAccessToken_no_refresh_token script e :
  truthy_item (getItem AuthService.refreshTokenKey e) = false ->
  refreshAccessToken script e = Some (false, script, e).
Proof.
  intros Ht. unfold refreshAccessToken, AuthService.refreshAccessToken_call.
  by rewrite Ht.
Qed.

(** X11. With an access token that has expired, [verifyToken] ends in a
    logout whenever the refresh does not succeed, for whatever reason: no
    refresh token is stored, or the request to [/auth/refresh] is rejected
    by the client (a status outside 2xx, a timeout, a network failure).
    It reports "Token expired and refresh failed" and all three entries
    are gone from the store. *)
Theorem verifyToken_expired_and_no_refresh
  (decode : StoreVal -> Decoded) (a : Answer) (script : list Answer)
  (e : Env) (token : StoreVal) (err : JsError) :
  getItem AuthService.tokenKey e = Some token ->
  truthy_item (Some token) = true ->
  isTokenExpired (decode token) (clock e) = true ->
  request_outcome (fetched a) = Rejected err ->
  (truthy_item (getItem AuthService.refreshTokenKey e) = false ->
   verifyToken_run decode script e
   = Some (failed "Token expired and refresh failed", script,
           AuthService.logout e)) /\
  (truthy_item (getItem AuthService.refreshTokenKey e) = true ->
   exists e',
     verifyToken_run decode (a :: script) e
     = Some (failed "Token expired and refresh failed", script, e') /\
     signed_out e') /\
  signed_out (AuthService.logout e).
Proof.
  intros Htok Htr Hexp Hrej. unfold verifyToken_run.
  split; [|split; [|apply logout_signed_out]].
  - intros Hno. cbn [verifyToken]. unfold verifyToken_body.
    rewrite Htok, Htr, Hexp. cbn [negb].
    by rewrite refreshAccessToken_no_refresh_token.
  - intros Hyes. cbn [verifyToken]. unfold verifyToken_body.
    rewrite Htok, Htr, Hexp. cbn [negb].
    destruct (refreshAccessToken_rejected a script e err Hyes Hrej) as (e1 & ->).
    cbn [negb]. eexists. split; [reflexivity|apply logout_signed_out].
Qed.

(** X12. With an access token that has not expired, a validation request
    that fails with anything but status 401 (a network failure, a timeout,
    a 500) makes [verifyToken] report the failure and nothing more: the
    store is what it was, and the validation is the one request made: no
    refresh is tried and no further answer is awaited. *)
Theorem verifyToken_keeps_session_on_transient_error
  (decode : StoreVal -> Decoded) (a : Answer) (script : list Answer)
  (e : Env) (token : StoreVal) (err : JsError) :
  getItem AuthService.tokenKey e = Some token ->
  truthy_item (Some token) = true ->
  isTokenExpired (decode token) (clock e) = false ->
  request_outcome (fetched a) = Rejected err ->
  e_status err <> Some 401 ->
  exists e',
    verifyToken_run decode (a :: script) e
    = Some (failed (message_or err "Token verification failed"), script, e') /\
    localStorage e' = localStorage e /\
    nextRequest e' = S (nextRequest e).
Proof.
  intros Htok Htr Hexp Hrej Hst. unfold verifyToken_run.
  cbn [verifyToken]. unfold verifyToken_body.
  rewrite Htok, Htr, Hexp. cbn. rewrite Hrej.
  assert (AuthService.status_is (e_status err) 401 = false) as ->.
  { destruct (e_status err) as [st|]; [|done]. cbn. apply Z.eqb_neq.
    intros ->. by apply Hst. }
  eexists. split; [reflexivity|]. by split.
Qed.

(** *** Retrying *)

Lemma rounds_S tok n :
  rounds tok (S n)
  = validate_401 :: refresh_answer tok Sample.root :: rounds tok n.
Proof. reflexivity. Qed.

Lemma refresh_granted tok script e :
  tok <> ""%string ->
  truthy_item (getItem AuthService.refreshTokenKey e) = true ->
  refreshAccessToken (refresh_answer tok Sample.root :: script) e
  = Some (true, script, granted tok e).
Proof.
  intros Hne Ht. unfold refreshAccessToken, AuthService.refreshAccessToken_call.
  rewrite Ht. cbn [negb post fetch]. unfold AuthService.refreshAccessToken_resume.
  cbn [refresh_answer fetched request_outcome handleResponse read_body ok
       Z.leb Z.compare Pos.compare Pos.compare_cont andb negb d_user
       d_accessToken truthy_string].
  assert (String.eqb tok "" = false) as -> by by apply String.eqb_neq.
  reflexivity.
Qed.

(** One round: the validation is rejected with 401, the refresh is
    granted, and [verifyToken] calls itself on what is left, 100
    milliseconds later and with the new token in the store. *)
Lemma retry_round decode tok e token :
  tok <> ""%string ->
  getItem AuthService.tokenKey e = Some token ->
  isTokenExpired (decode token) (clock e) = false ->
  ready e ->
  ready (granted tok (after_401 e)) /\
  getItem AuthService.tokenKey (granted tok (after_401 e)) = Some (Raw tok) /\
  clock (granted tok (after_401 e)) = clock e + 100 /\
  nextRequest (granted tok (after_401 e)) = S (S (nextRequest e)) /\
  forall fuel script,
    verifyToken decode (S fuel)
      (validate_401 :: refresh_answer tok Sample.root :: script) e
    = verifyToken decode fuel script (granted tok (after_401 e)).
Proof.
  intros Hne Etok Hdec [Htok Href].
  assert (getItem AuthService.tokenKey (granted tok (after_401 e))
          = Some (Raw tok)) as Hnew.
  { unfold getItem, granted, setItem. cbn.
    rewrite lookup_insert_ne by done. by rewrite lookup_insert_eq. }
  split; [|split; [exact Hnew|split; [|split; [reflexivity|]]]].
  - split.
    + rewrite Hnew. cbn. by rewrite (proj2 (String.eqb_neq _ _) Hne).
    + unfold getItem, granted, setItem. cbn.
      unfold AuthService.refreshTokenKey, AuthService.userKey,
        AuthService.tokenKey.
      rewrite !lookup_insert_ne by done. exact Href.
  - cbn. lia.
  - intros fuel script. cbn [verifyToken]. unfold verifyToken_body.
    rewrite Etok in Htok |- *. rewrite Htok, Hdec. cbn [negb].
    change (request_outcome (fetched validate_401))
      with (Rejected (SuperAdminApiError (Some "jwt expired")
                        (Some "REQUEST_FAILED") (Some 401))).
    cbn [fetch e_status SuperAdminApiError AuthService.status_is].
    change (401 =? 401) with true. cbv iota.
    change (answered (nextRequest e) validate_401 _) with (after_401 e).
    rewrite (refresh_granted tok script (after_401 e) Hne) by exact Href.
    reflexivity.
Qed.

Lemma retry_rounds decode tok (n : nat) : forall e token,
  tok <> ""%string ->
  getItem AuthService.tokenKey e = Some token ->
  ready e ->
  valid_until decode token (clock e + 100 * Z.of_nat n) ->
  valid_until decode (Raw tok) (clock e + 100 * Z.of_nat n) ->
  exists e2 token2,
    ready e2 /\ getItem AuthService.tokenKey e2 = Some token2 /\
    valid_until decode token2 (clock e2) /\
    clock e2 = clock e + 100 * Z.of_nat n /\
    nextRequest e2 = (nextRequest e + 2 * n)%nat /\
    forall fuel script,
      verifyToken decode (n + fuel) (rounds tok n ++ script) e
      = verifyToken decode fuel script e2.
Proof.
  induction n as [|n IH]; intros e token Hne Etok Hr Hv Hvt.
  - exists e, token. split; [done|]. split; [done|].
    split; [intros now Hnow; apply Hv; lia|]. split; [lia|]. split; [lia|done].
  - destruct (retry_round decode tok e token Hne Etok) as
      (Hr1 & Etok1 & Hc1 & Hn1 & Hstep); [apply Hv; lia|exact Hr|].
    destruct (IH _ (Raw tok) Hne Etok1 Hr1) as
      (e2 & token2 & Hr2 & Etok2 & Hv2 & Hc2 & Hn2 & Hrest).
    { intros now Hnow. apply Hvt. lia. }
    { intros now Hnow. apply Hvt. lia. }
    exists e2, token2. split; [done|]. split; [done|]. split; [done|].
    split; [lia|]. split; [lia|].
    intros fuel script. rewrite rounds_S. cbn [app Nat.add].
    by rewrite Hstep, Hrest.
Qed.

Lemma length_rounds tok n : length (rounds tok n) = (2 * n)%nat.
Proof.
  induction n as [|n IH]; [done|]. rewrite rounds_S. cbn [length]. lia.
Qed.

(** X13. [verifyToken] retries without a bound. The stored access token
    and the one the refresh hands out need only be what tokens are: not
    expired, by their own [exp], for as long as the run lasts. As long as
    the backend then rejects the validation with 401 and grants the
    refresh, [verifyToken] calls itself again: after any number [n] of
    such rounds, 100 milliseconds each, it is still waiting for an answer,
    and when the validation is accepted at last it reports success,
    having made [2n + 1] requests. *)
Theorem verifyToken_retries_without_bound
  (decode : StoreVal -> Decoded) (tok : string) (n : nat) (e : Env)
  (token : StoreVal) :
  tok <> ""%string ->
  getItem AuthService.tokenKey e = Some token ->
  ready e ->
  valid_until decode token (clock e + 100 * Z.of_nat n) ->
  valid_until decode (Raw tok) (clock e + 100 * Z.of_nat n) ->
  verifyToken_run decode (rounds tok n) e = None /\
  exists e',
    verifyToken_run decode (rounds tok n ++ [validate_ok Sample.root]) e
    = Some (succeeded Sample.root, [], e') /\
    nextRequest e' = (nextRequest e + 2 * n + 1)%nat /\
    clock e' = clock e + 100 * Z.of_nat n + 40.
Proof.
  intros Hne Etok Hr Hv Hvt.
  destruct (retry_rounds decode tok n e token Hne Etok Hr Hv Hvt)
    as (e2 & token2 & [Htok2 _] & Etok2 & Hv2 & Hc2 & Hn2 & Hrun).
  assert (isTokenExpired (decode token2) (clock e2) = false) as Hdec
    by (apply Hv2; lia).
  rewrite Etok2 in Htok2.
  unfold verifyToken_run. split.
  - specialize (Hrun (S n) []). rewrite app_nil_r in Hrun.
    rewrite length_rounds.
    replace (S (2 * n)) with (n + S n)%nat by lia. rewrite Hrun.
    cbn [verifyToken]. unfold verifyToken_body.
    by rewrite Etok2, Htok2, Hdec.
  - specialize (Hrun (S (S n)) [validate_ok Sample.root]).
    rewrite length_app, length_rounds. cbn [length].
    replace (S (2 * n + 1)) with (n + S (S n))%nat by lia. rewrite Hrun.
    cbn [verifyToken]. unfold verifyToken_body.
    rewrite Etok2, Htok2, Hdec. cbn.
    eexists. split; [reflexivity|]. cbn. split; lia.
Qed.

(** *** The client *)

(** X14. The client resolves a request only on a status from 200 to 299
    with a body it could read and that is not [null], and then with that
    body. Everything else is rejected with a [SuperAdminApiError], which
    has no [response]. Its [status] is 0 for a network failure and for a
    body that is [null], whatever the HTTP status; 408 for a timeout; the
    HTTP status for a body that could not be read; and otherwise what the
    body's [error] member has as [status]: nothing, when that member is a
    string or an object without one, and the HTTP status when the body
    has no [error] member. *)
Theorem request_outcome_resolves_on_2xx_only (res : FetchResult) :
  (forall d,
     request_outcome res = Resolved d <->
     exists status body,
       res = Response status body /\ 200 <= status <= 299 /\
       read_body status body = Value d) /\
  (forall err,
     request_outcome res = Rejected err ->
     e_name err = "SuperAdminApiError"%string /\ e_response err = None /\
     (res = NetworkError -> e_status err = Some 0) /\
     (res = Aborted -> e_status err = Some 408) /\
     (forall status body,
        res = Response status body ->
        e_status err =
          match read_body status body with
          | ParseError => Some status
          | Null => Some 0
          | Value data =>
              match d_error data with
              | ErrorObject eb => eb_status eb
              | ErrorPrimitive => None
              | NoError => Some status
              end
          end)).
Proof.
  split.
  - intros d. split.
    + destruct res as [| |status body]; try discriminate.
      cbn [request_outcome]. unfold handleResponse.
      destruct (read_body status body) as [| |d0] eqn:Eb; try discriminate.
      destruct (ok status) eqn:Eok; cbn [negb]; [|discriminate].
      intros [= ->]. exists status, body. split; [done|]. split; [|done].
      unfold ok in Eok. apply andb_true_iff in Eok as [?%Z.leb_le ?%Z.leb_le].
      lia.
    + intros (status & body & -> & Hst & Hb). cbn [request_outcome].
      unfold handleResponse. rewrite Hb.
      assert (ok status = true) as ->; [|done].
      unfold ok. apply andb_true_iff. split; apply Z.leb_le; lia.
  - intros err. destruct res as [| |status body]; cbn [request_outcome].
    + intros [= <-]. repeat split; done.
    + intros [= <-]. repeat split; done.
    + unfold handleResponse.
      destruct (read_body status body) as [| |d0] eqn:Eb.
      * intros [= <-]. repeat split; try done.
        intros ? ? [= <- <-]. by rewrite Eb.
      * intros [= <-]. repeat split; try done.
        intros ? ? [= <- <-]. by rewrite Eb.
      * destruct (negb (ok status)); [|discriminate].
        intros [= <-]. repeat split; try done.
        intros ? ? [= <- <-]. rewrite Eb. cbn.
        by destruct (d_error d0).
Qed.

(** *** Login *)

(** X15. [login] succeeds exactly when the reply resolves with an access
    token and a user whose role is [superadmin]. It then stores the access
    token, the refresh token and the user, so that [isAuthenticated]
    holds. A login that fails, for whatever reason, reports an error and
    leaves the store exactly as it was. *)
Theorem login_stores_a_superadmin_only (a : Answer) (e : Env) :
  (success (fst (login a e)) = true <->
   exists d u,
     request_outcome (fetched a) = Resolved d /\ d_user d = Some u /\
     truthy_string (d_accessToken d) = true /\
     AuthService.is_superadmin u = true) /\
  (forall d u,
     request_outcome (fetched a) = Resolved d -> d_user d = Some u ->
     truthy_string (d_accessToken d) = true ->
     AuthService.is_superadmin u = true ->
     fst (login a e) = succeeded u /\
     getItem AuthService.tokenKey (snd (login a e))
       = Some (Raw (default "" (d_accessToken d))) /\
     getItem AuthService.refreshTokenKey (snd (login a e))
       = Some (Raw (default "undefined" (d_refreshToken d))) /\
     getItem AuthService.userKey (snd (login a e)) = Some (Json u) /\
     AuthService.isAuthenticated (snd (login a e)) = true) /\
  (success (fst (login a e)) = false ->
   localStorage (snd (login a e)) = localStorage e /\
   user (fst (login a e)) = None /\
   is_Some (error (fst (login a e)))).
Proof.
  unfold login. cbn [post fetch].
  destruct (request_outcome (fetched a)) as [d|err].
  - destruct (d_user d) as [u|] eqn:Eu.
    + destruct (truthy_string (d_accessToken d)) eqn:Et.
      * destruct (AuthService.is_superadmin u) eqn:Es; cbn [negb fst snd].
        -- split; [|split].
           ++ split; [|done]. intros _. by exists d, u.
           ++ intros d' u' [= <-] Hu' _ _. rewrite Eu in Hu'.
              injection Hu' as <-. split; [done|].
              unfold getItem, setItem, AuthService.isAuthenticated, getItem.
              cbn. unfold AuthService.tokenKey, AuthService.refreshTokenKey,
                AuthService.userKey.
              rewrite !lookup_insert_ne by done. rewrite !lookup_insert_eq.
              rewrite lookup_insert_ne by done. rewrite lookup_insert_eq.
              repeat split. by apply truthy_string_item.
           ++ discriminate.
        -- split; [|split].
           ++ split; [discriminate|].
              intros (d' & u' & [= <-] & Hu' & _ & Hs'). congruence.
           ++ intros d' u' [= <-] Hu' _ Hs'. congruence.
           ++ intros _. by repeat split.
      * cbn [fst snd]. split; [|split].
        -- split; [discriminate|].
           intros (d' & u' & [= <-] & _ & Ht' & _). congruence.
        -- intros d' u' [= <-] _ Ht' _. congruence.
        -- intros _. by repeat split.
    + cbn [fst snd]. split; [|split].
      * split; [discriminate|].
        intros (d' & u' & [= <-] & Hu' & _). congruence.
      * intros d' u' [= <-] Hu' _ _. congruence.
      * intros _. by repeat split.
  - split; [|split].
    + split; [|by intros (d' & u' & [=] & _)].
      destruct (is_api_error err); [|discriminate].
      destruct (AuthService.status_is _ 429); [discriminate|].
      by destruct (AuthService.status_is _ 401).
    + intros d' u' [=].
    + intros _. destruct (is_api_error err); [|by repeat split].
      destruct (AuthService.status_is _ 429); [by repeat split|].
      destruct (AuthService.status_is _ 401); by repeat split.
Qed.

(** *** Refresh *)


End AuthRuns.

(** ** The CSRF token: its shape and its life *)

Section CsrfLifetime.
Import Js SuperAdminCSRFProtection.

(** The value of a run of decimal digits read after [a]. *)
Lemma parse_digits_app (rest : jsstring) : forall (ds : jsstring) (a : Z),
  Forall (fun c => is_digit c = true) ds ->
  parse_digits 10 (ds ++ rest) (Some a)
  = parse_digits 10 rest
      (Some (fold_left (fun a c => a * 10 + (c - 48)) ds a)).
Proof.
  induction ds as [|c ds IH]; intros a Hds; [done|].
  apply Forall_cons in Hds as [Hc Hds].
  cbn [app parse_digits fold_left]. unfold digit_value. rewrite Hc.
  unfold is_digit in Hc. apply andb_true_iff in Hc as [?%Z.leb_le ?%Z.leb_le].
  assert ((c - 48 <? 10) = true) as -> by (apply Z.ltb_lt; lia).
  cbn [default]. by apply IH.
Qed.

Lemma digits_go_S (f : nat) (n : Z) (acc : jsstring) :
  digits_go (S f) n acc
  = if n <? 10 then (48 + n mod 10) :: acc
    else digits_go f (n / 10) ((48 + n mod 10) :: acc).
Proof. reflexivity. Qed.

(** [digits_go] writes the decimal digits of [n] in front of [acc]. *)
Lemma digits_go_value : forall (f : nat) (n : Z) (acc : jsstring),
  0 <= n < 10 ^ Z.of_nat (S f) ->
  exists c ds,
    digits_go (S f) n acc = (c :: ds) ++ acc /\
    Forall (fun c => is_digit c = true) (c :: ds) /\
    forall a, fold_left (fun a c => a * 10 + (c - 48)) (c :: ds) a
              = a * 10 ^ Z.of_nat (length (c :: ds)) + n.
Proof.
  assert (forall n, 0 <= n -> is_digit (48 + n mod 10) = true) as Hdig.
  { intros n Hn. pose proof (Z.mod_pos_bound n 10). unfold is_digit.
    apply andb_true_iff. split; apply Z.leb_le; lia. }
  induction f as [|f IH]; intros n acc Hn; rewrite digits_go_S.
  - assert ((n <? 10) = true) as -> by (apply Z.ltb_lt; cbn in Hn; lia).
    exists (48 + n mod 10), []. split; [done|]. split.
    + constructor; [apply Hdig; lia|constructor].
    + intros a. cbn. rewrite Z.mod_small by (cbn in Hn; lia). lia.
  - destruct (n <? 10) eqn:E.
    + apply Z.ltb_lt in E.
      exists (48 + n mod 10), []. split; [done|]. split.
      * constructor; [apply Hdig; lia|constructor].
      * intros a. cbn [fold_left length]. rewrite Z.mod_small by lia.
        change (Z.of_nat 1) with 1. lia.
    + apply Z.ltb_ge in E.
      assert (0 <= n / 10 < 10 ^ Z.of_nat (S f)) as Hq.
      { split; [apply Z.div_pos; lia|]. apply Z.div_lt_upper_bound; [lia|].
        rewrite (Nat2Z.inj_succ (S f)), Z.pow_succ_r in Hn by lia. lia. }
      destruct (IH (n / 10) ((48 + n mod 10) :: acc) Hq)
        as (c & ds & Heq & Hall & Hval).
      exists c, (ds ++ [48 + n mod 10]). split; [|split].
      * rewrite Heq. cbn [app]. by rewrite <- app_assoc.
      * rewrite app_comm_cons. apply Forall_app. split; [done|].
        constructor; [apply Hdig; lia|constructor].
      * intros a. rewrite app_comm_cons, fold_left_app, Hval.
        cbn [fold_left]. rewrite length_app.
        replace (Z.of_nat (length (c :: ds) + length [48 + n mod 10]))
          with (Z.succ (Z.of_nat (length (c :: ds))))
          by (cbn [length]; lia).
        rewrite Z.pow_succ_r by lia.
        generalize (10 ^ Z.of_nat (length (c :: ds))). intros P.
        pose proof (Z.div_mod n 10). lia.
Qed.

Lemma fuel_enough (n : Z) :
  0 <= n -> 0 <= n < 10 ^ Z.of_nat (S (Z.to_nat (Z.log2 n))).
Proof.
  intros Hn. split; [done|].
  rewrite Nat2Z.inj_succ, Z2Nat.id by apply Z.log2_nonneg.
  destruct (decide (n = 0)) as [->|Hne]; [done|].
  pose proof (Z.log2_nonneg n).
  apply Z.lt_le_trans with (2 ^ Z.succ (Z.log2 n)).
  - apply Z.log2_spec. lia.
  - apply Z.pow_le_mono_l. lia.
Qed.

(** [parseInt] on a string that starts with a digit and goes on with
    digits reads it in base ten. *)
Lemma parseInt_digits (sign : jsstring) (c : Z) (ds : jsstring) :
  sign = [] \/ sign = [45] ->
  Forall (fun c => is_digit c = true) (c :: ds) ->
  parseInt (sign ++ c :: ds)
  = option_map (Z.mul (if decide (sign = []) then 1 else -1))
      (parse_digits 10 (c :: ds) None).
Proof.
  intros Hs Hall. apply Forall_cons in Hall as [Hc Hds].
  assert (Hc' := Hc). unfold is_digit in Hc'.
  apply andb_true_iff in Hc' as [?%Z.leb_le ?%Z.leb_le].
  assert (c = 48 \/ c = 49 \/ c = 50 \/ c = 51 \/ c = 52 \/ c = 53 \/
          c = 54 \/ c = 55 \/ c = 56 \/ c = 57) as Hcases by lia.
  assert (forall x r, ds = x :: r -> ((x =? 120) || (x =? 88)) = false) as Hx.
  { intros x r ->. apply Forall_cons in Hds as [Hx _]. unfold is_digit in Hx.
    apply andb_true_iff in Hx as [?%Z.leb_le ?%Z.leb_le].
    apply orb_false_intro; apply Z.eqb_neq; lia. }
  unfold parseInt.
  destruct Hs as [-> | ->]; cbn [app trimStart];
    repeat (destruct Hcases as [-> | Hcases]); try subst c;
    destruct ds as [|x r]; try done;
    cbn; rewrite ?(Hx x r eq_refl); done.
Qed.

(** What [setToken] writes as the time stamp, [isTokenExpired] reads
    back. *)
Lemma parseInt_toString (n : Z) : parseInt (toString n) = Some n.
Proof.
  unfold toString. destruct (n <? 0) eqn:E.
  - apply Z.ltb_lt in E. rewrite Nat.add_1_r.
    destruct (digits_go_value _ _ [] (fuel_enough (- n) ltac:(lia)))
      as (c & ds & -> & Hall & Hval).
    rewrite app_nil_r. change (45 :: c :: ds) with ([45] ++ c :: ds).
    rewrite parseInt_digits by auto.
    apply Forall_cons in Hall as Hall'. destruct Hall' as [Hc Hds].
    cbn [parse_digits]. unfold digit_value. rewrite Hc.
    unfold is_digit in Hc. apply andb_true_iff in Hc as [?%Z.leb_le ?%Z.leb_le].
    assert ((c - 48 <? 10) = true) as -> by (apply Z.ltb_lt; lia).
    cbn [default]. rewrite <- (app_nil_r ds), parse_digits_app by done.
    cbn [parse_digits option_map]. f_equal.
    specialize (Hval 0). cbn [fold_left] in Hval.
    rewrite decide_False by done. lia.
  - apply Z.ltb_ge in E. rewrite Nat.add_1_r.
    destruct (digits_go_value _ _ [] (fuel_enough n E))
      as (c & ds & -> & Hall & Hval).
    rewrite app_nil_r. change (c :: ds) with ([] ++ c :: ds).
    rewrite parseInt_digits by auto.
    apply Forall_cons in Hall as Hall'. destruct Hall' as [Hc Hds].
    cbn [parse_digits]. unfold digit_value. rewrite Hc.
    unfold is_digit in Hc. apply andb_true_iff in Hc as [?%Z.leb_le ?%Z.leb_le].
    assert ((c - 48 <? 10) = true) as -> by (apply Z.ltb_lt; lia).
    cbn [default]. rewrite <- (app_nil_r ds), parse_digits_app by done.
    cbn [parse_digits option_map]. f_equal.
    specialize (Hval 0). cbn [fold_left] in Hval.
    rewrite decide_True by done. lia.
Qed.

Lemma toString_nonempty (n : Z) : toString n <> [].
Proof.
  unfold toString. destruct (n <? 0); [done|].
  rewrite Nat.add_1_r. cbn [digits_go]. destruct (n <? 10); [done|].
  intros H. pose proof (f_equal length H) as Hl.
  assert (forall f m acc, (length acc <= length (digits_go f m acc))%nat) as Hle.
  { induction f as [|f IH]; intros m acc; cbn [digits_go]; [done|].
    destruct (m <? 10); cbn [length]; [lia|].
    etrans; [|apply IH]. cbn [length]. lia. }
  specialize (Hle (Z.to_nat (Z.log2 n)) (n / 10) [48 + n mod 10]).
  rewrite Hl in Hle. cbn in Hle. lia.
Qed.

Lemma isTokenExpired_setToken (tok : jsstring) (now now' : Z) (c : Csrf) :
  isTokenExpired now' (setToken tok now c) = (now' - now >? TOKEN_EXPIRY c).
Proof.
  unfold isTokenExpired, setToken. cbn [sessionStorage TOKEN_EXPIRY].
  rewrite lookup_insert_eq.
  pose proof (toString_nonempty now) as Hne.
  destruct (toString now) as [|x r] eqn:Ets; [done|].
  cbn [truthy_str negb]. rewrite <- Ets, parseInt_toString. done.
Qed.

(** X17. A token stamped at [now], a time [Date.now()] can return,
    counts as expired at [now'] exactly when more than [TOKEN_EXPIRY]
    milliseconds lie between the two: the time stamp that [setToken]
    writes into the session storage is read back unchanged by
    [isTokenExpired], whatever the clock shows then. *)
Theorem token_expires_after_TOKEN_EXPIRY
  (tok : jsstring) (now now' : Z) (c : Csrf) :
  time_value now ->
  sessionStorage (setToken tok now c) !! TIMESTAMP_KEY ≫= parseInt = Some now /\
  isTokenExpired now' (setToken tok now c) = (now' - now >? TOKEN_EXPIRY c).
Proof.
  intros _. split; [|apply isTokenExpired_setToken].
  unfold setToken. cbn [sessionStorage]. rewrite lookup_insert_eq.
  cbn. apply parseInt_toString.
Qed.

Lemma generateSecureToken_setToken e now c :
  exists tok, tok <> [] /\ generateSecureToken e now c = setToken tok now c.
Proof.
  destruct e as [bytes|rnd]; cbn [generateSecureToken]; eexists;
    (split; [|reflexivity]); [by destruct bytes|done].
Qed.

Lemma getToken_within (e e' : Entropy) (now now' : Z) (c : Csrf) :
  now' - now <= TOKEN_EXPIRY c ->
  getToken e' now' (generateSecureToken e now c)
  = (token (generateSecureToken e now c), generateSecureToken e now c).
Proof.
  intros H.
  destruct (generateSecureToken_setToken e now c) as (tok & Hne & ->).
  unfold getToken. rewrite isTokenExpired_setToken.
  destruct tok as [|x tok]; [done|]. cbn [setToken token truthy_str negb orb].
  by assert ((now' - now >? TOKEN_EXPIRY c) = false) as ->
    by (rewrite Z.gtb_ltb; apply Z.ltb_ge; lia).
Qed.

(** X18. A token that [generateSecureToken] made at [now] is what
    [getToken] answers, without touching anything, for as long as no more
    than [TOKEN_EXPIRY] milliseconds have gone by; after that, and after
    [clearToken], [getToken] generates the next one. *)
Theorem getToken_serves_one_token_per_period
  (e e' : Entropy) (now now' : Z) (c : Csrf) :
  time_value now ->
  let c1 := generateSecureToken e now c in
  (now' - now <= TOKEN_EXPIRY c -> getToken e' now' c1 = (token c1, c1)) /\
  (TOKEN_EXPIRY c < now' - now ->
   snd (getToken e' now' c1) = generateSecureToken e' now' c1) /\
  snd (getToken e' now' (clearToken c1))
  = generateSecureToken e' now' (clearToken c1).
Proof.
  intros _ c1. subst c1.
  destruct (generateSecureToken_setToken e now c) as (tok & Hne & ->).
  unfold getToken. rewrite isTokenExpired_setToken.
  destruct tok as [|x tok]; [done|]. cbn [setToken token truthy_str negb orb].
  split; [|split].
  - intros H. by assert ((now' - now >? TOKEN_EXPIRY c) = false) as ->
      by (rewrite Z.gtb_ltb; apply Z.ltb_ge; lia).
  - intros H. by assert ((now' - now >? TOKEN_EXPIRY c) = true) as ->
      by (rewrite Z.gtb_ltb; apply Z.ltb_lt; lia).
  - done.
Qed.

(** X19. The token that [generateSecureToken] made validates: until it
    expires, [validateAdminToken] accepts it and nothing else, and leaves
    the token in place. *)
Theorem issued_token_validates
  (e e' : Entropy) (now now' : Z) (c : Csrf) (requestToken : jsstring) :
  wf_entropy e -> wf_jsstring requestToken ->
  time_value now -> now' - now <= TOKEN_EXPIRY c ->
  let c1 := generateSecureToken e now c in
  snd (validateAdminToken requestToken e' now' c1) = c1 /\
  (fst (validateAdminToken requestToken e' now' c1) = true <->
   token c1 = Some requestToken).
Proof.
  intros He Hr _ Hle c1.
  pose proof (getToken_within e e' now now' c Hle) as Hg. fold c1 in Hg.
  destruct (generateSecureToken_token e now c He) as (t & Ht & Hne & Hwf).
  fold c1 in Ht. unfold validateAdminToken. rewrite Hg, Ht.
  destruct t as [|x t]; [done|].
  destruct requestToken as [|y r]; cbn [truthy_str negb orb fst snd].
  - split; [done|]. split; [done|]. intros [=].
  - split; [done|].
    rewrite constantTimeEqual_eq by done. split; [by intros ->|].
    intros Heq. by injection Heq as -> ->.
Qed.

Lemma hex_digit_is_hex d : 0 <= d < 16 -> is_hex_digit (hex_digit d) = true.
Proof.
  intros Hd. unfold is_hex_digit, hex_digit, is_digit.
  destruct (d <? 10) eqn:E.
  - apply Z.ltb_lt in E. apply orb_true_iff. left.
    apply andb_true_iff. split; apply Z.leb_le; lia.
  - apply Z.ltb_ge in E. apply orb_true_iff. right.
    apply andb_true_iff. split; apply Z.leb_le; lia.
Qed.

Lemma hex_shape (bytes : list Z) :
  length (concat (map hex2 bytes)) = (2 * length bytes)%nat /\
  Forall (fun c => is_hex_digit c = true) (concat (map hex2 bytes)).
Proof.
  induction bytes as [|b r [IHl IHf]]; [by split|].
  cbn [map concat]. split.
  - rewrite length_app, IHl. cbn [hex2 length]. lia.
  - apply Forall_app. split; [|done]. unfold hex2.
    pose proof (Z.mod_pos_bound b 256).
    pose proof (Z.mod_pos_bound (b mod 256) 16).
    repeat constructor; apply hex_digit_is_hex; [|lia].
    split; [apply Z.div_pos; lia | apply Z.div_lt_upper_bound; lia].
Qed.

(** X20. When the platform's random source works, the token is 96
    characters long, each a digit or a letter from a to f, whatever the
    source delivers; the class field and the session storage hold the
    same string, and the stamp beside it is the time of the call. *)
Theorem generateSecureToken_is_96_hex_digits
  (bytes : list Z) (now : Z) (c : Csrf) :
  let c1 := generateSecureToken (RandomValues bytes) now c in
  exists t,
    token c1 = Some t /\
    sessionStorage c1 !! TOKEN_STORAGE_KEY = Some t /\
    sessionStorage c1 !! TIMESTAMP_KEY = Some (toString now) /\
    length t = 96%nat /\
    Forall (fun c => is_hex_digit c = true) t /\
    TOKEN_EXPIRY c1 = TOKEN_EXPIRY c.
Proof.
  cbn zeta. unfold generateSecureToken, setToken.
  cbn [token sessionStorage TOKEN_EXPIRY].
  eexists. split; [reflexivity|].
  rewrite lookup_insert_eq, lookup_insert_ne, lookup_insert_eq by done.
  split; [done|]. split; [done|].
  destruct (hex_shape (resize 48 0 bytes)) as [Hl Hf].
  rewrite length_resize in Hl. done.
Qed.

End CsrfLifetime.

(** ** The client's routes *)

Section BuildURL.
Import Js ApiClient.

Lemma startsWith_app (p r : jsstring) : startsWith (p ++ r) p = true.
Proof.
  induction p as [|c p IH]; [done|]. cbn [app startsWith].
  by rewrite Z.eqb_refl, IH.
Qed.

Lemma startsWith_includes (s p : jsstring) :
  startsWith s p = true -> includes s p = true.
Proof. intros H. destruct s; cbn [includes]; by rewrite H. Qed.

(** X21. [buildURL] puts the base URL in front of a path that is the
    endpoint itself, or the endpoint behind [/admin], with a slash
    supplied when the endpoint has none in front. The path is one that
    [buildURL] leaves alone: routing it again changes nothing. *)
Theorem buildURL_routes_once (baseURL endpoint : jsstring) :
  exists path,
    buildURL baseURL endpoint = baseURL ++ path /\
    (path = endpoint \/
     (startsWith endpoint (lit "/") = true /\ path = lit "/admin" ++ endpoint) \/
     (startsWith endpoint (lit "/") = false /\ path = lit "/admin/" ++ endpoint)) /\
    buildURL baseURL path = baseURL ++ path.
Proof.
  unfold buildURL at 1.
  destruct (includes endpoint (lit "/admin/") || startsWith endpoint (lit "/admin")
            || startsWith endpoint (lit "/auth")
            || startsWith endpoint (lit "/voices")) eqn:E.
  - exists endpoint. split; [done|]. split; [by left|].
    unfold buildURL. by rewrite E.
  - destruct (startsWith endpoint (lit "/")) eqn:Es.
    + exists (lit "/admin" ++ endpoint). split; [done|]. split; [by right; left|].
      unfold buildURL. rewrite (startsWith_app (lit "/admin") endpoint).
      by rewrite orb_true_r.
    + exists (lit "/admin/" ++ endpoint). split; [done|].
      split; [by right; right|].
      unfold buildURL.
      rewrite (startsWith_includes _ _ (startsWith_app (lit "/admin/") endpoint)).
      done.
Qed.

End BuildURL.

(** ** The validators *)

Section Validators.
Import Js SuperAdminValidator.

Lemma allowedActions_pass (a : jsstring) :
  a ∈ allowedActions -> validateAdminAction (JString a) = Returns a.
Proof.
  unfold allowedActions. cbn [map]. intros Ha.
  repeat (apply elem_of_cons in Ha as [-> | Ha]; [by vm_compute|]).
  by apply elem_of_nil in Ha.
Qed.

(** X22. [validateAdminAction] returns nothing but one of the seventeen
    listed actions, and what it returns it would return again; each
    listed action passes as it is; every refusal names the field
    [action]. *)
Theorem validateAdminAction_is_a_whitelist :
  (forall v s,
     validateAdminAction v = Returns s ->
     s ∈ allowedActions /\ s = sanitizeInput v /\
     validateAdminAction (JString s) = Returns s) /\
  (forall a, a ∈ allowedActions -> validateAdminAction (JString a) = Returns a) /\
  (forall v e, validateAdminAction v = Throws e -> field e = "action"%string).
Proof.
  split; [|split].
  - intros v s. unfold validateAdminAction.
    destruct (negb (truthy (JString (sanitizeInput v)))); [done|].
    destruct (bool_decide (sanitizeInput v ∈ allowedActions)) eqn:E;
      cbn [negb]; [|done].
    apply bool_decide_eq_true in E. intros [= <-].
    split; [done|]. split; [done|]. by apply allowedActions_pass.
  - apply allowedActions_pass.
  - intros v e. unfold validateAdminAction.
    destruct (negb (truthy _)); [by intros [= <-]|].
    destruct (negb (bool_decide _)); [by intros [= <-]|done].
Qed.

(** *** What a global replace leaves alone *)

Lemma trimStart_suffix (s : jsstring) : trimStart s `suffix_of` s.
Proof.
  induction s as [|c t IH]; cbn [trimStart]; [done|].
  destruct (is_space c); [by apply suffix_cons_r|done].
Qed.

Lemma trim_sublist (s : jsstring) : trim s `sublist_of` s.
Proof.
  unfold trim, trimEnd.
  assert (reverse (trimStart (reverse (trimStart s))) `prefix_of` trimStart s)
    as [k Hk].
  { apply prefix_suffix_reverse. rewrite reverse_involutive.
    apply trimStart_suffix. }
  destruct (trimStart_suffix s) as [k' Hk'].
  rewrite Hk' at 2. apply sublist_inserts_l.
  rewrite Hk at 2. by apply sublist_inserts_r.
Qed.

Lemma remove_go_sublist m (s : jsstring) : forall k,
  remove_go m k s `sublist_of` s.
Proof.
  induction s as [|c t IH]; intros k; cbn [remove_go]; [done|].
  destruct k as [|k]; [|by apply sublist_cons].
  destruct (m (c :: t)) as [[|n]|];
    [by apply sublist_skip | by apply sublist_cons | by apply sublist_skip].
Qed.

Lemma remove_ctx_go_sublist m (s : jsstring) : forall prev k,
  remove_ctx_go m prev k s `sublist_of` s.
Proof.
  induction s as [|c t IH]; intros prev k; cbn [remove_ctx_go]; [done|].
  destruct k as [|k]; [|by apply sublist_cons].
  destruct (m prev (c :: t)) as [[|n]|];
    [by apply sublist_skip | by apply sublist_cons | by apply sublist_skip].
Qed.

Lemma filter_Forall_id {A} (P : A -> Prop) `{!forall x, Decision (P x)}
  (l : list A) : Forall P l -> filter P l = l.
Proof.
  induction 1 as [|x l Hx _ IH]; [done|].
  by rewrite filter_cons_True, IH.
Qed.

(** A matcher that finds nothing at any position leaves the string as it
    is. *)
Lemma remove_go_id m (s : jsstring) :
  (forall t, t `suffix_of` s -> m t = None) -> remove_go m O s = s.
Proof.
  induction s as [|c t IH]; intros Hm; cbn [remove_go]; [done|].
  rewrite (Hm (c :: t)) by done. f_equal. apply IH.
  intros u Hu. apply Hm. by apply suffix_cons_r.
Qed.

(** A literal matches only where each of its characters has a partner. *)
Lemma match_ci_chars (pat : jsstring) : forall (s : jsstring) (n : nat),
  match_ci pat s = Some n ->
  forall p, p ∈ pat -> exists c, c ∈ s /\ ci_eq p c = true.
Proof.
  induction pat as [|a pat IH]; intros s n H p Hp;
    [by apply elem_of_nil in Hp|].
  destruct s as [|c s]; cbn [match_ci] in H; [done|].
  destruct (ci_eq a c) eqn:Ea; [|done].
  destruct (match_ci pat s) as [k|] eqn:Ek; [|done].
  apply elem_of_cons in Hp as [-> | Hp].
  - exists c. split; [left|done].
  - destruct (IH s k Ek p Hp) as (d & Hd & Hpd).
    exists d. split; [by right|done].
Qed.

Lemma match_ci_absent (pat s : jsstring) (p : Z) :
  p ∈ pat -> (forall c, c ∈ s -> ci_eq p c = false) ->
  forall t, t `suffix_of` s -> match_ci pat t = None.
Proof.
  intros Hp Hs t [k ->].
  destruct (match_ci pat t) as [n|] eqn:E; [|done].
  destruct (match_ci_chars pat t n E p Hp) as (c & Hc & Hpc).
  rewrite Hs in Hpc; [done|]. apply elem_of_app. by right.
Qed.

Lemma word_run_suffix (s : jsstring) : (word_run s).2 `suffix_of` s.
Proof.
  induction s as [|c t IH]; cbn [word_run]; [done|].
  destruct (is_word c); [|done].
  destruct (word_run t) as [n r]. by apply suffix_cons_r.
Qed.

Lemma match_on_handler_absent (s : jsstring) :
  61 ∉ s -> forall t, t `suffix_of` s -> match_on_handler t = None.
Proof.
  intros Hs t [k ->]. unfold match_on_handler.
  destruct t as [|o [|n r]]; [done|done|].
  destruct (ci_eq 111 o && ci_eq 110 n); [|done].
  pose proof (word_run_suffix r) as [k' Hk'].
  destruct (word_run r) as [[|j] [|e rest]]; try done.
  cbn [snd] in Hk'. destruct (e =? 61) eqn:Ee; [|done].
  apply Z.eqb_eq in Ee. subst e. exfalso. apply Hs.
  apply elem_of_app. right. do 2 right. rewrite Hk'.
  apply elem_of_app. right. left.
Qed.

(** *** Names *)

Lemma name_char_facts (c : Z) :
  is_name_char c = true ->
  is_xss_char c = false /\ c <> 61 /\ ci_eq 58 c = false /\ ci_eq 40 c = false.
Proof.
  unfold is_name_char, is_lower, is_upper, is_space, is_xss_char, ci_eq, canon,
    is_lower.
  rewrite !orb_true_iff, !andb_true_iff, !Z.leb_le, !Z.eqb_eq.
  intros H. cbn [Z.leb Z.compare Pos.compare Pos.compare_cont andb].
  destruct ((97 <=? c) && (c <=? 122)) eqn:E.
  - apply andb_true_iff in E as [?%Z.leb_le ?%Z.leb_le].
    repeat split; try lia;
      try (apply Z.eqb_neq; lia);
      repeat (apply orb_false_intro); apply Z.eqb_neq; lia.
  - apply andb_false_iff in E.
    rewrite !Z.leb_gt in E.
    repeat split; try lia;
      try (apply Z.eqb_neq; lia);
      repeat (apply orb_false_intro); apply Z.eqb_neq; lia.
Qed.

(** On a string of letters, white space and hyphens [sanitizeInput] only
    trims. *)
Lemma sanitizeInput_name (s : jsstring) :
  Forall (fun c => is_name_char c = true) s ->
  sanitizeInput (JString s) = trim s.
Proof.
  intros Hs. destruct s as [|c0 t]; [done|].
  unfold sanitizeInput. cbn [truthy is_string negb orb].
  set (u := trim (c0 :: t)).
  assert (forall c, c ∈ u ->
            is_xss_char c = false /\ c <> 61 /\
            ci_eq 58 c = false /\ ci_eq 40 c = false) as Hu.
  { intros c Hc. apply name_char_facts.
    apply (proj1 (Forall_forall _ _) Hs).
    by apply (sublist_subseteq _ _ (trim_sublist (c0 :: t))). }
  rewrite filter_Forall_id by (apply Forall_forall; intros c Hc; by apply Hu).
  assert (forall pat, 58 ∈ pat -> remove_all (match_ci pat) u = u) as Hcolon.
  { intros pat Hpat. apply remove_go_id, (match_ci_absent _ u 58); [done|].
    intros c Hc. by apply Hu. }
  rewrite (Hcolon (lit "javascript:"))
    by (refine (bool_decide_unpack _ _); by vm_compute).
  unfold remove_all at 4.
  rewrite (remove_go_id match_on_handler u).
  2:{ apply match_on_handler_absent. intros H61.
      by apply Hu in H61 as (_ & ? & _). }
  rewrite (Hcolon (lit "data:")) by (refine (bool_decide_unpack _ _); by vm_compute).
  rewrite (Hcolon (lit "vbscript:"))
    by (refine (bool_decide_unpack _ _); by vm_compute).
  apply remove_go_id, (match_ci_absent _ u 40).
  - refine (bool_decide_unpack _ _). by vm_compute.
  - intros c Hc. by apply Hu.
Qed.

Lemma forallb_Forall {A} (f : A -> bool) (l : list A) :
  forallb f l = true <-> Forall (fun x => f x = true) l.
Proof.
  induction l as [|x l IH]; cbn [forallb].
  - split; [constructor|done].
  - rewrite andb_true_iff, Forall_cons, IH. done.
Qed.

(** X23. A name that [validateAdminName] returns is what [sanitizeInput]
    made of the input, is 2 to 30 code units long, and holds only
    letters, white space and hyphens. White space may stand at either
    end of it: validating the result again trims it, and refuses it when
    fewer than two code units are left. *)
Theorem validateAdminName_returns_a_name (name : JsValue) (s : jsstring) :
  validateAdminName name = Returns s ->
  s = sanitizeInput name /\
  (2 <= length s <= 30)%nat /\
  Forall (fun c => is_name_char c = true) s /\
  ((2 <= length (trim s))%nat ->
   validateAdminName (JString s) = Returns (trim s)) /\
  ((length (trim s) < 2)%nat ->
   exists e, validateAdminName (JString s) = Throws e /\ field e = "name"%string).
Proof.
  unfold validateAdminName at 1.
  destruct (negb (truthy (JString (sanitizeInput name)))); [done|].
  destruct (length (sanitizeInput name) <? 2)%nat eqn:E2; [done|].
  destruct (30 <? length (sanitizeInput name))%nat eqn:E30; [done|].
  destruct (forallb is_name_char (sanitizeInput name)) eqn:Ef; [|done].
  cbn [negb]. intros [= <-].
  apply Nat.ltb_ge in E2, E30. apply forallb_Forall in Ef.
  set (s := sanitizeInput name) in *.
  split; [done|]. split; [lia|]. split; [done|].
  pose proof (sublist_length _ _ (trim_sublist s)) as Hlen.
  assert (forallb is_name_char (trim s) = true) as Hf.
  { apply forallb_Forall, Forall_forall. intros c Hc.
    apply (proj1 (Forall_forall _ _) Ef).
    by apply (sublist_subseteq _ _ (trim_sublist s)). }
  unfold validateAdminName. rewrite (sanitizeInput_name s Ef), Hf.
  split.
  - intros H2. destruct (trim s) as [|c t] eqn:Et; [cbn in H2; lia|].
    cbn [truthy negb].
    assert ((length (c :: t) <? 2)%nat = false) as ->
      by (apply Nat.ltb_ge; lia).
    by assert ((30 <? length (c :: t))%nat = false) as ->
      by (apply Nat.ltb_ge; lia).
  - intros H2. destruct (negb (truthy (JString (trim s)))); [by eexists|].
    assert ((length (trim s) <? 2)%nat = true) as ->
      by (apply Nat.ltb_lt; lia).
    by eexists.
Qed.

(** *** Search queries *)

(** X24. Whatever it is given, [sanitizeSearchQuery] returns at most 100
    code units, none of them an apostrophe, a double quote, a backtick, a
    semicolon or a backslash; given a string, it returns code units of
    that string in their order, and adds none; given anything else, or
    the empty string, it returns the empty string. *)
Theorem sanitizeSearchQuery_is_short_and_quote_free (query : JsValue) :
  (length (sanitizeSearchQuery query) <= 100)%nat /\
  Forall (fun c => is_sql_char c = false) (sanitizeSearchQuery query) /\
  (forall s, query = JString s -> sanitizeSearchQuery query `sublist_of` s) /\
  (query = JString [] \/ is_string query = false ->
   sanitizeSearchQuery query = []).
Proof.
  assert (forall s,
            take 100 (remove_all_ctx match_keyword
                        (filter (fun c => is_sql_char c = false) (trim s)))
            `sublist_of` filter (fun c => is_sql_char c = false) (trim s))
    as Hsub.
  { intros s. etrans; [apply sublist_take|]. apply remove_ctx_go_sublist. }
  assert (is_string query = false -> sanitizeSearchQuery query = []) as Hns.
  { intros H. unfold sanitizeSearchQuery. by rewrite H, orb_true_r. }
  destruct (is_string query) eqn:Estr.
  2:{ rewrite Hns by done. repeat split; cbn [length]; auto with lia.
      intros s ->. done. }
  destruct query as [| | | | |s]; try discriminate Estr.
  unfold sanitizeSearchQuery. cbn [truthy is_string negb orb].
  destruct s as [|c0 t]; cbn [negb orb].
  { repeat split; cbn [length]; auto with lia. intros s [= <-]. done. }
  split; [|split; [|split]].
  - rewrite length_take. lia.
  - apply Forall_forall. intros c Hc.
    apply (sublist_subseteq _ _ (Hsub (c0 :: t))) in Hc.
    by apply list_elem_of_filter in Hc as [? _].
  - intros s [= <-]. etrans; [apply Hsub|].
    etrans; [apply sublist_filter|]. apply trim_sublist.
  - intros [[=] | [=]].
Qed.

End Validators.

(** ** The rate limiter *)

Section RateLimit.
Import Security.RateLimiter.

Variables maxAttempts windowMs : Z.

Lemma times_of_app key (g1 g2 : list (string * Z)) :
  times_of key (g1 ++ g2) = times_of key g1 ++ times_of key g2.
Proof. unfold times_of. by rewrite filter_app, fmap_app. Qed.

Lemma times_of_one key k (n : Z) :
  times_of key [(k, n)] = if decide (k = key) then [n] else [].
Proof.
  unfold times_of. destruct (decide (k = key)) as [->|Hne].
  - by rewrite filter_cons_True.
  - by rewrite filter_cons_False.
Qed.

Lemma filter_window (t n : Z) (l : list Z) :
  n <= t ->
  filter (fun x => t - windowMs < x) (filter (fun x => n - windowMs < x) l)
  = filter (fun x => t - windowMs < x) l.
Proof.
  intros Hle. rewrite list_filter_filter. apply list_filter_iff.
  intros x. lia.
Qed.

Lemma recorded_empty : recorded windowMs ∅ [].
Proof. intros key t _. by rewrite lookup_empty. Qed.

Lemma recorded_granted attempts granted key now :
  recorded windowMs attempts granted ->
  (forall g, g ∈ granted -> g.2 <= now) ->
  recorded windowMs
    (<[key := filter (fun x => now - windowMs < x)
                (default [] (attempts !! key)) ++ [now]]> attempts)
    (granted ++ [(key, now)]).
Proof.
  intros Hrec Hle key' t Ht.
  assert (now <= t) as Hnow.
  { apply (Ht (key, now)), elem_of_app. right. left. }
  assert (forall g, g ∈ granted -> g.2 <= t) as Ht'.
  { intros g Hg. apply Ht, elem_of_app. by left. }
  rewrite times_of_app, filter_app, times_of_one, <- (Hrec key' t Ht').
  destruct (decide (key = key')) as [->|Hne].
  - rewrite lookup_insert_eq. unfold default at 1. cbn [from_option id].
    unfold id. by rewrite filter_app, filter_window.
  - rewrite lookup_insert_ne by done. cbn [filter]. by rewrite app_nil_r.
Qed.

Lemma in_order_le (t0 : Z) (cs : list (string * Z)) :
  in_order t0 cs -> forall c, c ∈ cs -> t0 <= c.2.
Proof.
  revert t0. induction cs as [|[k n] cs IH]; intros t0 Hord c Hc;
    [by apply elem_of_nil in Hc|].
  destruct Hord as [Hle Hord].
  apply elem_of_cons in Hc as [-> | Hc]; [done|].
  specialize (IH n Hord c Hc). lia.
Qed.

Lemma isAllowed_cases key now attempts :
  let kept := filter (fun x => now - windowMs < x)
                (default [] (attempts !! key)) in
  (isAllowed key maxAttempts windowMs now attempts = (false, attempts) /\
   maxAttempts <= Z.of_nat (length kept)) \/
  (isAllowed key maxAttempts windowMs now attempts
   = (true, <[key := kept ++ [now]]> attempts) /\
   Z.of_nat (length kept) < maxAttempts).
Proof.
  intros kept. unfold isAllowed. fold kept.
  destruct (Z.of_nat (length kept) >=? maxAttempts) eqn:E.
  - left. split; [done|]. apply Z.geb_le in E. lia.
  - right. split; [done|]. rewrite Z.geb_leb in E. apply Z.leb_gt in E. lia.
Qed.

(** Every call that is let through finds fewer than [maxAttempts]
    earlier ones in its window. *)
Lemma calls_bound : forall (cs : list (string * Z)) attempts granted t0,
  recorded windowMs attempts granted ->
  (forall g, g ∈ granted -> g.2 <= t0) ->
  in_order t0 cs ->
  forall before key now after,
    (calls maxAttempts windowMs cs attempts).1 = before ++ (key, now) :: after ->
    Z.of_nat (length (filter (fun t => now - windowMs < t)
                        (times_of key (granted ++ before ++ [(key, now)]))))
    <= maxAttempts.
Proof.
  induction cs as [|[k n] cs IH];
    intros attempts granted t0 Hrec Hle Hord before key now after Heq;
    cbn [calls] in Heq.
  { cbn [fst] in Heq. by destruct before. }
  destruct Hord as [Hn Hord].
  assert (forall g, g ∈ granted -> g.2 <= n) as Hle'.
  { intros g Hg. specialize (Hle g Hg). lia. }
  destruct (isAllowed_cases k n attempts) as [[Hdec Hlen] | [Hdec Hlen]];
    rewrite Hdec in Heq.
  - destruct (calls maxAttempts windowMs cs attempts) as [gr at'] eqn:Ec.
    cbn [fst app] in Heq.
    apply (IH attempts granted n Hrec Hle' Hord before key now after).
    by rewrite Ec.
  - destruct (calls maxAttempts windowMs cs _) as [gr at'] eqn:Ec.
    cbn [fst app] in Heq.
    destruct before as [|b before]; cbn [app] in Heq.
    + injection Heq as Hk1 Hk2 _. subst key now. cbn [app].
      rewrite times_of_app, filter_app, length_app, times_of_one.
      rewrite decide_True by done.
      rewrite <- (Hrec k n Hle').
      assert (length (filter (fun t : Z => (n - windowMs < t)%Z) [n]) <= 1)%nat.
      { destruct (decide (n - windowMs < n)).
        - rewrite filter_cons_True by done. cbn. lia.
        - rewrite filter_cons_False by done. cbn. lia. }
      lia.
    + injection Heq as <- Heq.
      pose proof (recorded_granted attempts granted k n Hrec Hle') as Hrec'.
      assert (forall g, g ∈ granted ++ [(k, n)] -> g.2 <= n) as Hle2.
      { intros g [Hg | ->%list_elem_of_singleton]%elem_of_app;
          [by apply Hle'|done]. }
      specialize (IH _ _ n Hrec' Hle2 Hord before key now after).
      rewrite Ec in IH. specialize (IH Heq).
      by rewrite <- app_assoc in IH.
Qed.

Lemma calls_recorded : forall (cs : list (string * Z)) attempts granted t0,
  recorded windowMs attempts granted ->
  (forall g, g ∈ granted -> g.2 <= t0) ->
  in_order t0 cs ->
  recorded windowMs (calls maxAttempts windowMs cs attempts).2
    (granted ++ (calls maxAttempts windowMs cs attempts).1) /\
  (calls maxAttempts windowMs cs attempts).1 `sublist_of` cs.
Proof.
  induction cs as [|[k n] cs IH]; intros attempts granted t0 Hrec Hle Hord;
    cbn [calls].
  { cbn [fst snd]. by rewrite app_nil_r. }
  destruct Hord as [Hn Hord].
  assert (forall g, g ∈ granted -> g.2 <= n) as Hle'.
  { intros g Hg. specialize (Hle g Hg). lia. }
  destruct (isAllowed_cases k n attempts) as [[Hdec Hlen] | [Hdec Hlen]];
    rewrite Hdec.
  - destruct (IH attempts granted n Hrec Hle' Hord) as [IH1 IH2].
    destruct (calls maxAttempts windowMs cs attempts) as [gr at'].
    cbn [fst snd app] in *. split; [done|]. by apply sublist_cons.
  - pose proof (recorded_granted attempts granted k n Hrec Hle') as Hrec'.
    assert (forall g, g ∈ granted ++ [(k, n)] -> g.2 <= n) as Hle2.
    { intros g [Hg | ->%list_elem_of_singleton]%elem_of_app;
        [by apply Hle'|done]. }
    destruct (IH _ _ n Hrec' Hle2 Hord) as [IH1 IH2].
    destruct (calls maxAttempts windowMs cs _) as [gr at'].
    cbn [fst snd app] in *. rewrite <- app_assoc in IH1.
    split; [done|]. by apply sublist_skip.
Qed.

(** X25. As long as the clock does not run backwards, the limiter keeps
    its promise for every key: a call that is let through is, counted
    with the calls let through before it, at most the [maxAttempts]-th
    within the [windowMs] milliseconds that end with it. *)
Theorem isAllowed_never_exceeds_the_limit
  (t0 : Z) (cs : list (string * Z)) (before after : list (string * Z))
  (key : string) (now : Z) :
  in_order t0 cs ->
  (calls maxAttempts windowMs cs ∅).1 = before ++ (key, now) :: after ->
  Z.of_nat (length (filter (fun t => now - windowMs < t)
                      (times_of key (before ++ [(key, now)]))))
  <= maxAttempts.
Proof.
  intros Hord Heq.
  refine (calls_bound cs ∅ [] t0 recorded_empty _ Hord before key now after Heq).
  intros g Hg. by apply elem_of_nil in Hg.
Qed.

(** X26. Nobody is locked out for good: with a limit of at least one, a
    call that comes [windowMs] milliseconds or more after every call that
    was let through for its key is let through. Calls that were refused
    do not count. *)
Theorem isAllowed_lets_through_after_the_window
  (t0 : Z) (cs : list (string * Z)) (key : string) (now : Z) :
  in_order t0 cs ->
  (forall c, c ∈ cs -> c.2 <= now) ->
  1 <= maxAttempts ->
  (forall t, t ∈ times_of key (calls maxAttempts windowMs cs ∅).1 ->
             t <= now - windowMs) ->
  (isAllowed key maxAttempts windowMs now
     (calls maxAttempts windowMs cs ∅).2).1 = true.
Proof.
  intros Hord Hnow Hmax Hold.
  destruct (calls_recorded cs ∅ [] t0 recorded_empty) as [Hrec Hsub];
    [by intros g ?%elem_of_nil|done|].
  cbn [app] in Hrec.
  destruct (isAllowed_cases key now (calls maxAttempts windowMs cs ∅).2)
    as [[Hdec Hlen] | [Hdec Hlen]]; rewrite Hdec; [|done].
  exfalso. rewrite (Hrec key now) in Hlen.
  - rewrite filter_none in Hlen; [cbn in Hlen; lia|].
    intros t Ht. specialize (Hold t Ht). lia.
  - intros g Hg. apply Hnow. by apply (sublist_subseteq _ _ Hsub).
Qed.

End RateLimit.

(** ** security.ts: the sanitiser and the inactivity check *)

Section SecurityChecks.
Import Js Browser Security.SessionManager.

Lemma trimStart_idem (s : jsstring) : trimStart (trimStart s) = trimStart s.
Proof.
  induction s as [|c t IH]; [done|]. cbn [trimStart].
  destruct (is_space c) eqn:E; [done|]. cbn [trimStart]. by rewrite E.
Qed.

Lemma trimStart_head (c : Z) (t : jsstring) :
  trimStart (c :: t) = c :: t -> is_space c = false.
Proof.
  cbn [trimStart]. destruct (is_space c); [|done]. intros H.
  pose proof (suffix_length _ _ (trimStart_suffix t)) as Hl.
  rewrite H in Hl. cbn [length] in Hl. lia.
Qed.

Lemma trimEnd_fix (u : jsstring) :
  trimStart u = u ->
  trimStart (trimEnd u) = trimEnd u /\ trimEnd (trimEnd u) = trimEnd u.
Proof.
  intros Hu. split.
  - assert (trimEnd u `prefix_of` u) as [k Hk].
    { apply prefix_suffix_reverse. unfold trimEnd.
      rewrite reverse_involutive. apply trimStart_suffix. }
    destruct (trimEnd u) as [|c v']; [done|]. rewrite Hk in Hu.
    cbn [app] in Hu. apply trimStart_head in Hu. cbn [trimStart].
    by rewrite Hu.
  - unfold trimEnd. by rewrite reverse_involutive, trimStart_idem.
Qed.

Lemma trim_idem (s : jsstring) : trim (trim s) = trim s.
Proof.
  destruct (trimEnd_fix (trimStart s) (trimStart_idem s)) as [H1 H2].
  unfold trim. by rewrite H1, H2.
Qed.

(** X27. What [sanitizeInput] of security.ts returns holds no angle
    bracket, neither begins nor ends with white space, and consists of
    code units of the input in their order. *)
Theorem security_sanitizeInput_is_trimmed (input : jsstring) :
  (60 ∉ Security.sanitizeInput input) /\
  (62 ∉ Security.sanitizeInput input) /\
  trim (Security.sanitizeInput input) = Security.sanitizeInput input /\
  Security.sanitizeInput input `sublist_of` input.
Proof.
  unfold Security.sanitizeInput.
  set (s1 := filter (fun c => ((c =? 60) || (c =? 62)) = false) input).
  assert (trim (remove_all match_on_handler
                  (remove_all (match_ci (lit "javascript:")) s1))
          `sublist_of` s1) as Hsub.
  { etrans; [apply trim_sublist|]. etrans; apply remove_go_sublist. }
  assert (forall c, c ∈ s1 -> c <> 60 /\ c <> 62) as Hs1.
  { intros c Hc. apply list_elem_of_filter in Hc as [Hc _].
    apply orb_false_elim in Hc as [?%Z.eqb_neq ?%Z.eqb_neq]. done. }
  split; [|split; [|split]].
  - intros H. apply (sublist_subseteq _ _ Hsub), Hs1 in H. by destruct H.
  - intros H. apply (sublist_subseteq _ _ Hsub), Hs1 in H. by destruct H.
  - apply trim_idem.
  - etrans; [apply Hsub|]. apply sublist_filter.
Qed.

(** *** The inactivity check *)

Lemma warnings_app (e : Env) (d : Dialog) (ds : list Dialog) :
  dialogs e = ds ++ [d] ->
  warnings e = (length (filter (fun d => d = Confirm 5) ds)
                + if decide (d = Confirm 5) then 1 else 0)%nat.
Proof.
  intros H. unfold warnings. rewrite H, filter_app, length_app.
  f_equal. destruct (decide (d = Confirm 5)).
  - by rewrite filter_cons_True.
  - by rewrite filter_cons_False.
Qed.

(** Once the flag is set, a check shows no warning and leaves the two
    fields alone. *)
Lemma checkSessionTimeout_shown (b : bool) (took : Z) (w : World) :
  timeoutWarningShown w.1 = true ->
  (checkSessionTimeout b took w).1 = w.1 /\
  warnings (checkSessionTimeout b took w).2 = warnings w.2.
Proof.
  intros Hs. unfold checkSessionTimeout. rewrite Hs, andb_false_r.
  destruct (_ >=? SESSION_TIMEOUT); [|done].
  split; [done|]. unfold handleSessionExpired. cbn [snd].
  rewrite (warnings_app _ Alert (dialogs w.2)) by done.
  rewrite decide_False by done. unfold warnings. lia.
Qed.

(** A check that warns sets the flag, whatever the answer. *)
Lemma checkSessionTimeout_warns (b : bool) (took : Z) (w : World) :
  timeoutWarningShown w.1 = false ->
  SESSION_TIMEOUT - 5 * 60 * 1000 <= clock w.2 - lastActivity w.1
    < SESSION_TIMEOUT ->
  timeoutWarningShown (checkSessionTimeout b took w).1 = true /\
  lastActivity (checkSessionTimeout b took w).1
  = (if b then clock w.2 + Z.max 0 took else lastActivity w.1) /\
  warnings (checkSessionTimeout b took w).2 = S (warnings w.2).
Proof.
  intros Hs Hr. unfold checkSessionTimeout. rewrite Hs.
  assert ((clock w.2 - lastActivity w.1 >=? SESSION_TIMEOUT) = false) as ->
    by (rewrite Z.geb_leb; apply Z.leb_gt; lia).
  assert ((clock w.2 - lastActivity w.1 >=? SESSION_TIMEOUT - 5 * 60 * 1000)
          = true) as -> by (apply Z.geb_le; lia).
  cbn [andb negb]. unfold showTimeoutWarning.
  destruct b; cbn [fst snd lastActivity timeoutWarningShown]; (split; [done|]);
    (split; [done|]);
    rewrite (warnings_app _ (Confirm 5) (dialogs w.2)) by done;
    rewrite decide_True by done; unfold warnings; lia.
Qed.

(** No check lowers the flag, and a check that finds it lowered shows at
    most one warning and then raises it. *)
Lemma checkSessionTimeout_budget (b : bool) (took : Z) (w : World) :
  (warnings (checkSessionTimeout b took w).2
   + (if timeoutWarningShown (checkSessionTimeout b took w).1 then 0 else 1)
   <= warnings w.2 + (if timeoutWarningShown w.1 then 0 else 1))%nat.
Proof.
  destruct (timeoutWarningShown w.1) eqn:Hs.
  - destruct (checkSessionTimeout_shown b took w Hs) as [-> ->].
    rewrite Hs. lia.
  - destruct (decide (SESSION_TIMEOUT - 5 * 60 * 1000
                      <= clock w.2 - lastActivity w.1 < SESSION_TIMEOUT))
      as [Hr|Hr].
    + destruct (checkSessionTimeout_warns b took w Hs Hr) as (-> & _ & ->). lia.
    + unfold checkSessionTimeout. rewrite Hs.
      destruct (_ >=? SESSION_TIMEOUT) eqn:E1.
      * unfold handleSessionExpired. cbn [fst snd]. rewrite Hs.
        rewrite (warnings_app _ Alert (dialogs w.2)) by done.
        rewrite decide_False by done. unfold warnings. lia.
      * destruct (_ >=? SESSION_TIMEOUT - _) eqn:E2.
        -- rewrite Z.geb_leb in E1. apply Z.leb_gt in E1.
           apply Z.geb_le in E2. lia.
        -- cbn [andb]. rewrite Hs. lia.
Qed.

Lemma warnings_set_clock (t : Z) (e : Env) :
  warnings (set_clock t e) = warnings e.
Proof. done. Qed.

(** X28. The inactivity check of security.ts warns once per stretch of
    inactivity: over any course of checks and user activity, no more
    warnings are shown than one, if the flag is down at the start, plus
    one for each time the user did something. *)
Theorem security_warns_once_per_activity (evs : list Event) (w : World) :
  (warnings (run evs w).2
   <= warnings w.2
      + (if timeoutWarningShown w.1 then 0 else 1)
      + length (filter (fun ev => is_check ev = false) evs))%nat.
Proof.
  revert w. induction evs as [|ev evs IH]; intros w.
  - cbn. lia.
  - unfold run. cbn [foldl]. fold (run evs (step ev w)).
    specialize (IH (step ev w)).
    destruct ev as [dt b took | dt].
    + rewrite filter_cons_False by done.
      pose proof (checkSessionTimeout_budget b took
                    (w.1, set_clock (clock w.2 + Z.max 0 dt) w.2)) as Hb.
      cbn [step] in *. cbn [fst snd] in Hb.
      rewrite warnings_set_clock in Hb. lia.
    + rewrite filter_cons_True by done. cbn [step length] in *.
      unfold updateActivity in *. cbn [fst snd timeoutWarningShown] in *.
      rewrite warnings_set_clock in IH.
      destruct (timeoutWarningShown w.1); lia.
Qed.

Lemma checks_keep_the_flag : forall (evs : list Event) (w : World),
  Forall (fun ev => is_check ev = true) evs ->
  timeoutWarningShown w.1 = true ->
  (run evs w).1 = w.1 /\ warnings (run evs w).2 = warnings w.2.
Proof.
  induction evs as [|ev evs IH]; intros w Hall Hs; [done|].
  apply Forall_cons in Hall as [Hev Hall].
  destruct ev as [dt b took | dt]; [|done].
  unfold run. cbn [foldl]. fold (run evs (step (Check dt b took) w)).
  destruct (checkSessionTimeout_shown b took
              (w.1, set_clock (clock w.2 + Z.max 0 dt) w.2) Hs) as [H1 H2].
  cbn [fst snd] in H1, H2. rewrite warnings_set_clock in H2.
  destruct (IH (step (Check dt b took) w) Hall) as [IH1 IH2].
  { cbn [step]. by rewrite H1. }
  cbn [step] in *. by rewrite IH1, IH2, H1, H2.
Qed.

(** X29. A warning that the user answers with yes moves [lastActivity]
    to the time of the answer but leaves the flag up, because the check
    raises it after the dialog. So the thirty minutes start again, and
    as long as the user does nothing else the checks that follow show no
    warning any more, however late they come. *)
Theorem security_confirmed_warning_is_the_last
  (took : Z) (evs : list Event) (w : World) :
  timeoutWarningShown w.1 = false ->
  SESSION_TIMEOUT - 5 * 60 * 1000 <= clock w.2 - lastActivity w.1
    < SESSION_TIMEOUT ->
  Forall (fun ev => is_check ev = true) evs ->
  let w1 := checkSessionTimeout true took w in
  w1.1 = mkState (clock w.2 + Z.max 0 took) true /\
  warnings w1.2 = S (warnings w.2) /\
  (run evs w1).1 = w1.1 /\
  warnings (run evs w1).2 = warnings w1.2.
Proof.
  intros Hs Hr Hall w1.
  destruct (checkSessionTimeout_warns true took w Hs Hr) as (H1 & H2 & H3).
  fold w1 in H1, H2, H3.
  split; [|split; [done|]].
  - destruct w1.1 as [la sh]. cbn in H1, H2. by subst.
  - by apply checks_keep_the_flag.
Qed.

End SecurityChecks.

(** ** Scenarios

    Each property above that has a precondition, at a run of the page. *)

Section Scenarios.
Import Js Browser ApiClient AuthFlow.

Lemma start_arms_the_session_witness :
  AdminSessionManager.start
    (AdminSessionManager.start (AdminSessionManager.constructor 0 ∅ tt))
  = AdminSessionManager.start (AdminSessionManager.constructor 0 ∅ tt) /\
  AdminSessionManager.isActive
    (AdminSessionManager.state
       (AdminSessionManager.start (AdminSessionManager.constructor 0 ∅ tt)))
  = true /\
  length
    (timeouts
       (AdminSessionManager.browser
          (AdminSessionManager.start (AdminSessionManager.constructor 0 ∅ tt))))
  = 2%nat.
Proof.
  destruct (start_arms_the_session (AdminSessionManager.constructor 0 ∅ tt))
    as (Htwice & _ & Hinactive).
  - exists 0, ∅, tt, []. reflexivity.
  - destruct (Hinactive eq_refl) as (Hactive & _ & _ & Htimeouts & _).
    split; [exact Htwice|]. split; [exact Hactive|].
    rewrite Htimeouts. reflexivity.
Defined.

Lemma stop_keeps_the_activity_listeners_witness :
  documentListeners
    (AdminSessionManager.browser
       (AdminSessionManager.stop
          (AdminSessionManager.start (AdminSessionManager.constructor 0 ∅ tt))))
  = documentListeners
      (AdminSessionManager.browser
         (AdminSessionManager.start (AdminSessionManager.constructor 0 ∅ tt))).
Proof.
  destruct (stop_keeps_the_activity_listeners "click"
              (AdminSessionManager.start (AdminSessionManager.constructor 0 ∅ tt)))
    as [Hsame _].
  - exists 0, ∅, tt, [AdminSessionManager.Start]. reflexivity.
  - exact Hsame.
Defined.

Lemma timeouts_are_never_doubled_witness :
  (length
     (timeouts
        (AdminSessionManager.browser
           (AdminSessionManager.start (AdminSessionManager.constructor 0 ∅ tt))))
   <= 2)%nat.
Proof.
  destruct (timeouts_are_never_doubled
              (AdminSessionManager.start (AdminSessionManager.constructor 0 ∅ tt)))
    as (_ & _ & Hlen & _).
  - exists 0, ∅, tt, [AdminSessionManager.Start]. reflexivity.
  - exact Hlen.
Defined.

Lemma activity_restores_the_budget_witness :
  AdminSessionManager.timeRemaining
    (fst (AdminSessionManager.getSessionInfo
            (AdminSessionManager.step (AdminSessionManager.Advance 60000)
               (AdminSessionManager.extendSession
                  (AdminSessionManager.start
                     (AdminSessionManager.constructor 0 ∅ tt))))))
  = Z.max 0
      (AdminSessionManager.timeoutMinutes
         (AdminSessionManager.config
            (AdminSessionManager.start (AdminSessionManager.constructor 0 ∅ tt)))
       * 60 * 1000 - 60000).
Proof.
  destruct (activity_restores_the_budget 60000
              (AdminSessionManager.start (AdminSessionManager.constructor 0 ∅ tt)))
    as (_ & _ & _ & Hleft & _).
  - vm_compute. discriminate.
  - lia.
  - exact Hleft.
Defined.

Lemma updateConfig_rearms_from_now_witness :
  AdminSessionManager.config
    (AdminSessionManager.updateConfig
       (AdminSessionManager.mkPartial (Some 10) None None None)
       (AdminSessionManager.start (AdminSessionManager.constructor 0 ∅ tt)))
  = AdminSessionManager.merged
      (AdminSessionManager.config
         (AdminSessionManager.start (AdminSessionManager.constructor 0 ∅ tt)))
      (AdminSessionManager.mkPartial (Some 10) None None None).
Proof.
  destruct (updateConfig_rearms_from_now
              (AdminSessionManager.mkPartial (Some 10) None None None)
              (AdminSessionManager.start (AdminSessionManager.constructor 0 ∅ tt)))
    as (Hconfig & _).
  - exists 0, ∅, tt, [AdminSessionManager.Start]. reflexivity.
  - exact Hconfig.
Defined.


Lemma verifyToken_succeeds_for_superadmin_only_witness :
  exists u,
    succeeded Sample.root = succeeded u /\
    AuthService.is_superadmin u = true.
Proof.
  edestruct (verifyToken_succeeds_for_superadmin_only sample_decode
               [validate_ok Sample.root] signed_in_2100)
    as (u & Hu & Hs & _).
  - reflexivity.
  - reflexivity.
  - exists u. split; [exact Hu | exact Hs].
Defined.

Lemma verifyToken_expired_and_no_refresh_witness :
  exists e',
    verifyToken_run sample_decode [offline] Sample.signed_in
    = Some (failed "Token expired and refresh failed", [], e') /\
    signed_out e'.
Proof.
  edestruct (verifyToken_expired_and_no_refresh sample_decode offline []
               Sample.signed_in (Raw "access-1"))
    as (_ & Hrefresh & _).
  - reflexivity.
  - reflexivity.
  - reflexivity.
  - reflexivity.
  - apply Hrefresh. reflexivity.
Defined.

Lemma verifyToken_keeps_session_on_transient_error_witness :
  exists msg e',
    verifyToken_run sample_decode [offline] signed_in_2100
    = Some (failed msg, [], e') /\
    localStorage e' = localStorage signed_in_2100.
Proof.
  edestruct (verifyToken_keeps_session_on_transient_error sample_decode offline
               [] signed_in_2100 (Raw jwt_2100))
    as (e' & Hrun & Hstore & _).
  - reflexivity.
  - reflexivity.
  - reflexivity.
  - reflexivity.
  - vm_compute. discriminate.
  - eexists _, e'. split; [exact Hrun | exact Hstore].
Defined.

Lemma sample_valid_until (t : Z) :
  t <= 4102444800000 -> valid_until sample_decode (Raw jwt_2100) t.
Proof.
  intros Ht now Hnow.
  change (sample_decode (Raw jwt_2100)) with (Claims (Some 4102444800)).
  cbn [isTokenExpired]. apply Z.ltb_ge.
  apply Z.div_le_upper_bound; lia.
Qed.

Lemma verifyToken_retries_without_bound_witness :
  verifyToken_run sample_decode (rounds jwt_2100 2) signed_in_2100 = None.
Proof.
  destruct (verifyToken_retries_without_bound sample_decode jwt_2100 2
              signed_in_2100 (Raw jwt_2100))
    as [Hwaiting _].
  - discriminate.
  - reflexivity.
  - split; reflexivity.
  - apply sample_valid_until. vm_compute. discriminate.
  - apply sample_valid_until. vm_compute. discriminate.
  - exact Hwaiting.
Defined.

Lemma issued_token_validates_witness :
  fst (SuperAdminCSRFProtection.validateAdminToken
         (concat (map SuperAdminCSRFProtection.hex2 (resize 48 0 [0; 255])))
         (SuperAdminCSRFProtection.RandomValues []) 1000
         (SuperAdminCSRFProtection.generateSecureToken
            (SuperAdminCSRFProtection.RandomValues [0; 255]) 0
            SuperAdminCSRFProtection.initial)) = true.
Proof.
  destruct (issued_token_validates
              (SuperAdminCSRFProtection.RandomValues [0; 255])
              (SuperAdminCSRFProtection.RandomValues []) 0 1000
              SuperAdminCSRFProtection.initial
              (concat (map SuperAdminCSRFProtection.hex2 (resize 48 0 [0; 255]))))
    as [_ Hiff].
  - exact I.
  - apply wf_hex.
  - unfold SuperAdminCSRFProtection.time_value. lia.
  - vm_compute. discriminate.
  - apply Hiff. reflexivity.
Defined.

Lemma token_expires_after_TOKEN_EXPIRY_witness :
  SuperAdminCSRFProtection.isTokenExpired 1800001
    (SuperAdminCSRFProtection.setToken (lit "00ff") 0
       SuperAdminCSRFProtection.initial) = true /\
  SuperAdminCSRFProtection.isTokenExpired 1800000
    (SuperAdminCSRFProtection.setToken (lit "00ff") 0
       SuperAdminCSRFProtection.initial) = false.
Proof.
  split.
  - destruct (token_expires_after_TOKEN_EXPIRY (lit "00ff") 0 1800001
                SuperAdminCSRFProtection.initial) as [_ Hexpired].
    + unfold SuperAdminCSRFProtection.time_value. lia.
    + rewrite Hexpired. reflexivity.
  - destruct (token_expires_after_TOKEN_EXPIRY (lit "00ff") 0 1800000
                SuperAdminCSRFProtection.initial) as [_ Hexpired].
    + unfold SuperAdminCSRFProtection.time_value. lia.
    + rewrite Hexpired. reflexivity.
Defined.

Lemma getToken_serves_one_token_per_period_witness :
  SuperAdminCSRFProtection.getToken
    (SuperAdminCSRFProtection.RandomValues [1; 2; 3]) 1000
    (SuperAdminCSRFProtection.generateSecureToken
       (SuperAdminCSRFProtection.RandomValues [0; 255]) 0
       SuperAdminCSRFProtection.initial)
  = (SuperAdminCSRFProtection.token
       (SuperAdminCSRFProtection.generateSecureToken
          (SuperAdminCSRFProtection.RandomValues [0; 255]) 0
          SuperAdminCSRFProtection.initial),
     SuperAdminCSRFProtection.generateSecureToken
       (SuperAdminCSRFProtection.RandomValues [0; 255]) 0
       SuperAdminCSRFProtection.initial).
Proof.
  destruct (getToken_serves_one_token_per_period
              (SuperAdminCSRFProtection.RandomValues [0; 255])
              (SuperAdminCSRFProtection.RandomValues [1; 2; 3]) 0 1000
              SuperAdminCSRFProtection.initial) as [Hwithin _].
  - unfold SuperAdminCSRFProtection.time_value. lia.
  - apply Hwithin. vm_compute. discriminate.
Defined.

Lemma validateAdminName_returns_a_name_witness :
  exists e,
    SuperAdminValidator.validateAdminName (JString (lit " a"))
    = SuperAdminValidator.Throws e /\
    SuperAdminValidator.field e = "name"%string.
Proof.
  destruct (validateAdminName_returns_a_name (JString (lit "< a")) (lit " a"))
    as (_ & _ & _ & _ & Hshort).
  - vm_compute. reflexivity.
  - apply Hshort. vm_compute. lia.
Defined.

Lemma isAllowed_never_exceeds_the_limit_witness :
  Z.of_nat
    (length
       (filter (fun t => 10 - 1000 < t)
          (Security.RateLimiter.times_of "k"
             ([("k"%string, 0)] ++ [("k"%string, 10)]))))
  <= 2.
Proof.
  apply (isAllowed_never_exceeds_the_limit 2 1000 0
           [("k"%string, 0); ("k"%string, 10); ("k"%string, 20);
            ("k"%string, 1500)]
           [("k"%string, 0)] [("k"%string, 1500)] "k" 10).
  - cbn. lia.
  - vm_compute. reflexivity.
Defined.

Lemma isAllowed_lets_through_after_the_window_witness :
  (Security.RateLimiter.isAllowed "k" 1 1000 1000
     (Security.RateLimiter.calls 1 1000
        [("k"%string, 0); ("k"%string, 10)] ∅).2).1 = true.
Proof.
  apply (isAllowed_lets_through_after_the_window 1 1000 0
           [("k"%string, 0); ("k"%string, 10)] "k" 1000).
  - cbn. lia.
  - intros c Hc.
    apply elem_of_cons in Hc as [-> | Hc]; [cbn; lia|].
    apply list_elem_of_singleton in Hc as ->. cbn. lia.
  - lia.
  - intros t Ht.
    replace (Security.RateLimiter.times_of "k"
               (Security.RateLimiter.calls 1 1000
                  [("k"%string, 0); ("k"%string, 10)] ∅).1)
      with [0] in Ht by (vm_compute; reflexivity).
    apply list_elem_of_singleton in Ht as ->. lia.
Defined.

Lemma security_confirmed_warning_is_the_last_witness :
  (Security.SessionManager.checkSessionTimeout true 2000
     (Security.SessionManager.mkState 0 false, fresh 1500000 ∅)).1
  = Security.SessionManager.mkState 1502000 true /\
  Security.SessionManager.warnings
    (Security.SessionManager.run
       [Security.SessionManager.Check 60000 true 0;
        Security.SessionManager.Check 1740000 false 0]
       (Security.SessionManager.checkSessionTimeout true 2000
          (Security.SessionManager.mkState 0 false, fresh 1500000 ∅))).2
  = 1%nat.
Proof.
  destruct (security_confirmed_warning_is_the_last 2000
              [Security.SessionManager.Check 60000 true 0;
               Security.SessionManager.Check 1740000 false 0]
              (Security.SessionManager.mkState 0 false, fresh 1500000 ∅))
    as (Hstate & Hone & _ & Hlater).
  - reflexivity.
  - vm_compute. split; [discriminate | reflexivity].
  - repeat constructor.
  - split; [exact Hstate|]. rewrite Hlater. exact Hone.
Defined.

End Scenarios.
